(** * posixperm: POSIX permission notations parsed into a 32-bit [Perm]

    A shallow embedding of [main.go].  The package leans on three pieces of
    the Go standard library, which are embedded here next to it:

    - [regexp] (leftmost-first matching with submatches), as a list-of-successes
      backtracking matcher over a small regular-expression syntax;
    - [strconv.ParseUint], with its 64-bit accumulator and its cutoff tests;
    - [fs.FileMode.String] and the [fs.Mode*] constants.

    Byte slices are lists of [ascii] (one [ascii] is one byte).  [Perm] is a
    [uint32] carried by [Z]; every narrowing conversion is written out. *)

From Stdlib Require Import ZArith Ascii String List Bool Lia.
Import ListNotations.

Set Implicit Arguments.

Definition bytes := list ascii.

(** A Go string literal as a byte slice. *)
Definition B (s : string) : bytes := list_ascii_of_string s.

Definition byte_val (c : ascii) : Z := Z.of_N (N_of_ascii c).

(* ================================================================= *)
(** ** The regexp package *)

Module Regexp.

(** Syntax.  Only what the six patterns of the package use: character
    classes, concatenation, alternation, greedy star, numbered capture
    groups and the two text anchors (no flag is set, so [^] and [$] are
    begin and end of text). *)
Inductive regex : Type :=
| Eps
| Class (p : ascii -> bool)
| Cat (r1 r2 : regex)
| Alt (r1 r2 : regex)
| Star (r : regex)
| Cap (i : nat) (r : regex)
| Bol
| Eol.

(** A thread of the matcher: the offset reached, the text still to read and
    the groups captured on the way (most recent first). *)
Record mstate : Type := MState {
  pos : nat;
  rest : bytes;
  caps : list (nat * bytes)
}.

Definition set_cap (i : nat) (from : mstate) (st : mstate) : mstate :=
  MState (pos st) (rest st)
         ((i, firstn (pos st - pos from) (rest from)) :: caps st).

Fixpoint get_cap (i : nat) (c : list (nat * bytes)) : bytes :=
  match c with
  | [] => []
  | (j, v) :: c' => if Nat.eqb i j then v else get_cap i c'
  end.

(** Greedy iteration of [body]: one more round first, then the exit.  A
    round that consumes nothing is dropped, [fuel] bounds the rounds by the
    length of the text. *)
Fixpoint star_loop (body : mstate -> list mstate) (fuel : nat) (st : mstate)
  : list mstate :=
  match fuel with
  | O => [st]
  | S n =>
      flat_map (fun st' =>
                  if Nat.ltb (length (rest st')) (length (rest st))
                  then star_loop body n st' else [])
               (body st)
      ++ [st]
  end.

(** All the ways [r] matches at [st], in the order a backtracking search
    finds them: the head of the list is the leftmost-first match. *)
Fixpoint exec (r : regex) (st : mstate) : list mstate :=
  match r with
  | Eps => [st]
  | Class p =>
      match rest st with
      | c :: s' => if p c then [MState (S (pos st)) s' (caps st)] else []
      | [] => []
      end
  | Cat r1 r2 => flat_map (exec r2) (exec r1 st)
  | Alt r1 r2 => exec r1 st ++ exec r2 st
  | Star r1 => star_loop (exec r1) (length (rest st)) st
  | Cap i r1 => map (set_cap i st) (exec r1 st)
  | Bol => if Nat.eqb (pos st) 0 then [st] else []
  | Eol => match rest st with [] => [st] | _ :: _ => [] end
  end.

(** Number of capture groups ([Regexp.NumSubexp]). *)
Fixpoint num_subexp (r : regex) : nat :=
  match r with
  | Eps | Class _ | Bol | Eol => 0
  | Cat r1 r2 | Alt r1 r2 => Nat.max (num_subexp r1) (num_subexp r2)
  | Star r1 => num_subexp r1
  | Cap i r1 => Nat.max i (num_subexp r1)
  end.

(** The first match that starts at offset [p] or later, [s] being the text
    from [p] on.  Group 0 is the whole match. *)
Fixpoint search (re : regex) (p : nat) (s : bytes) : option mstate :=
  let st := MState p s [] in
  match exec re st with
  | st' :: _ => Some (set_cap 0 st st')
  | [] =>
      match s with
      | [] => None
      | _ :: s' => search re (S p) s'
      end
  end.

(** The slices of one match, group 0 first; a group that took no part in
    the match is the nil slice. *)
Definition submatches (re : regex) (st : mstate) : list bytes :=
  map (fun i => get_cap i (caps st)) (seq 0 (S (num_subexp re))).

(** [re.Match(b)] *)
Definition Match (re : regex) (b : bytes) : bool :=
  match search re 0 b with Some _ => true | None => false end.

(** [re.FindSubmatch(b)]; [None] is the nil result. *)
Definition FindSubmatch (re : regex) (b : bytes) : option (list bytes) :=
  match search re 0 b with
  | Some st => Some (submatches re st)
  | None => None
  end.

(** The loop of [allMatches]: successive non-overlapping matches.  [p] is
    the offset where the next search starts and [s] the text from there;
    [prev] is the end of the previous match.  After an empty match the
    search moves one byte forward, and an empty match that touches the
    previous match is not delivered. *)
Fixpoint all_matches (re : regex) (fuel : nat) (p : nat) (s : bytes)
         (prev : option nat) : list (list bytes) :=
  match fuel with
  | O => []
  | S fuel' =>
      match search re p s with
      | None => []
      | Some st =>
          if Nat.eqb (pos st) p then
            let start := pos st - length (get_cap 0 (caps st)) in
            let accept :=
              match prev with
              | Some e => negb (Nat.eqb start e)
              | None => true
              end in
            let tl :=
              match s with
              | [] => []
              | _ :: s' => all_matches re fuel' (S p) s' (Some (pos st))
              end in
            if accept then submatches re st :: tl else tl
          else
            submatches re st
              :: all_matches re fuel' (pos st) (rest st) (Some (pos st))
      end
  end.

(** [re.FindAllSubmatch(b, -1)] *)
Definition FindAllSubmatch (re : regex) (b : bytes) : list (list bytes) :=
  all_matches re (S (length b)) 0 b None.

(** *** Building blocks of the pattern syntax *)

Definition lit (c : ascii) : regex := Class (Ascii.eqb c).

(** [[lo-hi]] *)
Definition range (lo hi : ascii) : ascii -> bool :=
  fun c => Ascii.leb lo c && Ascii.leb c hi.

(** [[abc]] *)
Definition one_of (cs : string) : ascii -> bool :=
  fun c => existsb (Ascii.eqb c) (list_ascii_of_string cs).

(** [\s] is [[\t\n\f\r ]]. *)
Definition space : ascii -> bool :=
  fun c => existsb (Ascii.eqb c)
             [ascii_of_nat 9; ascii_of_nat 10; ascii_of_nat 12;
              ascii_of_nat 13; ascii_of_nat 32].

(** [r?] *)
Definition opt (r : regex) : regex := Alt r Eps.

(** [r+] *)
Definition plus (r : regex) : regex := Cat r (Star r).

(** [r{n,}] *)
Fixpoint rep_min (n : nat) (r : regex) : regex :=
  match n with
  | O => Star r
  | S n' => Cat r (rep_min n' r)
  end.

(** [r{1,3}] *)
Definition rep_1_3 (r : regex) : regex := Cat r (opt (Cat r (opt r))).

Fixpoint cat (rs : list regex) : regex :=
  match rs with
  | [] => Eps
  | [r] => r
  | r :: rs' => Cat r (cat rs')
  end.

(** The way of matching that a backtracking search finds first. *)
Definition first_match (r : regex) (st : mstate) : option mstate :=
  hd_error (exec r st).

(** The text is used up, or its next byte is not in the class [p]: a greedy
    run of [p] stops here. *)
Definition stops (p : ascii -> bool) (s : bytes) : bool :=
  match s with
  | [] => true
  | x :: _ => negb (p x)
  end.

(** [st'] is [st] after reading [w]. *)
Definition advances (st st' : mstate) (w : bytes) : Prop :=
  rest st = w ++ rest st' /\ pos st' = pos st + length w.

(** No capture group inside. *)
Fixpoint cap_free (r : regex) : bool :=
  match r with
  | Eps | Class _ | Bol | Eol => true
  | Cat r1 r2 | Alt r1 r2 => cap_free r1 && cap_free r2
  | Star r1 => cap_free r1
  | Cap _ _ => false
  end.

End Regexp.

Import Regexp.

Local Open Scope Z_scope.

(* ================================================================= *)
(** ** The patterns of the package *)

(** [^[1-7][0-7]{2,}$] *)
Definition fmtImplicitInt : regex :=
  cat [Bol; Class (range "1" "7"); rep_min 2 (Class (range "0" "7")); Eol].

(** [^0o?[0-7]{3,}$] *)
Definition fmtExplicitInt : regex :=
  cat [Bol; lit "0"; opt (lit "o"); rep_min 3 (Class (range "0" "7")); Eol].

(** [(a|[ugo]{1,3})([-=+])([rwx]{1,3})], groups numbered from [k + 1]. *)
Definition symbolic_clause (k : nat) : regex :=
  cat [Cap (k + 1) (Alt (lit "a") (rep_1_3 (Class (one_of "ugo"))));
       Cap (k + 2) (Class (one_of "-=+"));
       Cap (k + 3) (rep_1_3 (Class (one_of "rwx")))].

(** [^((a|[ugo]{1,3})([-=+])([rwx]{1,3})\s?)+$] *)
Definition fmtSymbolicMatch : regex :=
  cat [Bol;
       plus (Cap 1 (Cat (symbolic_clause 1) (opt (Class space))));
       Eol].

(** [(a|[ugo]{1,3})([-=+])([rwx]{1,3})] *)
Definition fmtSymbolicExtract : regex := symbolic_clause 0.

Definition col (c : ascii) : regex := Alt (lit c) (lit "-").

(** [^(r|-)(w|-)(x|-)$] *)
Definition fmtBasicSingle : regex :=
  cat [Bol; Cap 1 (col "r"); Cap 2 (col "w"); Cap 3 (col "x"); Eol].

(** [^(r|-)(w|-)(x|-)(r|-)(w|-)(x|-)(r|-)(w|-)(x|-)$] *)
Definition fmtBasicTriple : regex :=
  cat [Bol;
       Cap 1 (col "r"); Cap 2 (col "w"); Cap 3 (col "x");
       Cap 4 (col "r"); Cap 5 (col "w"); Cap 6 (col "x");
       Cap 7 (col "r"); Cap 8 (col "w"); Cap 9 (col "x");
       Eol].

(** [^(P)(r|-)(w|-)(x|-)(r|-)(w|-)(x|-)(r|-)(w|-)(x|-)$] where the first
    group [P] is [-|[dalTLDpSugct?]*], a lone dash or any run of mode letters. *)
Definition fmtFull : regex :=
  cat [Bol;
       Cap 1 (Alt (lit "-") (Star (Class (one_of "dalTLDpSugct?"))));
       Cap 2 (col "r"); Cap 3 (col "w"); Cap 4 (col "x");
       Cap 5 (col "r"); Cap 6 (col "w"); Cap 7 (col "x");
       Cap 8 (col "r"); Cap 9 (col "w"); Cap 10 (col "x");
       Eol].

(* ================================================================= *)
(** ** strconv.ParseUint *)

Module Strconv.

Inductive NumError : Type := ErrSyntax | ErrRange | ErrBase | ErrBitSize.

Definition uint64 (x : Z) : Z := x mod 2 ^ 64.

Definition maxUint64 : Z := 2 ^ 64 - 1.

Definition IntSize : Z := 64.

(** [lower(c)] is [c | ('x' - 'X')]. *)
Definition lower (c : Z) : Z := Z.lor c 32.

Definition is_digit (c : Z) : bool := (48 <=? c) && (c <=? 57).

(** [underscoreOK(s)]: underscores only between digits, or between a base
    prefix and a digit.  [saw] is the last kind of byte seen. *)
Inductive saw_kind : Type := SawStart | SawDigit | SawUnderscore | SawOther.

Fixpoint underscore_scan (hex : bool) (s : bytes) (saw : saw_kind) : bool :=
  match s with
  | [] => match saw with SawUnderscore => false | _ => true end
  | ch :: s' =>
      let c := byte_val ch in
      if is_digit c
         || (hex && (97 <=? lower c) && (lower c <=? 102))
      then underscore_scan hex s' SawDigit
      else if c =? 95 then
        match saw with
        | SawDigit => underscore_scan hex s' SawUnderscore
        | _ => false
        end
      else
        match saw with
        | SawUnderscore => false
        | _ => underscore_scan hex s' SawOther
        end
  end.

Definition underscoreOK (s : bytes) : bool :=
  let s :=
    match s with
    | c :: s' => if (byte_val c =? 45) || (byte_val c =? 43) then s' else s
    | [] => s
    end in
  match s with
  | c0 :: c1 :: s' =>
      let l := lower (byte_val c1) in
      if (byte_val c0 =? 48) && ((l =? 98) || (l =? 111) || (l =? 120))
      then underscore_scan (l =? 120) s' SawDigit
      else underscore_scan false s SawStart
  | _ => underscore_scan false s SawStart
  end.

(** The digit loop.  [inl (n, underscores)] when the text is used up,
    [inr (v, e)] when the loop returns early. *)
Fixpoint digits_loop (base0 : bool) (base cutoff maxVal : Z)
         (s : bytes) (underscores : bool) (n : Z)
  : (Z * bool) + (Z * NumError) :=
  match s with
  | [] => inl (n, underscores)
  | ch :: s' =>
      let c := byte_val ch in
      if (c =? 95) && base0 then
        digits_loop base0 base cutoff maxVal s' true n
      else
        let d :=
          if is_digit c then Some (c - 48)
          else if (97 <=? lower c) && (lower c <=? 122)
               then Some (lower c - 97 + 10)
               else None in
        match d with
        | None => inr (0, ErrSyntax)
        | Some d =>
            if d >=? base mod 256 then inr (0, ErrSyntax)
            else if n >=? cutoff then inr (maxVal, ErrRange)
            else
              let n := uint64 (n * base) in
              let n1 := uint64 (n + d) in
              if (n1 <? n) || (n1 >? maxVal) then inr (maxVal, ErrRange)
              else digits_loop base0 base cutoff maxVal s' underscores n1
        end
  end.

(** [ParseUint(s, base, bitSize)]: the value and the error, [None] for nil. *)
Definition ParseUint (s0 : bytes) (base bitSize : Z) : Z * option NumError :=
  match s0 with
  | [] => (0, Some ErrSyntax)
  | c0 :: s1 =>
      let base0 := base =? 0 in
      let prefix : option (Z * bytes) :=
        if (2 <=? base) && (base <=? 36) then Some (base, s0)
        else if base =? 0 then
          if byte_val c0 =? 48 then
            match s1 with
            | c1 :: s2 =>
                let l := lower (byte_val c1) in
                if (3 <=? Z.of_nat (length s0)) && (l =? 98) then Some (2, s2)
                else if (3 <=? Z.of_nat (length s0)) && (l =? 111)
                     then Some (8, s2)
                else if (3 <=? Z.of_nat (length s0)) && (l =? 120)
                     then Some (16, s2)
                else Some (8, s1)
            | [] => Some (8, s1)
            end
          else Some (10, s0)
        else None in
      match prefix with
      | None => (0, Some ErrBase)
      | Some (base, s) =>
          let bitSize := if bitSize =? 0 then IntSize else bitSize in
          if (bitSize <? 0) || (bitSize >? 64) then (0, Some ErrBitSize)
          else
            let cutoff := maxUint64 / base + 1 in
            let maxVal := uint64 (uint64 (Z.shiftl 1 bitSize) - 1) in
            match digits_loop base0 base cutoff maxVal s false 0 with
            | inr (v, e) => (v, Some e)
            | inl (n, underscores) =>
                if underscores && negb (underscoreOK s0)
                then (0, Some ErrSyntax)
                else (n, None)
            end
      end
  end.

End Strconv.

Import Strconv.

(* ================================================================= *)
(** ** io/fs: the mode bits and FileMode.String *)

Module Fs.

(** [1 << (32 - 1 - iota)] *)
Definition mode_bit (iota : Z) : Z := Z.shiftl 1 (32 - 1 - iota).

Definition ModeDir        : Z := mode_bit 0.   (* d *)
Definition ModeAppend     : Z := mode_bit 1.   (* a *)
Definition ModeExclusive  : Z := mode_bit 2.   (* l *)
Definition ModeTemporary  : Z := mode_bit 3.   (* T *)
Definition ModeSymlink    : Z := mode_bit 4.   (* L *)
Definition ModeDevice     : Z := mode_bit 5.   (* D *)
Definition ModeNamedPipe  : Z := mode_bit 6.   (* p *)
Definition ModeSocket     : Z := mode_bit 7.   (* S *)
Definition ModeSetuid     : Z := mode_bit 8.   (* u *)
Definition ModeSetgid     : Z := mode_bit 9.   (* g *)
Definition ModeCharDevice : Z := mode_bit 10.  (* c *)
Definition ModeSticky     : Z := mode_bit 11.  (* t *)
Definition ModeIrregular  : Z := mode_bit 12.  (* ? *)

Definition mode_letters : bytes := B "dalTLDpSugct?".

Definition rwx_letters : bytes := B "rwxrwxrwx".

(** First loop of [String]: the letter of every mode bit that is set, [i]
    being the index of the head of [str]. *)
Fixpoint mode_chars (m : Z) (i : Z) (str : bytes) : bytes :=
  match str with
  | [] => []
  | c :: str' =>
      if negb (Z.land m (Z.shiftl 1 (32 - 1 - i)) =? 0)
      then c :: mode_chars m (i + 1) str'
      else mode_chars m (i + 1) str'
  end.

(** Second loop: nine columns, the letter or a dash. *)
Fixpoint rwx_chars (m : Z) (i : Z) (rwx : bytes) : bytes :=
  match rwx with
  | [] => []
  | c :: rwx' =>
      (if negb (Z.land m (Z.shiftl 1 (9 - 1 - i)) =? 0) then c else "-"%char)
        :: rwx_chars m (i + 1) rwx'
  end.

(** [FileMode.String] *)
Definition FileMode_String (m : Z) : bytes :=
  let buf := mode_chars m 0 mode_letters in
  let buf := match buf with [] => ["-"%char] | _ :: _ => buf end in
  buf ++ rwx_chars m 0 rwx_letters.

End Fs.

Import Fs.

(* ================================================================= *)
(** ** Perm and its decoders *)

(** [type Perm fs.FileMode], an unsigned 32-bit integer. *)
Definition Perm : Type := Z.

Definition uint32 (x : Z) : Perm := x mod 2 ^ 32.

(** [^x] on a [uint32]. *)
Definition not32 (x : Perm) : Perm := Z.lxor x (2 ^ 32 - 1).

(** The octal literals of the source. *)
Definition o777 : Perm := 511.
Definition o700 : Perm := 448.
Definition o070 : Perm := 56.
Definition o007 : Perm := 7.
Definition o444 : Perm := 292.
Definition o222 : Perm := 146.
Definition o111 : Perm := 73.
Definition o400 : Perm := 256.
Definition o200 : Perm := 128.
Definition o100 : Perm := 64.
Definition o040 : Perm := 32.
Definition o020 : Perm := 16.
Definition o010 : Perm := 8.
Definition o004 : Perm := 4.
Definition o002 : Perm := 2.
Definition o001 : Perm := 1.

(** The errors [UnmarshalText] builds with [fmt.Errorf]: the message kind,
    the quoted input and, for the two octal forms, the wrapped cause. *)
Inductive error : Type :=
| ErrImplicitOctal (b : bytes) (cause : NumError)
| ErrExplicitOctal (b : bytes) (cause : NumError)
| ErrUnrecognized (b : bytes).

(** What a method with receiver [p *Perm] leaves behind: the receiver and
    the returned error ([None] is nil), or a run-time panic (an index out of
    range). *)
Inductive outcome : Type :=
| Returned (p : Perm) (err : option error)
| Panicked.

(** A body that may index out of range and ends in [*p = perm; return nil]. *)
Definition assign_or_panic (body : option Perm) : outcome :=
  match body with
  | Some perm => Returned perm None
  | None => Panicked
  end.

(** [b[i]] *)
Definition index {A : Type} (b : list A) (i : nat) : option A := nth_error b i.

Notation "x <- e ;; k" :=
  (match e with Some x => k | None => None end)
  (at level 61, e at next level, right associativity).

Notation "c == d" := (Ascii.eqb c d) (at level 70, no associativity).

Definition fromImplicit (p : Perm) (b : bytes) : outcome :=
  match ParseUint b 8 32 with
  | (_, Some err) => Returned p (Some (ErrImplicitOctal b err))
  | (v, None) => Returned (uint32 v) None
  end.

Definition fromExplicit (p : Perm) (b : bytes) : outcome :=
  match ParseUint b 0 32 with
  | (_, Some err) => Returned p (Some (ErrExplicitOctal b err))
  | (v, None) => Returned (uint32 v) None
  end.

(** The [switch sym] over the actor letters of one clause. *)
Definition actor_sym (actor : Perm) (sym : ascii) : Perm :=
  if sym == "a" then o777
  else if sym == "u" then Z.lor actor o700
  else if sym == "g" then Z.lor actor o070
  else if sym == "o" then Z.lor actor o007
  else actor.

(** The [switch sym] over the permission letters of one clause. *)
Definition actorperm_sym (actorperm : Perm) (sym : ascii) : Perm :=
  if sym == "r" then Z.lor actorperm o444
  else if sym == "w" then Z.lor actorperm o222
  else if sym == "x" then Z.lor actorperm o111
  else actorperm.

(** The [switch permexpr[2][0]]. *)
Definition apply_op (op : ascii) (perm actor actorperm : Perm) : Perm :=
  if op == "+" then Z.lor perm (Z.land actor actorperm)
  else if op == "-" then Z.land perm (not32 (Z.land actor actorperm))
  else if op == "=" then
    Z.lor (Z.land perm (not32 actor)) (Z.land actor actorperm)
  else perm.

(** One round of the loop over [matches]. *)
Definition symbolic_step (perm : Perm) (permexpr : list bytes) : option Perm :=
  pe1 <- index permexpr 1 ;;
  let actor := fold_left actor_sym pe1 0 in
  pe3 <- index permexpr 3 ;;
  let actorperm := fold_left actorperm_sym pe3 0 in
  pe2 <- index permexpr 2 ;;
  op <- index pe2 0 ;;
  Some (apply_op op perm actor actorperm).

Fixpoint symbolic_loop (perm : Perm) (matches : list (list bytes))
  : option Perm :=
  match matches with
  | [] => Some perm
  | permexpr :: matches' =>
      perm' <- symbolic_step perm permexpr ;;
      symbolic_loop perm' matches'
  end.

Definition fromSymbolic (p : Perm) (b : bytes) : outcome :=
  let matches := FindAllSubmatch fmtSymbolicExtract b in
  assign_or_panic (symbolic_loop 0 matches).

(** [if c == letter { perm = perm | bit }] *)
Definition or_if (c letter : ascii) (perm bit : Perm) : Perm :=
  if c == letter then Z.lor perm bit else perm.

Definition fromBasicSingle (p : Perm) (b : bytes) : outcome :=
  assign_or_panic (
    let perm := 0 in
    b0 <- index b 0 ;; let perm := or_if b0 "r" perm o444 in
    b1 <- index b 1 ;; let perm := or_if b1 "w" perm o222 in
    b2 <- index b 2 ;; let perm := or_if b2 "x" perm o111 in
    Some perm).

Definition fromBasicTriple (p : Perm) (b : bytes) : outcome :=
  assign_or_panic (
    let perm := 0 in
    b0 <- index b 0 ;; let perm := or_if b0 "r" perm o400 in
    b1 <- index b 1 ;; let perm := or_if b1 "w" perm o200 in
    b2 <- index b 2 ;; let perm := or_if b2 "x" perm o100 in
    b3 <- index b 3 ;; let perm := or_if b3 "r" perm o040 in
    b4 <- index b 4 ;; let perm := or_if b4 "w" perm o020 in
    b5 <- index b 5 ;; let perm := or_if b5 "x" perm o010 in
    b6 <- index b 6 ;; let perm := or_if b6 "r" perm o004 in
    b7 <- index b 7 ;; let perm := or_if b7 "w" perm o002 in
    b8 <- index b 8 ;; let perm := or_if b8 "x" perm o001 in
    Some perm).

(** The [switch attr] over the leading group of the full form. *)
Definition attr_sym (perm : Perm) (attr : ascii) : Perm :=
  if attr == "d" then Z.lor perm (uint32 ModeDir)
  else if attr == "a" then Z.lor perm (uint32 ModeAppend)
  else if attr == "l" then Z.lor perm (uint32 ModeExclusive)
  else if attr == "T" then Z.lor perm (uint32 ModeTemporary)
  else if attr == "L" then Z.lor perm (uint32 ModeSymlink)
  else if attr == "D" then Z.lor perm (uint32 ModeDevice)
  else if attr == "p" then Z.lor perm (uint32 ModeNamedPipe)
  else if attr == "S" then Z.lor perm (uint32 ModeSocket)
  else if attr == "u" then Z.lor perm (uint32 ModeSetuid)
  else if attr == "g" then Z.lor perm (uint32 ModeSetgid)
  else if attr == "c" then Z.lor perm (uint32 ModeCharDevice)
  else if attr == "t" then Z.lor perm (uint32 ModeSticky)
  else if attr == "?" then Z.lor perm (uint32 ModeIrregular)
  else perm.

(** [m[i][0]] *)
Definition index2 (m : list bytes) (i : nat) : option ascii :=
  mi <- index m i ;; index mi 0.

Definition fromFull (p : Perm) (b : bytes) : outcome :=
  assign_or_panic (
    m <- FindSubmatch fmtFull b ;;
    m1 <- index m 1 ;;
    let perm := fold_left attr_sym m1 0 in
    c <- index2 m 2 ;; let perm := or_if c "r" perm o400 in
    c <- index2 m 3 ;; let perm := or_if c "w" perm o200 in
    c <- index2 m 4 ;; let perm := or_if c "x" perm o100 in
    c <- index2 m 5 ;; let perm := or_if c "r" perm o040 in
    c <- index2 m 6 ;; let perm := or_if c "w" perm o020 in
    c <- index2 m 7 ;; let perm := or_if c "x" perm o010 in
    c <- index2 m 8 ;; let perm := or_if c "r" perm o004 in
    c <- index2 m 9 ;; let perm := or_if c "w" perm o002 in
    c <- index2 m 10 ;; let perm := or_if c "x" perm o001 in
    Some perm).

Definition UnmarshalText (p : Perm) (b : bytes) : outcome :=
  if Match fmtImplicitInt b then fromImplicit p b
  else if Match fmtExplicitInt b then fromExplicit p b
  else if Match fmtBasicSingle b then fromBasicSingle p b
  else if Match fmtBasicTriple b then fromBasicTriple p b
  else if Match fmtSymbolicMatch b then fromSymbolic p b
  else if Match fmtFull b then fromFull p b
  else Returned p (Some (ErrUnrecognized b)).

(** [Perm.String] *)
Definition String (p : Perm) : bytes := FileMode_String p.

(** [Perm.MarshalText]: the bytes and the (nil) error. *)
Definition MarshalText (p : Perm) : bytes * option error := (String p, None).

(** [FromString]: the named result [r] starts at zero and is the receiver
    of [UnmarshalText]. *)
Definition FromString (s : bytes) : outcome := UnmarshalText 0 s.

(** [FromFileMode] and [Perm.FileMode] *)
Definition FromFileMode (m : Z) : Perm * option error := (m, None).
Definition FileMode (p : Perm) : Z := p.

(* ================================================================= *)
(** ** Vocabulary of the specification *)

(** *** Bit groups *)

Definition perm_bits : Perm := o777.

Definition mode_bits : Perm :=
  fold_left Z.lor
    [ModeDir; ModeAppend; ModeExclusive; ModeTemporary; ModeSymlink;
     ModeDevice; ModeNamedPipe; ModeSocket; ModeSetuid; ModeSetgid;
     ModeCharDevice; ModeSticky; ModeIrregular] 0.

Definition defined_bits : Perm := Z.lor perm_bits mode_bits.

(** [x] has no bit outside [mask]. *)
Definition within (mask x : Perm) : Prop := Z.land x (not32 mask) = 0.

Definition is_uint32 (x : Z) : Prop := 0 <= x < 2 ^ 32.

(** *** The six grammars *)

Inductive grammar : Type :=
| ImplicitOctal | ExplicitOctal | Symbolic | BasicSingle | BasicTriple | Full.

Definition pattern (g : grammar) : regex :=
  match g with
  | ImplicitOctal => fmtImplicitInt
  | ExplicitOctal => fmtExplicitInt
  | Symbolic => fmtSymbolicMatch
  | BasicSingle => fmtBasicSingle
  | BasicTriple => fmtBasicTriple
  | Full => fmtFull
  end.

Definition decoder (g : grammar) : Perm -> bytes -> outcome :=
  match g with
  | ImplicitOctal => fromImplicit
  | ExplicitOctal => fromExplicit
  | Symbolic => fromSymbolic
  | BasicSingle => fromBasicSingle
  | BasicTriple => fromBasicTriple
  | Full => fromFull
  end.

Definition accepts (g : grammar) (b : bytes) : bool := Match (pattern g) b.

(** The priority order as the specification lists it. *)
Definition spec_order : list grammar :=
  [ImplicitOctal; ExplicitOctal; Symbolic; BasicSingle; BasicTriple; Full].

(** First match wins over a list of grammars. *)
Fixpoint dispatch (gs : list grammar) (p : Perm) (b : bytes) : outcome :=
  match gs with
  | [] => Returned p (Some (ErrUnrecognized b))
  | g :: gs' => if accepts g b then decoder g p b else dispatch gs' p b
  end.

Definition accepted_only_by (g : grammar) (b : bytes) : Prop :=
  accepts g b = true /\ forall g', g' <> g -> accepts g' b = false.

(** *** Octal text *)

Definition is_octal_digit (c : ascii) : bool := range "0" "7" c.

(** The number a string of octal digits writes. *)
Definition octal_step (n : Z) (c : ascii) : Z := 8 * n + (byte_val c - 48).

Definition octal_value (ds : bytes) : Z := fold_left octal_step ds 0.

Definition maxUint32 : Z := 2 ^ 32 - 1.

(** What [ParseUint] answers on a string of octal digits read in base 8
    with [bitSize] 32. *)
Definition octal_result (ds : bytes) : Z * option NumError :=
  if octal_value ds <=? maxUint32 then (octal_value ds, None)
  else (maxUint32, Some ErrRange).

Definition octal_digit (d : Z) : ascii := ascii_of_N (Z.to_N (48 + d)).

(** [fmt.Sprintf("%o", v)]: the octal digits of [v], no leading zero. *)
Fixpoint fmt_octal_aux (fuel : nat) (v : Z) (acc : bytes) : bytes :=
  match fuel with
  | O => acc
  | S fuel' =>
      let acc' := octal_digit (v mod 8) :: acc in
      if v / 8 =? 0 then acc' else fmt_octal_aux fuel' (v / 8) acc'
  end.

Definition fmt_octal (v : Z) : bytes := fmt_octal_aux 22 v [].

(** Zero padding to three digits, the [%03o] of the tests. *)
Definition fmt_octal3 (v : Z) : bytes :=
  let ds := fmt_octal v in
  repeat "0"%char (3 - length ds) ++ ds.

(** *** Symbolic clauses *)

(** One clause as written: actor letters, operator, permission letters and
    the optional white space after it. *)
Record clause : Type := Clause {
  cl_actor : bytes;
  cl_op : ascii;
  cl_perm : bytes;
  cl_sep : bytes
}.

Definition short (w : bytes) : bool :=
  (Nat.leb 1 (length w)) && (Nat.leb (length w) 3).

(** [a], or one to three of [u], [g], [o]. *)
Definition is_actor (w : bytes) : bool :=
  match w with [c] => c == "a" | _ => false end
  || (short w && forallb (one_of "ugo") w).

(** Nothing, or one white-space byte. *)
Definition is_sep (w : bytes) : bool :=
  match w with
  | [] => true
  | [s] => space s
  | _ => false
  end.

Definition wf_clause (c : clause) : bool :=
  is_actor (cl_actor c)
  && one_of "-=+" (cl_op c)
  && (short (cl_perm c) && forallb (one_of "rwx") (cl_perm c))
  && is_sep (cl_sep c).

Definition clause_core (c : clause) : bytes :=
  cl_actor c ++ cl_op c :: cl_perm c.

Fixpoint render_clauses (cs : list clause) : bytes :=
  match cs with
  | [] => []
  | c :: cs' => clause_core c ++ cl_sep c ++ render_clauses cs'
  end.

(** Actor mask: [a] is all three nibbles, [u], [g], [o] add their own. *)
Definition actor_mask (w : bytes) : Perm :=
  fold_left (fun m c =>
               if c == "a" then o777
               else Z.lor m (if c == "u" then o700
                             else if c == "g" then o070
                             else if c == "o" then o007 else 0))
            w 0.

(** Permission mask: the same three bits in every nibble. *)
Definition perm_mask (w : bytes) : Perm :=
  fold_left (fun m c =>
               Z.lor m (if c == "r" then o444
                        else if c == "w" then o222
                        else if c == "x" then o111 else 0))
            w 0.

(** The effect of one clause on the accumulator, in the words of the
    specification. *)
Definition spec_apply (acc : Perm) (c : clause) : Perm :=
  let am := actor_mask (cl_actor c) in
  let pm := perm_mask (cl_perm c) in
  if cl_op c == "+" then Z.lor acc (Z.land am pm)
  else if cl_op c == "-" then Z.land acc (Z.lnot (Z.land am pm))
  else Z.lor (Z.land acc (Z.lnot am)) (Z.land am pm).

(** The strings of the symbolic grammar: one or more clauses. *)
Definition symbolic_text (b : bytes) : Prop :=
  exists cs, cs <> [] /\ forallb wf_clause cs = true /\ b = render_clauses cs.

(** The slices [FindAllSubmatch] returns for one clause. *)
Definition clause_match (c : clause) : list bytes :=
  [clause_core c; cl_actor c; [cl_op c]; cl_perm c].

(** *** The full form *)

Definition is_col (letter c : ascii) : bool := (c == letter) || (c == "-").

(** Nine columns, each its letter or a dash. *)
Definition is_triple (t : bytes) : bool :=
  match t with
  | [c0; c1; c2; c3; c4; c5; c6; c7; c8] =>
      is_col "r" c0 && is_col "w" c1 && is_col "x" c2
      && is_col "r" c3 && is_col "w" c4 && is_col "x" c5
      && is_col "r" c6 && is_col "w" c7 && is_col "x" c8
  | _ => false
  end.

(** [w] picks letters of [l] from left to right, none twice. *)
Fixpoint is_subseq (w l : bytes) : bool :=
  match l with
  | [] => match w with [] => true | _ :: _ => false end
  | d :: l' =>
      match w with
      | [] => true
      | c :: w' => if c == d then is_subseq w' l' else is_subseq w l'
      end
  end.

(** A full-form string as the claim describes it: any run of mode letters
    (possibly empty) or a dash, then the nine columns. *)
Definition full_form (s : bytes) : Prop :=
  exists pre tri,
    s = pre ++ tri
    /\ (pre = ["-"%char] \/ forallb (one_of "dalTLDpSugct?") pre = true)
    /\ is_triple tri = true.

(** The strings the encoder can produce: a lone dash, or at least one mode
    letter, each at most once and in the order of [dalTLDpSugct?]; then the
    nine columns. *)
Definition canonical_full (s : bytes) : Prop :=
  exists pre tri,
    s = pre ++ tri
    /\ (pre = ["-"%char] \/ (pre <> [] /\ is_subseq pre mode_letters = true))
    /\ is_triple tri = true.

(** *** The octal and basic forms, read directly *)

(** At least [n] bytes, all octal digits. *)
Definition is_octal_digits (n : nat) (ds : bytes) : bool :=
  Nat.leb n (length ds) && forallb is_octal_digit ds.

Definition is_implicit (b : bytes) : bool :=
  match b with
  | d0 :: ds => range "1" "7" d0 && is_octal_digits 2 ds
  | [] => false
  end.

Definition is_explicit (b : bytes) : bool :=
  match b with
  | c0 :: b' =>
      (c0 == "0")
      && (match b' with
          | c1 :: ds => (c1 == "o") && is_octal_digits 3 ds
          | [] => false
          end
          || is_octal_digits 3 b')
  | [] => false
  end.

(** Three columns. *)
Definition is_single (t : bytes) : bool :=
  match t with
  | [c0; c1; c2] => is_col "r" c0 && is_col "w" c1 && is_col "x" c2
  | _ => false
  end.

(** The digits of an explicit octal string, after [0] or [0o]. *)
Definition explicit_digits (b : bytes) : bytes :=
  match b with
  | _ :: c1 :: ds => if c1 == "o" then ds else c1 :: ds
  | _ => []
  end.

(** The value of the three columns, the same for every actor. *)
Definition single_value (t : bytes) : Perm :=
  match t with
  | [c0; c1; c2] =>
      or_if c2 "x" (or_if c1 "w" (or_if c0 "r" 0 o444) o222) o111
  | _ => 0
  end.

(** *** Outcomes *)

(** A parse that failed and left the receiver [p] as it was. *)
Definition failed (o : outcome) (p : Perm) : Prop :=
  exists e, o = Returned p (Some e).

(** Two runs agree: the same error, and on success the same value. *)
Definition same_result (o1 o2 : outcome) : Prop :=
  match o1, o2 with
  | Returned r1 e1, Returned r2 e2 => e1 = e2 /\ (e1 = None -> r1 = r2)
  | Panicked, Panicked => True
  | _, _ => False
  end.

(** The run succeeded with value [v]. *)
Definition is_ok_with (o : outcome) (v : Z) : bool :=
  match o with
  | Returned r None => r =? v
  | _ => false
  end.

(** *** Helpers for the proofs *)

(** The nine column groups, numbered from [k + 1], and the end of text: the
    common tail of the basic triple and of the full pattern. *)
Definition nine_cols (k : nat) : regex :=
  cat [Cap (k + 1) (col "r"); Cap (k + 2) (col "w"); Cap (k + 3) (col "x");
       Cap (k + 4) (col "r"); Cap (k + 5) (col "w"); Cap (k + 6) (col "x");
       Cap (k + 7) (col "r"); Cap (k + 8) (col "w"); Cap (k + 9) (col "x");
       Eol].

(** The nine column tests applied on top of [perm]. *)
Definition cols_value (perm : Perm) (t : bytes) : Perm :=
  match t with
  | [c0; c1; c2; c3; c4; c5; c6; c7; c8] =>
      let perm := or_if c0 "r" perm o400 in
      let perm := or_if c1 "w" perm o200 in
      let perm := or_if c2 "x" perm o100 in
      let perm := or_if c3 "r" perm o040 in
      let perm := or_if c4 "w" perm o020 in
      let perm := or_if c5 "x" perm o010 in
      let perm := or_if c6 "r" perm o004 in
      let perm := or_if c7 "w" perm o002 in
      let perm := or_if c8 "x" perm o001 in
      perm
  | _ => perm
  end.

(** The slices [FindSubmatch] returns for the full pattern. *)
Definition full_match (pre tri : bytes) : list bytes :=
  (pre ++ tri) :: pre :: map (fun c => [c]) tri.

(** *** What each grammar means *)

(** The bit pattern a grammar gives to a string it accepts. *)
Definition grammar_value (g : grammar) (b : bytes) (r : Perm) : Prop :=
  match g with
  | ImplicitOctal => r = octal_value b
  | ExplicitOctal => r = octal_value (explicit_digits b)
  | Symbolic =>
      exists cs, forallb wf_clause cs = true /\ b = render_clauses cs
                 /\ r = fold_left spec_apply cs 0
  | BasicSingle => r = single_value b
  | BasicTriple => r = cols_value 0 b
  | Full =>
      exists pre tri, b = pre ++ tri /\ is_triple tri = true
                      /\ r = cols_value (fold_left attr_sym pre 0) tri
  end.

(** An octal string whose number does not fit 32 bits. *)
Definition overflows (g : grammar) (b : bytes) : Prop :=
  match g with
  | ImplicitOctal => maxUint32 < octal_value b
  | ExplicitOctal => maxUint32 < octal_value (explicit_digits b)
  | _ => False
  end.

(** All the ways of picking letters of [l] from left to right. *)
Fixpoint subseqs (l : bytes) : list bytes :=
  match l with
  | [] => [[]]
  | d :: l' => map (cons d) (subseqs l') ++ subseqs l'
  end.

Definition bytes_eqb (a b : bytes) : bool :=
  if list_eq_dec ascii_dec a b then true else false.

(** [x] is made of bits of [mask]. *)
Definition submask (mask x : Z) : Prop := Z.land x mask = x.

(** *** Vocabulary for the properties beyond the specification *)

Definition all_grammars : list grammar :=
  [ImplicitOctal; ExplicitOctal; Symbolic; BasicSingle; BasicTriple; Full].

(** The first byte a string of each grammar must have. *)
Definition head_ok (g : grammar) (c : ascii) : bool :=
  match g with
  | ImplicitOctal => one_of "1234567" c
  | ExplicitOctal => one_of "0" c
  | Symbolic => one_of "augo" c
  | BasicSingle | BasicTriple => one_of "r-" c
  | Full => one_of "-dalTLDpSugct?r" c
  end.

(** The bytes that some pattern of the package can read. *)
Definition grammar_byte (c : ascii) : bool :=
  one_of "01234567o" c || one_of "augo-=+rwx" c || space c
  || one_of "dalTLDpSugct?" c.

Definition same_letters (w w' : bytes) : Prop :=
  forall x, In x w <-> In x w'.

(** The actors a clause names, [a] standing for [u], [g] and [o]. *)
Definition actor_letters (w : bytes) : bytes :=
  if existsb (Ascii.eqb "a") w then B "ugo" else w.

(** Two clauses with the same operator that name the same actors and the
    same permissions, in any order, any number of times, whatever the
    white space after them. *)
Definition clause_same (c c' : clause) : Prop :=
  cl_op c = cl_op c'
  /\ same_letters (actor_letters (cl_actor c)) (actor_letters (cl_actor c'))
  /\ same_letters (cl_perm c) (cl_perm c').

(** The bits a clause names: its permissions in the nibbles of its
    actors. *)
Definition clause_bits (c : clause) : Perm :=
  Z.land (actor_mask (cl_actor c)) (perm_mask (cl_perm c)).

(** The bits some [+] or [=] clause of the sequence names. *)
Definition granted (cs : list clause) : Perm :=
  fold_left (fun m c => if cl_op c == "-" then m else Z.lor m (clause_bits c))
            cs 0.

(* ================================================================= *)
(** ** Facts about the matcher *)

Module RegexpFacts.

Local Open Scope nat_scope.

Lemma advances_refl st : advances st st [].
Proof. split; simpl; auto. Qed.

Lemma advances_trans st1 st2 st3 w1 w2 :
  advances st1 st2 w1 -> advances st2 st3 w2 -> advances st1 st3 (w1 ++ w2).
Proof.
  intros [H1 H2] [H3 H4]. split.
  - rewrite H1, H3. now rewrite app_assoc.
  - rewrite H4, H2, length_app. lia.
Qed.

Lemma advances_length st st' w :
  advances st st' w -> length (rest st) = length w + length (rest st').
Proof. intros [H _]. now rewrite H, length_app. Qed.

Lemma set_cap_advances i st st' w :
  advances st st' w ->
  set_cap i st st' = MState (pos st') (rest st') ((i, w) :: caps st').
Proof.
  intros [H1 H2]. unfold set_cap. rewrite H1, H2.
  replace (pos st + length w - pos st) with (length w + 0) by lia.
  now rewrite firstn_app_2, firstn_O, app_nil_r.
Qed.

Lemma star_loop_advances body :
  (forall st st', In st' (body st) -> exists w, advances st st' w) ->
  forall n st st', In st' (star_loop body n st) -> exists w, advances st st' w.
Proof.
  intros Hb n. induction n as [|n IH]; simpl; intros st st' H.
  - destruct H as [<-|[]]. exists []. apply advances_refl.
  - apply in_app_or in H. destruct H as [H|[<-|[]]].
    + apply in_flat_map in H. destruct H as (st1 & H1 & H2).
      destruct (Nat.ltb _ _); [|contradiction].
      destruct (Hb _ _ H1) as [w1 Hw1]. destruct (IH _ _ H2) as [w2 Hw2].
      exists (w1 ++ w2). eapply advances_trans; eauto.
    + exists []. apply advances_refl.
Qed.

(** Every way of matching reads a prefix of the text and moves the offset
    by its length. *)
Lemma exec_advances r :
  forall st st', In st' (exec r st) -> exists w, advances st st' w.
Proof.
  induction r as [|p|r1 IH1 r2 IH2|r1 IH1 r2 IH2|r IH|i r IH| |];
    simpl; intros st st' H.
  - destruct H as [<-|[]]. exists []. apply advances_refl.
  - destruct (rest st) as [|c s'] eqn:E; [contradiction|].
    destruct (p c); [|contradiction]. destruct H as [<-|[]].
    exists [c]. split; simpl; auto. lia.
  - apply in_flat_map in H. destruct H as (st1 & H1 & H2).
    destruct (IH1 _ _ H1) as [w1 Hw1]. destruct (IH2 _ _ H2) as [w2 Hw2].
    exists (w1 ++ w2). eapply advances_trans; eauto.
  - apply in_app_or in H. destruct H; eauto.
  - eapply star_loop_advances; eauto.
  - apply in_map_iff in H. destruct H as (st1 & <- & H1).
    destruct (IH _ _ H1) as [w Hw]. exists w. exact Hw.
  - destruct (Nat.eqb (pos st) 0); [|contradiction].
    destruct H as [<-|[]]. exists []. apply advances_refl.
  - destruct (rest st); [|contradiction].
    destruct H as [<-|[]]. exists []. apply advances_refl.
Qed.

(** *** Membership, constructor by constructor *)

Lemma in_exec_class p st st' :
  In st' (exec (Class p) st) <->
  exists c, p c = true /\ rest st = c :: rest st'
            /\ pos st' = S (pos st) /\ caps st' = caps st.
Proof.
  simpl. split.
  - destruct (rest st) as [|c s'] eqn:E; [contradiction|].
    destruct (p c) eqn:Ep; [|contradiction]. intros [<-|[]].
    exists c. simpl. auto.
  - intros (c & Hp & Hr & Hpos & Hc). rewrite Hr, Hp. left.
    destruct st'. simpl in *. now subst.
Qed.

Lemma in_exec_cat r1 r2 st st' :
  In st' (exec (Cat r1 r2) st) <->
  exists st1, In st1 (exec r1 st) /\ In st' (exec r2 st1).
Proof. simpl. apply in_flat_map. Qed.

Lemma in_exec_alt r1 r2 st st' :
  In st' (exec (Alt r1 r2) st) <-> In st' (exec r1 st) \/ In st' (exec r2 st).
Proof. simpl. apply in_app_iff. Qed.

Lemma in_exec_cap i r st st' :
  In st' (exec (Cap i r) st) <->
  exists st1 w, In st1 (exec r st) /\ advances st st1 w
                /\ st' = MState (pos st1) (rest st1) ((i, w) :: caps st1).
Proof.
  simpl. rewrite in_map_iff. split.
  - intros (st1 & <- & H). destruct (exec_advances _ _ _ H) as [w Hw].
    exists st1, w. split; [|split]; auto. now apply set_cap_advances.
  - intros (st1 & w & H & Hw & ->). exists st1. split; auto.
    now apply set_cap_advances.
Qed.

Lemma in_exec_bol st st' :
  In st' (exec Bol st) <-> pos st = 0 /\ st' = st.
Proof.
  simpl. destruct (Nat.eqb_spec (pos st) 0); simpl; intuition congruence.
Qed.

Lemma in_exec_eol st st' :
  In st' (exec Eol st) <-> rest st = [] /\ st' = st.
Proof.
  simpl. destruct (rest st); simpl; intuition congruence.
Qed.

Lemma in_exec_eps st st' : In st' (exec Eps st) <-> st' = st.
Proof. simpl. intuition congruence. Qed.

Lemma in_exec_opt r st st' :
  In st' (exec (opt r) st) <-> In st' (exec r st) \/ st' = st.
Proof. unfold opt. rewrite in_exec_alt, in_exec_eps. tauto. Qed.

(** One round of a star, then the rest of the rounds. *)
Lemma in_star_loop_step body n st st1 st' :
  In st1 (body st) -> length (rest st1) < length (rest st) ->
  In st' (star_loop body n st1) -> In st' (star_loop body (S n) st).
Proof.
  intros H1 Hlt H2. simpl. apply in_or_app. left.
  apply in_flat_map. exists st1. split; auto.
  apply Nat.ltb_lt in Hlt. now rewrite Hlt.
Qed.

Lemma in_star_loop_stop body n st : In st (star_loop body n st).
Proof. destruct n; simpl; auto. apply in_or_app. right. simpl. auto. Qed.

Lemma in_star_loop_inv body n st st' :
  In st' (star_loop body n st) ->
  st' = st \/
  exists m st1, n = S m /\ In st1 (body st)
                /\ length (rest st1) < length (rest st)
                /\ In st' (star_loop body m st1).
Proof.
  destruct n as [|m]; simpl.
  - intros [<-|[]]. now left.
  - intros H. apply in_app_or in H. destruct H as [H|[<-|[]]]; [|now left].
    apply in_flat_map in H. destruct H as (st1 & H1 & H2). right.
    destruct (Nat.ltb_spec (length (rest st1)) (length (rest st)));
      [|contradiction].
    exists m, st1. auto.
Qed.

(** A star over a class reads a run of bytes of the class. *)
Lemma in_star_class p n st st' :
  In st' (star_loop (exec (Class p)) n st) ->
  exists w, forallb p w = true /\ advances st st' w /\ caps st' = caps st.
Proof.
  revert st. induction n as [|n IH]; intros st H;
    apply in_star_loop_inv in H;
    destruct H as [->|(m & st1 & E & H1 & Hlt & H2)]; try discriminate;
    try (exists []; split; [reflexivity|split; [apply advances_refl|reflexivity]]).
  injection E as <-.
  apply in_exec_class in H1. destruct H1 as (c & Hp & Hr & Hpos & Hc).
  destruct (IH _ H2) as (w & Hw & [Ha1 Ha2] & Hc').
  exists (c :: w). simpl. rewrite Hp, Hw. split; [reflexivity|]. split.
  - split; simpl.
    + now rewrite Hr, Ha1.
    + rewrite Ha2, Hpos. lia.
  - congruence.
Qed.

Lemma star_class_intro p w : forall n p0 r c,
  forallb p w = true -> length w <= n ->
  In (MState (p0 + length w) r c)
     (star_loop (exec (Class p)) n (MState p0 (w ++ r) c)).
Proof.
  induction w as [|a w IH]; intros n p0 r c Hw Hn.
  - simpl. rewrite Nat.add_0_r. apply in_star_loop_stop.
  - simpl in Hw. apply andb_true_iff in Hw. destruct Hw as [Ha Hw].
    destruct n as [|n]; [simpl in Hn; lia|].
    apply in_star_loop_step with (st1 := MState (S p0) (w ++ r) c).
    + simpl. rewrite Ha. now left.
    + simpl. lia.
    + replace (p0 + length (a :: w)) with (S p0 + length w) by (simpl; lia).
      apply IH; auto. simpl in Hn. lia.
Qed.

(** *** Anchored patterns match at offset 0 only *)

Lemma search_bol_later r : forall s p,
  0 < p -> search (Cat Bol r) p s = None.
Proof.
  induction s as [|c s IH]; intros p Hp; simpl;
    destruct (Nat.eqb_spec p 0); try lia; simpl; auto.
Qed.

Lemma search_bol r s :
  search (Cat Bol r) 0 s =
  match exec r (MState 0 s []) with
  | st' :: _ => Some (set_cap 0 (MState 0 s []) st')
  | [] => None
  end.
Proof.
  destruct s as [|c s]; simpl; rewrite app_nil_r;
    destruct (exec r _); auto.
  apply search_bol_later. lia.
Qed.

Lemma Match_bol r s :
  Match (Cat Bol r) s = true <-> exists st', In st' (exec r (MState 0 s [])).
Proof.
  unfold Match. rewrite search_bol.
  destruct (exec r _) as [|st' l]; split; try discriminate; auto.
  - intros [x []].
  - intros _. exists st'. now left.
Qed.

Lemma Match_bol_false r s :
  Match (Cat Bol r) s = false <-> exec r (MState 0 s []) = [].
Proof.
  unfold Match. rewrite search_bol.
  destruct (exec r _); split; congruence.
Qed.

End RegexpFacts.

Import RegexpFacts.

(* ================================================================= *)
(** ** Facts about the building blocks of the patterns *)

Module PatternFacts.

Local Open Scope nat_scope.

Lemma mstate_eta st : st = MState (pos st) (rest st) (caps st).
Proof. now destruct st. Qed.

(** A match found by [search] is one way of matching at some offset. *)
Lemma search_some re : forall s p st,
  search re p s = Some st ->
  exists p' s' st',
    In st' (exec re (MState p' s' [])) /\ st = set_cap 0 (MState p' s' []) st'.
Proof.
  induction s as [|c s IH]; intros p st; simpl.
  - destruct (exec re (MState p [] [])) as [|st' l] eqn:E; [discriminate|].
    intros [= <-]. exists p, [], st'. rewrite E. split; [now left|reflexivity].
  - destruct (exec re (MState p (c :: s) [])) as [|st' l] eqn:E.
    + apply IH.
    + intros [= <-]. exists p, (c :: s), st'. rewrite E.
      split; [now left|reflexivity].
Qed.

(** Whatever holds of every match found by [search] holds of every match
    that [FindAllSubmatch] delivers. *)
Lemma all_matches_Forall re (P : list bytes -> Prop) :
  (forall p s st, search re p s = Some st -> P (submatches re st)) ->
  forall fuel p s prev, Forall P (all_matches re fuel p s prev).
Proof.
  intros HP fuel. induction fuel as [|fuel IH]; intros p s prev; simpl.
  - constructor.
  - destruct (search re p s) as [st|] eqn:E; [|constructor].
    pose proof (HP _ _ _ E) as Hst.
    destruct (Nat.eqb (pos st) p).
    + assert (Htl : Forall P match s with
                             | [] => []
                             | _ :: s' =>
                                 all_matches re fuel (S p) s' (Some (pos st))
                             end)
        by (destruct s; [constructor|apply IH]).
      destruct prev as [e|]; simpl.
      * destruct (negb _); [constructor|]; auto.
      * constructor; auto.
    + constructor; auto.
Qed.

Lemma star_loop_caps body :
  (forall st st', In st' (body st) -> caps st' = caps st) ->
  forall n st st', In st' (star_loop body n st) -> caps st' = caps st.
Proof.
  intros Hb n. induction n as [|n IH]; intros st st' H;
    apply in_star_loop_inv in H;
    destruct H as [->|(m & st1 & E & H1 & _ & H2)]; auto; try discriminate.
  injection E as <-. rewrite (IH _ _ H2). now apply Hb.
Qed.

(** A pattern without groups leaves the captures alone. *)
Lemma exec_cap_free r :
  cap_free r = true ->
  forall st st', In st' (exec r st) -> caps st' = caps st.
Proof.
  induction r as [|p|r1 IH1 r2 IH2|r1 IH1 r2 IH2|r IH|i r IH| |];
    simpl; intros Hf st st' H; try discriminate.
  - now destruct H as [<-|[]].
  - destruct (rest st); [contradiction|]. destruct (p a); [|contradiction].
    now destruct H as [<-|[]].
  - apply andb_true_iff in Hf. destruct Hf as [Hf1 Hf2].
    apply in_flat_map in H. destruct H as (st1 & H1 & H2).
    rewrite (IH2 Hf2 _ _ H2). now apply IH1.
  - apply andb_true_iff in Hf. destruct Hf as [Hf1 Hf2].
    apply in_app_or in H. destruct H; auto.
  - eapply star_loop_caps; eauto.
  - destruct (Nat.eqb _ _); [|contradiction]. now destruct H as [<-|[]].
  - destruct (rest st); [|contradiction]. now destruct H as [<-|[]].
Qed.

Lemma in_class_advances p st st' :
  In st' (exec (Class p) st) ->
  exists c, p c = true /\ advances st st' [c] /\ caps st' = caps st.
Proof.
  intros H. apply in_exec_class in H. destruct H as (c & Hp & Hr & Hpos & Hc).
  exists c. repeat split; auto. simpl. lia.
Qed.

Lemma class_intro p c p0 s cs :
  p c = true ->
  In (MState (S p0) s cs) (exec (Class p) (MState p0 (c :: s) cs)).
Proof. intros H. simpl. rewrite H. now left. Qed.

(** [r{1,3}] over a class reads one to three bytes of the class. *)
Lemma in_rep_1_3 p st st' :
  In st' (exec (rep_1_3 (Class p)) st) ->
  exists w, short w = true /\ forallb p w = true
            /\ advances st st' w /\ caps st' = caps st.
Proof.
  unfold rep_1_3. intros H.
  apply in_exec_cat in H. destruct H as (s1 & H1 & H).
  apply in_class_advances in H1. destruct H1 as (c1 & Hp1 & Ha1 & Hc1).
  apply in_exec_opt in H. destruct H as [H| ->].
  - apply in_exec_cat in H. destruct H as (s2 & H2 & H).
    apply in_class_advances in H2. destruct H2 as (c2 & Hp2 & Ha2 & Hc2).
    apply in_exec_opt in H. destruct H as [H| ->].
    + apply in_class_advances in H. destruct H as (c3 & Hp3 & Ha3 & Hc3).
      exists [c1; c2; c3]. simpl. rewrite Hp1, Hp2, Hp3.
      repeat split; try congruence.
      * destruct Ha1, Ha2, Ha3. simpl in *. congruence.
      * destruct Ha1, Ha2, Ha3. simpl in *. lia.
    + exists [c1; c2]. simpl. rewrite Hp1, Hp2.
      repeat split; try congruence.
      * destruct Ha1, Ha2. simpl in *. congruence.
      * destruct Ha1, Ha2. simpl in *. lia.
  - exists [c1]. simpl. rewrite Hp1. repeat split; auto.
    + apply Ha1.
    + apply Ha1.
Qed.

Lemma rep_1_3_intro p w p0 s cs :
  short w = true -> forallb p w = true ->
  In (MState (p0 + length w) s cs)
     (exec (rep_1_3 (Class p)) (MState p0 (w ++ s) cs)).
Proof.
  intros Hs Hw. unfold rep_1_3.
  destruct w as [|c1 [|c2 [|c3 [|c4 w]]]]; try discriminate; simpl in Hw;
    repeat (apply andb_true_iff in Hw; destruct Hw as [? Hw]).
  - apply in_exec_cat. exists (MState (S p0) s cs). split.
    + now apply class_intro.
    + apply in_exec_opt. right. f_equal. simpl. lia.
  - apply in_exec_cat. exists (MState (S p0) (c2 :: s) cs). split.
    + now apply class_intro.
    + apply in_exec_opt. left.
      apply in_exec_cat. exists (MState (S (S p0)) s cs). split.
      * now apply class_intro.
      * apply in_exec_opt. right. f_equal. simpl. lia.
  - apply in_exec_cat. exists (MState (S p0) (c2 :: c3 :: s) cs). split.
    + now apply class_intro.
    + apply in_exec_opt. left.
      apply in_exec_cat. exists (MState (S (S p0)) (c3 :: s) cs). split.
      * now apply class_intro.
      * apply in_exec_opt. left.
        replace (p0 + length [c1; c2; c3]) with (S (S (S p0)))
          by (simpl; lia).
        now apply class_intro.
Qed.

(** One column group [(letter|-)]. *)
Lemma in_col i letter st st' :
  In st' (exec (Cap i (col letter)) st) <->
  exists c, is_col letter c = true /\ rest st = c :: rest st'
            /\ pos st' = S (pos st) /\ caps st' = (i, [c]) :: caps st.
Proof.
  rewrite in_exec_cap. unfold col, lit. split.
  - intros (st1 & w & H & Hw & ->). simpl.
    assert (Hc : exists c, is_col letter c = true /\ rest st = c :: rest st1
                           /\ pos st1 = S (pos st) /\ caps st1 = caps st).
    { apply in_exec_alt in H. destruct H as [H|H];
        apply in_exec_class in H; destruct H as (c & Hp & ?);
        exists c; (split; [|assumption]); unfold is_col;
        rewrite Ascii.eqb_sym in Hp; rewrite Hp; auto using orb_true_r. }
    destruct Hc as (c & Hcol & Hr & Hpos & Hcaps). exists c.
    repeat split; auto. destruct Hw as [Hw1 Hw2].
    rewrite Hr in Hw1. rewrite Hpos in Hw2.
    destruct w as [|a [|b w]]; simpl in *; try lia.
    + injection Hw1 as ->. now rewrite Hcaps.
  - intros (c & Hcol & Hr & Hpos & Hcaps).
    exists (MState (pos st') (rest st') (caps st)), [c]. split; [|split].
    + unfold is_col in Hcol. apply orb_true_iff in Hcol.
      apply in_exec_alt. rewrite 2 in_exec_class. cbn [pos rest caps].
      destruct Hcol as [E|E]; [left|right]; exists c;
        rewrite Ascii.eqb_sym; auto.
    + split; cbn [pos rest caps length app]; [assumption|lia].
    + rewrite (mstate_eta st') at 1. cbn [pos rest caps]. now rewrite Hcaps.
Qed.

End PatternFacts.

Import PatternFacts.

(* ================================================================= *)
(** ** What the patterns accept *)

Module Accept.

Local Open Scope nat_scope.

Lemma in_nine_cols k st st' :
  In st' (exec (nine_cols k) st) <->
  exists t, rest st = t /\ is_triple t = true
            /\ st' = MState (pos st + 9) []
                       (rev (combine (seq (k + 1) 9) (map (fun c => [c]) t))
                        ++ caps st).
Proof.
  unfold nine_cols, cat. split.
  - intros H.
    repeat (apply in_exec_cat in H; destruct H as (? & Hc & H);
            apply in_col in Hc; destruct Hc as (? & ? & ? & ? & ?)).
    apply in_exec_eol in H. destruct H as [H ->].
    eexists. split; [reflexivity|].
    repeat match goal with
           | E : rest _ = _ :: _ |- _ => rewrite E; clear E
           end.
    rewrite H. split.
    + simpl.
      repeat match goal with E : is_col _ _ = true |- _ => rewrite E; clear E end.
      reflexivity.
    + match goal with |- ?x = _ => rewrite (mstate_eta x) at 1 end.
      f_equal.
      * repeat match goal with E : pos _ = S _ |- _ => rewrite E; clear E end.
        lia.
      * assumption.
      * repeat match goal with
               | E : caps _ = _ :: _ |- _ => rewrite E; clear E
               end.
        simpl. repeat (f_equal; try lia).
  - intros (t & Ht & Htri & ->).
    destruct t as [|c0 [|c1 [|c2 [|c3 [|c4 [|c5 [|c6 [|c7 [|c8 [|c9 t]]]]]]]]]];
      try discriminate.
    simpl in Htri.
    repeat (apply andb_true_iff in Htri; destruct Htri as [Htri ?]).
    destruct st as [p0 s cs]. simpl in Ht. subst s.
    repeat match goal with
           | |- In _ (exec (Cat (Cap ?i (col ?l)) _)
                           (MState ?p (?c :: ?s) ?cs)) =>
               apply in_exec_cat;
               exists (MState (S p) s ((i, [c]) :: cs)); split;
               [apply in_col; exists c; cbn [pos rest caps];
                repeat split; assumption |]
           end.
    apply in_exec_eol. cbn [pos rest caps]. split; [reflexivity|].
    f_equal; [lia|]. simpl. repeat (f_equal; try lia).
Qed.

(** The basic triple accepts the nine-column strings. *)
Lemma Match_fmtBasicTriple b : Match fmtBasicTriple b = is_triple b.
Proof.
  change (Match fmtBasicTriple b) with (Match (Cat Bol (nine_cols 0)) b).
  destruct (is_triple b) eqn:E.
  - apply Match_bol. eexists. apply in_nine_cols. exists b. eauto.
  - destruct (Match _ b) eqn:M; [|reflexivity].
    apply Match_bol in M. destruct M as [st' H].
    apply in_nine_cols in H. destruct H as (t & Ht & Htri & _).
    simpl in Ht. congruence.
Qed.

(** The basic single accepts the three-column strings. *)
Lemma Match_fmtBasicSingle b : Match fmtBasicSingle b = is_single b.
Proof.
  change (Match fmtBasicSingle b)
    with (Match (Cat Bol (cat [Cap 1 (col "r"); Cap 2 (col "w");
                               Cap 3 (col "x"); Eol])) b).
  unfold cat. destruct (is_single b) eqn:E.
  - destruct b as [|c0 [|c1 [|c2 [|c3 b]]]]; try discriminate.
    simpl in E. repeat (apply andb_true_iff in E; destruct E as [E ?]).
    apply Match_bol. eexists.
    repeat match goal with
           | |- In _ (exec (Cat (Cap ?i (col ?l)) _)
                           (MState ?p (?c :: ?s) ?cs)) =>
               apply in_exec_cat;
               exists (MState (S p) s ((i, [c]) :: cs)); split;
               [apply in_col; exists c; cbn [pos rest caps];
                repeat split; assumption |]
           end.
    apply in_exec_eol. split; reflexivity.
  - destruct (Match _ b) eqn:M; [|reflexivity].
    apply Match_bol in M. destruct M as [st' H].
    repeat (apply in_exec_cat in H; destruct H as (? & Hc & H);
            apply in_col in Hc; destruct Hc as (? & ? & ? & ? & ?)).
    apply in_exec_eol in H. destruct H as [H ->].
    repeat match goal with
           | x : mstate |- _ => destruct x as [? ? ?]; cbn [pos rest caps] in *
           end.
    subst. simpl in E.
    repeat match goal with
           | A : is_col _ _ = true |- _ => rewrite A in E; clear A
           end.
    discriminate.
Qed.

(** [r{n,}] over a class reads at least [n] bytes of the class. *)
Lemma in_rep_min p n : forall st st',
  In st' (exec (rep_min n (Class p)) st) ->
  exists w, n <= length w /\ forallb p w = true
            /\ advances st st' w /\ caps st' = caps st.
Proof.
  induction n as [|n IH]; intros st st' H.
  - apply in_star_class in H. destruct H as (w & Hw & Ha & Hc).
    exists w. repeat split; auto; try apply Ha. lia.
  - simpl rep_min in H. apply in_exec_cat in H. destruct H as (s1 & H1 & H).
    apply in_class_advances in H1. destruct H1 as (c & Hp & Ha & Hc).
    destruct (IH _ _ H) as (w & Hn & Hw & Ha' & Hc').
    exists (c :: w). simpl. rewrite Hp, Hw. split; [lia|].
    split; [reflexivity|]. split; [|congruence].
    apply (advances_trans Ha Ha').
Qed.

Lemma rep_min_intro p n : forall w p0 s cs,
  n <= length w -> forallb p w = true ->
  In (MState (p0 + length w) s cs)
     (exec (rep_min n (Class p)) (MState p0 (w ++ s) cs)).
Proof.
  induction n as [|n IH]; intros w p0 s cs Hn Hw.
  - simpl. apply star_class_intro; auto. rewrite length_app. lia.
  - destruct w as [|c w]; [simpl in Hn; lia|].
    simpl in Hw. apply andb_true_iff in Hw. destruct Hw as [Hc Hw].
    simpl rep_min. apply in_exec_cat. exists (MState (S p0) (w ++ s) cs).
    split; [now apply class_intro|].
    replace (p0 + length (c :: w)) with (S p0 + length w) by (simpl; lia).
    apply IH; auto. simpl in Hn. lia.
Qed.

(** The implicit octal form: a digit 1-7, then two or more octal digits. *)
Lemma Match_fmtImplicitInt b : Match fmtImplicitInt b = is_implicit b.
Proof.
  change (Match fmtImplicitInt b)
    with (Match (Cat Bol (cat [Class (range "1" "7");
                               rep_min 2 (Class (range "0" "7")); Eol])) b).
  unfold cat. destruct (is_implicit b) eqn:E.
  - destruct b as [|d0 ds]; [discriminate|]. cbn [is_implicit] in E.
    apply andb_true_iff in E. destruct E as [E0 E].
    apply andb_true_iff in E. destruct E as [En Ew].
    apply Match_bol. exists (MState (1 + length ds) [] []).
    apply in_exec_cat. exists (MState 1 ds []). split.
    + now apply class_intro.
    + apply in_exec_cat. exists (MState (1 + length ds) [] []). split.
      * rewrite <- (app_nil_r ds) at 2. apply rep_min_intro.
        -- now apply Nat.leb_le.
        -- exact Ew.
      * apply in_exec_eol. auto.
  - destruct (Match _ b) eqn:M; [|reflexivity].
    apply Match_bol in M. destruct M as [st' H].
    apply in_exec_cat in H. destruct H as (s1 & H1 & H).
    apply in_exec_class in H1. destruct H1 as (d0 & Hd0 & Hr & _).
    apply in_exec_cat in H. destruct H as (s2 & H2 & H).
    apply in_rep_min in H2. destruct H2 as (w & Hn & Hw & [Ha _] & _).
    apply in_exec_eol in H. destruct H as [H _].
    simpl in Hr. rewrite Hr, Ha, H, app_nil_r in E.
    cbn [is_implicit] in E. unfold is_octal_digits in E.
    apply Nat.leb_le in Hn. rewrite Hd0, Hn in E.
    change (forallb is_octal_digit w) with (forallb (range "0" "7") w) in E.
    rewrite Hw in E. discriminate.
Qed.

(** The explicit octal form: [0] or [0o], then three or more octal digits. *)
Lemma Match_fmtExplicitInt b : Match fmtExplicitInt b = is_explicit b.
Proof.
  change (Match fmtExplicitInt b)
    with (Match (Cat Bol (cat [lit "0"; opt (lit "o");
                               rep_min 3 (Class (range "0" "7")); Eol])) b).
  unfold cat, lit. destruct (is_explicit b) eqn:E.
  - destruct b as [|c0 b]; [discriminate|]. cbn [is_explicit] in E.
    apply andb_true_iff in E. destruct E as [E0 E].
    apply Ascii.eqb_eq in E0. subst c0.
    assert (Hds : forall ds p0,
               is_octal_digits 3 ds = true ->
               exists st', In st' (exec (Cat (rep_min 3 (Class (range "0" "7")))
                                             Eol) (MState p0 ds []))).
    { intros ds p0 Hds. unfold is_octal_digits in Hds.
      apply andb_true_iff in Hds. destruct Hds as [Hn Hw].
      exists (MState (p0 + length ds) [] []).
      apply in_exec_cat. exists (MState (p0 + length ds) [] []). split.
      - rewrite <- (app_nil_r ds) at 2. apply rep_min_intro.
        + now apply Nat.leb_le.
        + exact Hw.
      - apply in_exec_eol. auto. }
    apply Match_bol. apply orb_true_iff in E. destruct E as [E|E].
    + destruct b as [|c1 ds]; [discriminate|].
      apply andb_true_iff in E. destruct E as [E1 E].
      apply Ascii.eqb_eq in E1. subst c1.
      destruct (Hds ds 2 E) as [st' H]. exists st'.
      apply in_exec_cat. exists (MState 1 ("o"%char :: ds) []).
      split; [now apply class_intro|].
      apply in_exec_cat. exists (MState 2 ds []). split; [|exact H].
      apply in_exec_opt. left. now apply class_intro.
    + destruct (Hds b 1 E) as [st' H]. exists st'.
      apply in_exec_cat. exists (MState 1 b []).
      split; [now apply class_intro|].
      apply in_exec_cat. exists (MState 1 b []). split; [|exact H].
      apply in_exec_opt. now right.
  - destruct (Match _ b) eqn:M; [|reflexivity].
    apply Match_bol in M. destruct M as [st' H].
    apply in_exec_cat in H. destruct H as (s1 & H1 & H).
    apply in_exec_class in H1. destruct H1 as (c0 & Hc0 & Hr & _).
    apply Ascii.eqb_eq in Hc0. subst c0. simpl in Hr.
    apply in_exec_cat in H. destruct H as (s2 & H2 & H).
    apply in_exec_cat in H. destruct H as (s3 & H3 & H).
    apply in_rep_min in H3. destruct H3 as (w & Hn & Hw & [Ha _] & _).
    apply in_exec_eol in H. destruct H as [H _].
    rewrite H, app_nil_r in Ha.
    assert (Hds : is_octal_digits 3 (rest s2) = true).
    { unfold is_octal_digits. rewrite Ha.
      change (forallb is_octal_digit w) with (forallb (range "0" "7") w).
      apply Nat.leb_le in Hn. now rewrite Hw, Hn. }
    apply in_exec_opt in H2. destruct H2 as [H2| ->].
    + apply in_exec_class in H2. destruct H2 as (c1 & Hc1 & Hr1 & _).
      apply Ascii.eqb_eq in Hc1. subst c1.
      rewrite Hr, Hr1 in E. cbn [is_explicit] in E.
      rewrite Hds in E. discriminate.
    + rewrite Hr in E. cbn [is_explicit] in E.
      rewrite Hds, orb_true_r in E. discriminate.
Qed.

End Accept.

Import Accept.

(* ================================================================= *)
(** ** The full and the symbolic patterns *)

Module AcceptFull.

Local Open Scope nat_scope.

Lemma advances_inj st st' w w' :
  advances st st' w -> advances st st' w' -> w = w'.
Proof.
  intros [H1 _] [H2 _]. rewrite H1 in H2. now apply app_inv_tail in H2.
Qed.

Lemma is_triple_length t : is_triple t = true -> length t = 9.
Proof.
  destruct t as [|c0 [|c1 [|c2 [|c3 [|c4 [|c5 [|c6 [|c7 [|c8 [|c9 t]]]]]]]]]];
    simpl; intros; try discriminate; reflexivity.
Qed.

Lemma app_same_length_tail (A : Type) (a b c d : list A) :
  a ++ b = c ++ d -> length b = length d -> a = c /\ b = d.
Proof.
  intros H L. assert (La : length a = length c).
  { apply (f_equal (@length A)) in H. rewrite !length_app in H. lia. }
  revert c H La. induction a as [|x a IH]; intros [|y c] H La;
    simpl in *; try discriminate; auto.
  injection H as -> H. injection La as La.
  destruct (IH _ H La) as [-> ->]. auto.
Qed.

(** The leading group of the full pattern: a dash, or a run of mode
    letters. *)
Lemma in_full_prefix st st' :
  In st' (exec (Alt (lit "-") (Star (Class (one_of "dalTLDpSugct?")))) st) ->
  exists w, (w = ["-"%char] \/ forallb (one_of "dalTLDpSugct?") w = true)
            /\ advances st st' w /\ caps st' = caps st.
Proof.
  intros H. apply in_exec_alt in H. destruct H as [H|H].
  - apply in_class_advances in H. destruct H as (c & Hc & Ha & Hcaps).
    apply Ascii.eqb_eq in Hc. subst c. exists ["-"%char]. auto.
  - apply in_star_class in H. destruct H as (w & Hw & Ha & Hcaps).
    exists w. auto.
Qed.

Lemma full_prefix_intro w p0 s cs :
  w = ["-"%char] \/ forallb (one_of "dalTLDpSugct?") w = true ->
  In (MState (p0 + length w) s cs)
     (exec (Alt (lit "-") (Star (Class (one_of "dalTLDpSugct?"))))
           (MState p0 (w ++ s) cs)).
Proof.
  intros [->|Hw]; apply in_exec_alt.
  - left. replace (p0 + length ["-"%char]) with (S p0) by (simpl; lia).
    now apply class_intro.
  - right. cbn [exec rest]. apply star_class_intro; auto.
    rewrite length_app. lia.
Qed.

Lemma in_fmtFull b st' :
  In st' (exec (Cat (Cap 1 (Alt (lit "-")
                                (Star (Class (one_of "dalTLDpSugct?")))))
                    (nine_cols 1)) (MState 0 b [])) <->
  exists pre tri,
    b = pre ++ tri
    /\ (pre = ["-"%char] \/ forallb (one_of "dalTLDpSugct?") pre = true)
    /\ is_triple tri = true
    /\ st' = MState (length pre + 9) []
               (rev (combine (seq 2 9) (map (fun c => [c]) tri))
                ++ [(1, pre)]).
Proof.
  rewrite in_exec_cat. split.
  - intros (st1 & H1 & H2).
    apply in_exec_cap in H1. destruct H1 as (s1 & w & H1 & Hw & ->).
    apply in_full_prefix in H1. destruct H1 as (w' & Hok & Hw' & Hcaps).
    rewrite (advances_inj Hw Hw') in *. clear Hw.
    apply in_nine_cols in H2. destruct H2 as (t & Ht & Htri & ->).
    cbn [pos rest caps] in *. destruct Hw' as [Hr Hp]. cbn [pos rest] in *.
    exists w', t. rewrite Hr, Ht, Hp, Hcaps. auto.
  - intros (pre & tri & -> & Hok & Htri & ->).
    exists (MState (length pre) tri [(1, pre)]). split.
    + apply in_exec_cap. exists (MState (0 + length pre) tri []), pre.
      split; [now apply full_prefix_intro|]. split; [split; reflexivity|].
      reflexivity.
    + apply in_nine_cols. exists tri. auto.
Qed.

(** The full pattern accepts exactly the full-form strings. *)
Lemma Match_fmtFull b : Match fmtFull b = true <-> full_form b.
Proof.
  change (Match fmtFull b)
    with (Match (Cat Bol (Cat (Cap 1 (Alt (lit "-")
                    (Star (Class (one_of "dalTLDpSugct?")))))
                    (nine_cols 1))) b).
  rewrite Match_bol. split.
  - intros (st' & H). apply in_fmtFull in H.
    destruct H as (pre & tri & ? & ? & ? & _). exists pre, tri. auto.
  - intros (pre & tri & ? & ? & ?). eexists. apply in_fmtFull.
    exists pre, tri. eauto.
Qed.

(** Its submatches: the leading group is all the text before the nine
    columns. *)
Lemma FindSubmatch_fmtFull pre tri :
  pre = ["-"%char] \/ forallb (one_of "dalTLDpSugct?") pre = true ->
  is_triple tri = true ->
  FindSubmatch fmtFull (pre ++ tri) = Some (full_match pre tri).
Proof.
  intros Hok Htri. unfold FindSubmatch.
  change (search fmtFull 0 (pre ++ tri))
    with (search (Cat Bol (Cat (Cap 1 (Alt (lit "-")
                    (Star (Class (one_of "dalTLDpSugct?")))))
                    (nine_cols 1))) 0 (pre ++ tri)).
  rewrite search_bol.
  destruct (exec _ (MState 0 (pre ++ tri) [])) as [|st' l] eqn:E.
  - exfalso.
    assert (H : In (MState (length pre + 9) []
                      (rev (combine (seq 2 9) (map (fun c => [c]) tri))
                       ++ [(1, pre)]))
                   (exec (Cat (Cap 1 (Alt (lit "-")
                     (Star (Class (one_of "dalTLDpSugct?")))))
                     (nine_cols 1)) (MState 0 (pre ++ tri) [])))
      by (apply in_fmtFull; exists pre, tri; auto).
    rewrite E in H. destruct H.
  - assert (H : In st' (st' :: l)) by now left.
    rewrite <- E in H. apply in_fmtFull in H.
    destruct H as (pre' & tri' & Hb & _ & Htri' & ->).
    apply app_same_length_tail in Hb;
      [|now rewrite (is_triple_length _ Htri), (is_triple_length _ Htri')].
    destruct Hb as [<- <-]. f_equal.
    unfold set_cap. cbn [pos rest caps].
    replace (length pre + 9 - 0) with (length pre + length tri)
      by (rewrite (is_triple_length _ Htri); lia).
    rewrite <- length_app, firstn_all.
    destruct tri as [|c0 [|c1 [|c2 [|c3 [|c4 [|c5 [|c6 [|c7 [|c8 [|c9 t]]]]]]]]]];
      try discriminate.
    reflexivity.
Qed.

End AcceptFull.

Import AcceptFull.

Module AcceptSymbolic.

Local Open Scope nat_scope.

(** One clause [(a|[ugo]{1,3})([-=+])([rwx]{1,3})]: what it reads and the
    three groups it sets. *)
Lemma in_symbolic_clause k st st' :
  In st' (exec (symbolic_clause k) st) ->
  exists a o pm,
    is_actor a = true /\ one_of "-=+" o = true
    /\ short pm = true /\ forallb (one_of "rwx") pm = true
    /\ advances st st' (a ++ o :: pm)
    /\ caps st' = (k + 3, pm) :: (k + 2, [o]) :: (k + 1, a) :: caps st.
Proof.
  unfold symbolic_clause, cat. intros H.
  apply in_exec_cat in H. destruct H as (s1 & H1 & H).
  apply in_exec_cat in H. destruct H as (s2 & H2 & H3).
  apply in_exec_cap in H1. destruct H1 as (x1 & a & H1 & Ha & ->).
  apply in_exec_cap in H2. destruct H2 as (x2 & wo & H2 & Ho & ->).
  apply in_exec_cap in H3. destruct H3 as (x3 & pm & H3 & Hp & ->).
  apply in_class_advances in H2. destruct H2 as (o & Hop & Ho' & Hc2).
  rewrite (advances_inj Ho Ho') in *. clear Ho.
  apply in_rep_1_3 in H3. destruct H3 as (pm' & Hs & Hpm & Hp' & Hc3).
  rewrite (advances_inj Hp Hp') in *. clear Hp.
  assert (Hact : is_actor a = true /\ caps x1 = caps st).
  { apply in_exec_alt in H1. destruct H1 as [H1|H1].
    - apply in_class_advances in H1. destruct H1 as (c & Hc & Ha' & Hc1).
      rewrite (advances_inj Ha Ha'). unfold lit in Hc.
      apply Ascii.eqb_eq in Hc. subst c. auto.
    - apply in_rep_1_3 in H1. destruct H1 as (w & Hsw & Hw & Ha' & Hc1).
      rewrite (advances_inj Ha Ha'). unfold is_actor.
      rewrite Hsw, Hw. auto using orb_true_r. }
  destruct Hact as [Hact Hc1].
  exists a, o, pm'. repeat split; auto.
  - cbn [pos rest caps] in *.
    destruct Ha as [A1 _], Ho' as [B1 _], Hp' as [C1 _].
    cbn [pos rest caps] in *. rewrite A1, B1, C1.
    now rewrite <- app_assoc.
  - cbn [pos rest caps] in *.
    destruct Ha as [_ A2], Ho' as [_ B2], Hp' as [_ C2].
    cbn [pos rest caps] in *. rewrite C2, B2, A2, length_app. simpl. lia.
  - cbn [pos rest caps] in *. now rewrite Hc3, Hc2, Hc1.
Qed.

Lemma actor_intro a p0 s cs :
  is_actor a = true ->
  In (MState (p0 + length a) s cs)
     (exec (Alt (lit "a") (rep_1_3 (Class (one_of "ugo"))))
           (MState p0 (a ++ s) cs)).
Proof.
  unfold is_actor. intros H. apply orb_true_iff in H.
  apply in_exec_alt. destruct H as [H|H].
  - left. destruct a as [|c [|d a]]; try discriminate.
    apply Ascii.eqb_eq in H. subst c.
    replace (p0 + length ["a"%char]) with (S p0) by (simpl; lia).
    now apply class_intro.
  - right. apply andb_true_iff in H. destruct H.
    now apply rep_1_3_intro.
Qed.

Lemma symbolic_clause_intro k a o pm p0 s cs :
  is_actor a = true -> one_of "-=+" o = true ->
  short pm = true -> forallb (one_of "rwx") pm = true ->
  In (MState (p0 + length (a ++ o :: pm)) s
             ((k + 3, pm) :: (k + 2, [o]) :: (k + 1, a) :: cs))
     (exec (symbolic_clause k) (MState p0 ((a ++ o :: pm) ++ s) cs)).
Proof.
  intros Ha Ho Hs Hpm. unfold symbolic_clause, cat.
  rewrite <- app_assoc. cbn [app].
  apply in_exec_cat.
  exists (MState (p0 + length a) (o :: pm ++ s) ((k + 1, a) :: cs)). split.
  { apply in_exec_cap.
    exists (MState (p0 + length a) (o :: pm ++ s) cs), a.
    split; [now apply actor_intro|]. split; [split; reflexivity|reflexivity]. }
  apply in_exec_cat.
  exists (MState (S (p0 + length a)) (pm ++ s)
                 ((k + 2, [o]) :: (k + 1, a) :: cs)). split.
  { apply in_exec_cap.
    exists (MState (S (p0 + length a)) (pm ++ s) ((k + 1, a) :: cs)), [o].
    split; [now apply class_intro|].
    split; [split; cbn [pos rest length app]; [reflexivity|lia]|reflexivity]. }
  apply in_exec_cap.
  exists (MState (S (p0 + length a) + length pm) s
                 ((k + 2, [o]) :: (k + 1, a) :: cs)), pm.
  split; [now apply rep_1_3_intro|].
  split; [split; reflexivity|].
  cbn [pos rest caps]. f_equal. rewrite length_app. simpl. lia.
Qed.

(** A clause and the optional white space after it, as the match pattern
    repeats it. *)
Lemma in_clause_sep st st' :
  In st' (exec (Cap 1 (Cat (symbolic_clause 1) (opt (Class space)))) st) ->
  exists c, wf_clause c = true
            /\ advances st st' (clause_core c ++ cl_sep c).
Proof.
  intros H. apply in_exec_cap in H. destruct H as (x & w & H & Hw & ->).
  cbn [pos rest]. apply in_exec_cat in H. destruct H as (s1 & H1 & H2).
  apply in_symbolic_clause in H1.
  destruct H1 as (a & o & pm & Ha & Ho & Hs & Hpm & Hadv & _).
  apply in_exec_opt in H2. destruct H2 as [H2| ->].
  - apply in_class_advances in H2. destruct H2 as (sp & Hsp & Hadv' & _).
    exists (Clause a o pm [sp]). unfold wf_clause, clause_core.
    cbn [cl_actor cl_op cl_perm cl_sep is_sep].
    rewrite Ha, Ho, Hs, Hpm, Hsp. split; [reflexivity|].
    pose proof (advances_trans Hadv Hadv') as [A B]. split; auto.
  - exists (Clause a o pm []). unfold wf_clause, clause_core.
    cbn [cl_actor cl_op cl_perm cl_sep is_sep].
    rewrite Ha, Ho, Hs, Hpm, app_nil_r. split; [reflexivity|].
    destruct Hadv. split; auto.
Qed.

Lemma clause_sep_intro c p0 s cs :
  wf_clause c = true ->
  exists cs',
    In (MState (p0 + length (clause_core c ++ cl_sep c)) s cs')
       (exec (Cap 1 (Cat (symbolic_clause 1) (opt (Class space))))
             (MState p0 ((clause_core c ++ cl_sep c) ++ s) cs)).
Proof.
  destruct c as [a o pm sep]. unfold wf_clause, clause_core.
  cbn [cl_actor cl_op cl_perm cl_sep]. intros H.
  apply andb_true_iff in H. destruct H as [H Hsep].
  apply andb_true_iff in H. destruct H as [H Hp].
  apply andb_true_iff in Hp. destruct Hp as [Hs Hpm].
  apply andb_true_iff in H. destruct H as [Ha Ho].
  eexists. apply in_exec_cap.
  exists (MState (p0 + length ((a ++ o :: pm) ++ sep)) s
                 ((4, pm) :: (3, [o]) :: (2, a) :: cs)),
         ((a ++ o :: pm) ++ sep).
  split; [|split; [split; reflexivity|reflexivity]].
  apply in_exec_cat.
  exists (MState (p0 + length (a ++ o :: pm)) (sep ++ s)
                 ((4, pm) :: (3, [o]) :: (2, a) :: cs)).
  rewrite <- app_assoc. split.
  - apply (symbolic_clause_intro 1); auto.
  - apply in_exec_opt. destruct sep as [|sp [|sp' sep]]; try discriminate.
    + right. rewrite app_nil_r. reflexivity.
    + left. cbn [is_sep] in Hsep. cbn [app].
      replace (p0 + length ((a ++ o :: pm) ++ [sp]))
        with (S (p0 + length (a ++ o :: pm)))
        by (rewrite (length_app (a ++ o :: pm)); simpl; lia).
      now apply class_intro.
Qed.

Lemma clause_core_length c : 0 < length (clause_core c).
Proof. unfold clause_core. rewrite length_app. simpl. lia. Qed.

(** The repetition of clauses reads a sequence of well-formed clauses. *)
Lemma in_star_clauses n : forall st st',
  In st' (star_loop
            (exec (Cap 1 (Cat (symbolic_clause 1) (opt (Class space))))) n st) ->
  exists cs, forallb wf_clause cs = true /\ advances st st' (render_clauses cs).
Proof.
  induction n as [|n IH]; intros st st' H;
    apply in_star_loop_inv in H;
    destruct H as [->|(m & st1 & E & H1 & _ & H2)]; try discriminate;
    try (exists []; split; [reflexivity|apply advances_refl]).
  injection E as <-.
  apply in_clause_sep in H1. destruct H1 as (c & Hc & Ha).
  destruct (IH _ _ H2) as (cs & Hcs & Ha').
  exists (c :: cs). cbn [forallb render_clauses]. rewrite Hc, Hcs.
  split; [reflexivity|]. rewrite app_assoc. apply (advances_trans Ha Ha').
Qed.

Lemma star_clauses_intro cs : forall n p0 s c0,
  forallb wf_clause cs = true -> length (render_clauses cs) <= n ->
  exists c',
    In (MState (p0 + length (render_clauses cs)) s c')
       (star_loop
          (exec (Cap 1 (Cat (symbolic_clause 1) (opt (Class space)))))
          n (MState p0 (render_clauses cs ++ s) c0)).
Proof.
  induction cs as [|c cs IH]; intros n p0 s c0 Hwf Hn.
  - exists c0. cbn [render_clauses length app]. rewrite Nat.add_0_r.
    apply in_star_loop_stop.
  - cbn [forallb] in Hwf. apply andb_true_iff in Hwf. destruct Hwf as [Hc Hcs].
    cbn [render_clauses] in *. rewrite app_assoc in Hn. rewrite length_app in Hn.
    pose proof (clause_core_length c) as Hpos.
    rewrite length_app in Hn.
    destruct n as [|n]; [lia|].
    destruct (clause_sep_intro c p0 (render_clauses cs ++ s) c0 Hc)
      as [c1 H1].
    destruct (IH n (p0 + length (clause_core c ++ cl_sep c)) s c1 Hcs)
      as [c' H']; [lia|].
    exists c'.
    replace (p0 + length (clause_core c ++ cl_sep c ++ render_clauses cs))
      with (p0 + length (clause_core c ++ cl_sep c)
            + length (render_clauses cs))
      by (rewrite !length_app; lia).
    eapply in_star_loop_step; [| |exact H'].
    + rewrite <- !app_assoc in H1. rewrite <- !app_assoc. exact H1.
    + cbn [rest]. rewrite !length_app. lia.
Qed.

(** The match pattern accepts exactly the sequences of one or more
    well-formed clauses. *)
Lemma Match_fmtSymbolicMatch b :
  Match fmtSymbolicMatch b = true <-> symbolic_text b.
Proof.
  change (Match fmtSymbolicMatch b)
    with (Match (Cat Bol
                   (Cat (plus (Cap 1 (Cat (symbolic_clause 1)
                                          (opt (Class space))))) Eol)) b).
  rewrite Match_bol. unfold plus. split.
  - intros (st' & H).
    apply in_exec_cat in H. destruct H as (s2 & H & He).
    apply in_exec_cat in H. destruct H as (s1 & H1 & H2).
    apply in_exec_eol in He. destruct He as [He ->].
    apply in_clause_sep in H1. destruct H1 as (c & Hc & Ha).
    apply in_star_clauses in H2. destruct H2 as (cs & Hcs & Ha').
    exists (c :: cs). split; [discriminate|].
    cbn [forallb render_clauses]. rewrite Hc, Hcs. split; [reflexivity|].
    destruct (advances_trans Ha Ha') as [A _]. cbn [rest] in A.
    rewrite He, app_nil_r, <- app_assoc in A. exact A.
  - intros (cs & Hne & Hwf & ->).
    destruct cs as [|c cs]; [congruence|].
    cbn [forallb] in Hwf. apply andb_true_iff in Hwf. destruct Hwf as [Hc Hcs].
    cbn [render_clauses].
    destruct (clause_sep_intro c 0 (render_clauses cs) [] Hc) as [c1 H1].
    destruct (@star_clauses_intro cs (length (render_clauses cs))
                (0 + length (clause_core c ++ cl_sep c)) [] c1 Hcs
                (Nat.le_refl _)) as [c' H'].
    rewrite app_nil_r in H'.
    exists (MState (0 + length (clause_core c ++ cl_sep c)
                    + length (render_clauses cs)) [] c').
    apply in_exec_cat.
    exists (MState (0 + length (clause_core c ++ cl_sep c)
                    + length (render_clauses cs)) [] c').
    split; [|apply in_exec_eol; split; reflexivity].
    apply in_exec_cat.
    exists (MState (0 + length (clause_core c ++ cl_sep c))
                   (render_clauses cs) c1).
    split.
    + rewrite <- app_assoc in H1. exact H1.
    + cbn [exec rest]. exact H'.
Qed.

End AcceptSymbolic.

Import AcceptSymbolic.

(* ================================================================= *)
(** ** Bit masks *)

Module Bits.

Lemma submask_0 m : submask m 0.
Proof. apply Z.land_0_l. Qed.

Lemma submask_refl m : submask m m.
Proof. apply Z.land_diag. Qed.

Lemma submask_lor m x y : submask m x -> submask m y -> submask m (Z.lor x y).
Proof.
  unfold submask. intros Hx Hy. now rewrite Z.land_lor_distr_l, Hx, Hy.
Qed.

Lemma submask_land m x y : submask m x -> submask m (Z.land x y).
Proof.
  unfold submask. intros Hx.
  now rewrite <- Z.land_assoc, (Z.land_comm y m), Z.land_assoc, Hx.
Qed.

Lemma submask_land_r m x y : submask m y -> submask m (Z.land x y).
Proof. rewrite Z.land_comm. apply submask_land. Qed.

Lemma submask_mono m m' x : submask m x -> submask m' m -> submask m' x.
Proof.
  unfold submask. intros Hx Hm. rewrite <- Hx at 1.
  now rewrite <- Z.land_assoc, Hm.
Qed.

Lemma submask_within m x :
  Z.land m (not32 m) = 0 -> submask m x -> within m x.
Proof.
  unfold submask, within. intros Hm Hx.
  now rewrite <- Hx, <- Z.land_assoc, Hm, Z.land_0_r.
Qed.

Lemma submask_uint32 m x :
  Z.land m (Z.ones 32) = m -> submask m x -> is_uint32 x.
Proof.
  intros Hm Hx. pose proof (submask_mono Hx Hm) as H. unfold submask in H.
  rewrite Z.land_ones in H by lia. unfold is_uint32. rewrite <- H.
  apply Z.mod_pos_bound. lia.
Qed.

Lemma uint32_submask x : is_uint32 x -> submask (Z.ones 32) x.
Proof.
  unfold is_uint32, submask. intros H. rewrite Z.land_ones by lia.
  now apply Z.mod_small.
Qed.

(** On 32-bit values the complement of the source ([^x]) cuts out the same
    bits as the mathematical complement. *)
Lemma land_not32 acc x :
  submask (Z.ones 32) acc -> Z.land acc (not32 x) = Z.land acc (Z.lnot x).
Proof.
  unfold submask, not32. intros H. apply Z.bits_inj'. intros i Hi.
  rewrite !Z.land_spec, Z.lxor_spec, Z.lnot_spec by assumption.
  change (2 ^ 32 - 1) with (Z.ones 32).
  destruct (Z.lt_ge_cases i 32) as [Hlt|Hge].
  - rewrite Z.ones_spec_low by lia. now rewrite xorb_true_r.
  - assert (Hb : Z.testbit acc i = false).
    { rewrite <- H, Z.land_spec, Z.ones_spec_high by lia.
      apply andb_false_r. }
    now rewrite Hb.
Qed.

(** [m & (1 << k) != 0] tests bit [k]. *)
Lemma land_bit_test m k :
  0 <= k -> negb (Z.land m (Z.shiftl 1 k) =? 0) = Z.testbit m k.
Proof.
  intros Hk. destruct (Z.testbit m k) eqn:E.
  - apply negb_true_iff, Z.eqb_neq. intros H.
    apply (f_equal (fun z => Z.testbit z k)) in H.
    rewrite Z.land_spec, E, Z.shiftl_spec, Z.sub_diag, Z.bits_0 in H
      by assumption.
    discriminate H.
  - apply negb_false_iff, Z.eqb_eq. apply Z.bits_inj'. intros i Hi.
    rewrite Z.land_spec, Z.bits_0, Z.shiftl_spec by assumption.
    destruct (Z.eq_dec i k) as [->|Hne].
    + now rewrite E.
    + destruct (Z.lt_ge_cases i k).
      * rewrite (Z.testbit_neg_r 1) by lia. apply andb_false_r.
      * apply andb_false_iff. right.
        apply Z.bits_above_log2; simpl; lia.
Qed.

End Bits.

Import Bits.

(* ================================================================= *)
(** ** ParseUint on octal digits *)

Unset Implicit Arguments.

Module ParseFacts.

Lemma octal_digit_cases c :
  is_octal_digit c = true -> In c (B "01234567").
Proof.
  destruct c as [[] [] [] [] [] [] [] []]; vm_compute; intros H;
    try discriminate H; repeat ((left; reflexivity) || right).
Qed.

Lemma octal_digit_val c :
  is_octal_digit c = true -> 0 <= byte_val c - 48 <= 7.
Proof.
  intros H. apply octal_digit_cases in H. simpl in H.
  repeat (destruct H as [<-|H]; [vm_compute; split; discriminate|]).
  destruct H.
Qed.

Lemma octal_fold_mono ds : forall n,
  forallb is_octal_digit ds = true -> 0 <= n -> n <= fold_left octal_step ds n.
Proof.
  induction ds as [|c ds IH]; intros n H Hn; simpl; [lia|].
  simpl in H. apply andb_true_iff in H. destruct H as [Hc Hds].
  pose proof (octal_digit_val _ Hc).
  etransitivity; [|apply IH; auto]; unfold octal_step; lia.
Qed.

Lemma octal_value_nonneg ds :
  forallb is_octal_digit ds = true -> 0 <= octal_value ds.
Proof. intros H. now apply (octal_fold_mono ds 0). Qed.

(** A leading zero does not change the value. *)
Lemma octal_value_0 ds : octal_value ("0"%char :: ds) = octal_value ds.
Proof. reflexivity. Qed.

Lemma octal_value_bound ds : forall n,
  forallb is_octal_digit ds = true -> 0 <= n ->
  fold_left octal_step ds n < (n + 1) * 8 ^ Z.of_nat (length ds).
Proof.
  induction ds as [|c ds IH]; intros n H Hn.
  - simpl. lia.
  - simpl in H. apply andb_true_iff in H. destruct H as [Hc Hds].
    pose proof (octal_digit_val _ Hc) as Hd.
    cbn [fold_left length]. rewrite Nat2Z.inj_succ, Z.pow_succ_r by lia.
    eapply Z.lt_le_trans; [apply IH; auto; unfold octal_step; lia|].
    unfold octal_step.
    assert (0 < 8 ^ Z.of_nat (length ds)) by (apply Z.pow_pos_nonneg; lia).
    nia.
Qed.

(** One round of the digit loop on an octal digit, in base 8. *)
Lemma digits_loop_octal_digit b0 cutoff maxVal c s us n :
  is_octal_digit c = true ->
  digits_loop b0 8 cutoff maxVal (c :: s) us n =
  if n >=? cutoff then inr (maxVal, ErrRange)
  else
    let n' := uint64 (n * 8) in
    let n1 := uint64 (n' + (byte_val c - 48)) in
    if (n1 <? n') || (n1 >? maxVal) then inr (maxVal, ErrRange)
    else digits_loop b0 8 cutoff maxVal s us n1.
Proof.
  intros H. apply octal_digit_cases in H. simpl in H.
  repeat (destruct H as [<-|H]; [reflexivity|]). destruct H.
Qed.

(** The digit loop on octal digits, started below [2^32]: the value, or a
    range error as soon as it passes [2^32 - 1]. *)
Lemma digits_loop_octal b0 ds : forall n,
  forallb is_octal_digit ds = true -> 0 <= n <= maxUint32 ->
  digits_loop b0 8 (maxUint64 / 8 + 1) maxUint32 ds false n =
  if fold_left octal_step ds n <=? maxUint32
  then inl (fold_left octal_step ds n, false)
  else inr (maxUint32, ErrRange).
Proof.
  induction ds as [|c ds IH]; intros n H Hn.
  - simpl. destruct (Z.leb_spec n maxUint32); [reflexivity|lia].
  - cbn [forallb] in H. apply andb_true_iff in H. destruct H as [Hc Hds].
    rewrite digits_loop_octal_digit by assumption.
    pose proof (octal_digit_val _ Hc) as Hd.
    change maxUint32 with 4294967295 in *.
    change (maxUint64 / 8 + 1) with 2305843009213693952.
    destruct (Z.geb_spec n 2305843009213693952); [lia|].
    cbv zeta. unfold uint64.
    rewrite (Z.mod_small (n * 8)) by lia.
    rewrite (Z.mod_small (n * 8 + _)) by lia.
    destruct (Z.ltb_spec (n * 8 + (byte_val c - 48)) (n * 8)); [lia|].
    cbn [orb fold_left]. unfold octal_step at 2 4.
    replace (8 * n + (byte_val c - 48)) with (n * 8 + (byte_val c - 48))
      by lia.
    destruct (Z.gtb_spec (n * 8 + (byte_val c - 48)) 4294967295) as [Hgt|Hle].
    + pose proof (octal_fold_mono ds (n * 8 + (byte_val c - 48)) Hds).
      destruct (Z.leb_spec (fold_left octal_step ds
                              (n * 8 + (byte_val c - 48))) 4294967295);
        [lia|reflexivity].
    + apply IH; auto. lia.
Qed.

Lemma ParseUint_base8 c s :
  ParseUint (c :: s) 8 32 =
  match digits_loop false 8 (maxUint64 / 8 + 1) maxUint32 (c :: s) false 0 with
  | inr (v, e) => (v, Some e)
  | inl (n, underscores) =>
      if underscores && negb (underscoreOK (c :: s))
      then (0, Some ErrSyntax) else (n, None)
  end.
Proof. reflexivity. Qed.

(** Base 8: a non-empty string of octal digits. *)
Lemma ParseUint_octal ds :
  ds <> [] -> forallb is_octal_digit ds = true ->
  ParseUint ds 8 32 = octal_result ds.
Proof.
  intros Hne H. destruct ds as [|c s]; [congruence|].
  rewrite ParseUint_base8, digits_loop_octal
    by (auto; unfold maxUint32; lia).
  unfold octal_result, octal_value.
  destruct (fold_left octal_step _ 0 <=? maxUint32); reflexivity.
Qed.

(** Base 0, prefix [0]: the digits after it are read in base 8. *)
Lemma ParseUint_prefix_0 ds :
  ds <> [] -> forallb is_octal_digit ds = true ->
  ParseUint ("0"%char :: ds) 0 32 = octal_result ds.
Proof.
  intros Hne H. destruct ds as [|c s]; [congruence|].
  assert (E : ParseUint ("0"%char :: c :: s) 0 32 =
              match digits_loop true 8 (maxUint64 / 8 + 1) maxUint32
                                (c :: s) false 0 with
              | inr (v, e) => (v, Some e)
              | inl (n, underscores) =>
                  if underscores && negb (underscoreOK ("0"%char :: c :: s))
                  then (0, Some ErrSyntax) else (n, None)
              end).
  { cbn [forallb] in H. apply andb_true_iff in H. destruct H as [Hc _].
    apply octal_digit_cases in Hc. simpl in Hc. unfold ParseUint.
    repeat (destruct Hc as [<-|Hc];
            [destruct (3 <=? Z.of_nat (length ("0"%char :: _ :: s)));
             reflexivity|]).
    destruct Hc. }
  rewrite E, digits_loop_octal by (auto; unfold maxUint32; lia).
  unfold octal_result, octal_value.
  destruct (fold_left octal_step _ 0 <=? maxUint32); reflexivity.
Qed.

(** Base 0, prefix [0o]. *)
Lemma ParseUint_prefix_0o ds :
  ds <> [] -> forallb is_octal_digit ds = true ->
  ParseUint ("0"%char :: "o"%char :: ds) 0 32 = octal_result ds.
Proof.
  intros Hne H.
  assert (L : (3 <=? Z.of_nat (length ("0"%char :: "o"%char :: ds))) = true).
  { apply Z.leb_le. destruct ds; [congruence|]. cbn [length]. lia. }
  assert (E : ParseUint ("0"%char :: "o"%char :: ds) 0 32 =
              match digits_loop true 8 (maxUint64 / 8 + 1) maxUint32
                                ds false 0 with
              | inr (v, e) => (v, Some e)
              | inl (n, underscores) =>
                  if underscores
                     && negb (underscoreOK ("0"%char :: "o"%char :: ds))
                  then (0, Some ErrSyntax) else (n, None)
              end).
  { unfold ParseUint. cbv zeta. rewrite L. reflexivity. }
  rewrite E, digits_loop_octal by (auto; unfold maxUint32; lia).
  unfold octal_result, octal_value.
  destruct (fold_left octal_step _ 0 <=? maxUint32); reflexivity.
Qed.

End ParseFacts.

Import ParseFacts.

(* ================================================================= *)
(** ** The decoders on the strings their patterns accept *)

Module DecoderFacts.

Lemma one_of_cases cs c :
  one_of cs c = true -> In c (list_ascii_of_string cs).
Proof.
  unfold one_of. intros H. apply existsb_exists in H.
  destruct H as (x & Hin & Hx). apply Ascii.eqb_eq in Hx. now subst.
Qed.

Lemma uint32_small v : 0 <= v <= maxUint32 -> uint32 v = v.
Proof.
  unfold uint32, maxUint32. intros H. apply Z.mod_small. lia.
Qed.

Lemma is_implicit_digits b :
  is_implicit b = true -> b <> [] /\ forallb is_octal_digit b = true.
Proof.
  destruct b as [|d0 ds]; [discriminate|]. cbn [is_implicit forallb].
  intros H. apply andb_true_iff in H. destruct H as [H0 H].
  apply andb_true_iff in H. destruct H as [_ H]. split; [discriminate|].
  rewrite H, andb_true_r.
  destruct d0 as [[] [] [] [] [] [] [] []]; vm_compute in H0 |- *; congruence.
Qed.

(** The implicit decoder: the octal value, or a range error that leaves the
    receiver alone. *)
Lemma fromImplicit_spec p b :
  is_implicit b = true ->
  fromImplicit p b =
  if octal_value b <=? maxUint32 then Returned (octal_value b) None
  else Returned p (Some (ErrImplicitOctal b ErrRange)).
Proof.
  intros H. apply is_implicit_digits in H. destruct H as [Hne Hd].
  unfold fromImplicit. rewrite ParseUint_octal by assumption.
  unfold octal_result. destruct (Z.leb_spec (octal_value b) maxUint32).
  - rewrite uint32_small; auto using octal_value_nonneg.
  - reflexivity.
Qed.

Lemma is_explicit_digits b :
  is_explicit b = true ->
  is_octal_digits 3 (explicit_digits b) = true
  /\ (b = "0"%char :: explicit_digits b
      \/ b = "0"%char :: "o"%char :: explicit_digits b).
Proof.
  destruct b as [|c0 b]; [discriminate|]. cbn [is_explicit]. intros H.
  apply andb_true_iff in H. destruct H as [H0 H].
  apply Ascii.eqb_eq in H0. subst c0.
  apply orb_true_iff in H. destruct H as [H|H].
  - destruct b as [|c1 ds]; [discriminate|].
    apply andb_true_iff in H. destruct H as [H1 H].
    cbn [explicit_digits]. rewrite H1.
    apply Ascii.eqb_eq in H1. subst c1. auto.
  - destruct b as [|c1 ds]; [discriminate|]. cbn [explicit_digits].
    destruct (c1 == "o") eqn:E; [|auto].
    apply Ascii.eqb_eq in E. subst c1. exfalso.
    unfold is_octal_digits in H. apply andb_true_iff in H.
    destruct H as [_ H]. cbn [forallb] in H.
    apply andb_true_iff in H. destruct H as [H _]. discriminate H.
Qed.

Lemma octal_digits_nonempty n ds :
  is_octal_digits (S n) ds = true ->
  ds <> [] /\ forallb is_octal_digit ds = true.
Proof.
  unfold is_octal_digits. intros H. apply andb_true_iff in H.
  destruct H as [Hn Hd]. split; [|assumption].
  destruct ds; [discriminate Hn|discriminate].
Qed.

(** The explicit decoder, likewise, on the digits after the prefix. *)
Lemma fromExplicit_spec p b :
  is_explicit b = true ->
  fromExplicit p b =
  if octal_value (explicit_digits b) <=? maxUint32
  then Returned (octal_value (explicit_digits b)) None
  else Returned p (Some (ErrExplicitOctal b ErrRange)).
Proof.
  intros H. apply is_explicit_digits in H. destruct H as [Hd Hb].
  apply octal_digits_nonempty in Hd. destruct Hd as [Hne Hd].
  unfold fromExplicit.
  assert (E : ParseUint b 0 32 = octal_result (explicit_digits b)).
  { destruct Hb as [Hb|Hb]; rewrite Hb at 1.
    - now apply ParseUint_prefix_0.
    - now apply ParseUint_prefix_0o. }
  rewrite E. unfold octal_result.
  destruct (Z.leb_spec (octal_value (explicit_digits b)) maxUint32).
  - rewrite uint32_small; auto using octal_value_nonneg.
  - reflexivity.
Qed.

Lemma fromBasicSingle_spec p b :
  is_single b = true -> fromBasicSingle p b = Returned (single_value b) None.
Proof.
  destruct b as [|c0 [|c1 [|c2 [|c3 b]]]]; try discriminate. reflexivity.
Qed.

Lemma fromBasicTriple_spec p b :
  is_triple b = true -> fromBasicTriple p b = Returned (cols_value 0 b) None.
Proof.
  destruct b as [|c0 [|c1 [|c2 [|c3 [|c4 [|c5 [|c6 [|c7 [|c8 [|c9 t]]]]]]]]]];
    try discriminate.
  reflexivity.
Qed.

(** The full decoder: the mode letters of the leading group, then the nine
    columns as in the basic triple. *)
Lemma fromFull_spec p pre tri :
  pre = ["-"%char] \/ forallb (one_of "dalTLDpSugct?") pre = true ->
  is_triple tri = true ->
  fromFull p (pre ++ tri) =
  Returned (cols_value (fold_left attr_sym pre 0) tri) None.
Proof.
  intros Hok Htri. unfold fromFull.
  rewrite FindSubmatch_fmtFull by assumption.
  destruct tri as [|c0 [|c1 [|c2 [|c3 [|c4 [|c5 [|c6 [|c7 [|c8 [|c9 t]]]]]]]]]];
    try discriminate.
  reflexivity.
Qed.

(** *** Bits the decoders can set *)

Lemma or_if_submask m c letter perm bit :
  submask m perm -> submask m bit -> submask m (or_if c letter perm bit).
Proof.
  intros Hp Hb. unfold or_if. destruct (c == letter); auto using submask_lor.
Qed.

Lemma single_value_submask t : submask o777 (single_value t).
Proof.
  destruct t as [|c0 [|c1 [|c2 [|c3 t]]]]; try apply submask_0.
  cbn [single_value].
  repeat (apply or_if_submask; [|reflexivity]). apply submask_0.
Qed.

Lemma cols_value_submask m perm t :
  submask m perm -> submask m o777 -> submask m (cols_value perm t).
Proof.
  intros Hp Hm.
  destruct t as [|c0 [|c1 [|c2 [|c3 [|c4 [|c5 [|c6 [|c7 [|c8 [|c9 t]]]]]]]]]];
    try exact Hp.
  cbn [cols_value].
  repeat (apply or_if_submask;
          [|apply (submask_mono (m := o777)); [reflexivity|exact Hm]]).
  exact Hp.
Qed.

Lemma attr_sym_submask perm attr :
  submask mode_bits perm -> submask mode_bits (attr_sym perm attr).
Proof.
  intros H. unfold attr_sym.
  repeat match goal with
         | |- submask _ (if ?b then _ else _) =>
             destruct b; [apply submask_lor; [exact H|reflexivity]|]
         end.
  exact H.
Qed.

Lemma attrs_submask pre : forall perm,
  submask mode_bits perm -> submask mode_bits (fold_left attr_sym pre perm).
Proof.
  induction pre as [|c pre IH]; intros perm H; simpl; auto.
  apply IH. now apply attr_sym_submask.
Qed.

Lemma actor_sym_submask actor sym :
  submask o777 actor -> submask o777 (actor_sym actor sym).
Proof.
  intros H. unfold actor_sym.
  destruct (sym == "a"); [reflexivity|].
  repeat match goal with
         | |- submask _ (if ?b then _ else _) =>
             destruct b; [apply submask_lor; [exact H|reflexivity]|]
         end.
  exact H.
Qed.

Lemma actors_submask w : forall actor,
  submask o777 actor -> submask o777 (fold_left actor_sym w actor).
Proof.
  induction w as [|c w IH]; intros actor H; simpl; auto.
  apply IH. now apply actor_sym_submask.
Qed.

Lemma apply_op_submask op perm actor actorperm :
  submask o777 perm -> submask o777 actor ->
  submask o777 (apply_op op perm actor actorperm).
Proof.
  intros Hp Ha. unfold apply_op.
  destruct (op == "+");
    [apply submask_lor; [exact Hp|now apply submask_land]|].
  destruct (op == "-"); [now apply submask_land|].
  destruct (op == "="); [|exact Hp].
  apply submask_lor; now apply submask_land.
Qed.

Lemma symbolic_step_submask perm permexpr perm' :
  submask o777 perm -> symbolic_step perm permexpr = Some perm' ->
  submask o777 perm'.
Proof.
  intros Hp. unfold symbolic_step.
  destruct (index permexpr 1) as [pe1|]; [|discriminate].
  destruct (index permexpr 3) as [pe3|]; [|discriminate].
  destruct (index permexpr 2) as [pe2|]; [|discriminate].
  destruct (index pe2 0) as [op|]; [|discriminate].
  intros [= <-]. apply apply_op_submask; auto.
  apply actors_submask, submask_0.
Qed.

Lemma symbolic_loop_submask matches : forall perm perm',
  submask o777 perm -> symbolic_loop perm matches = Some perm' ->
  submask o777 perm'.
Proof.
  induction matches as [|m ms IH]; intros perm perm' Hp; simpl.
  - now intros [= <-].
  - destruct (symbolic_step perm m) as [perm1|] eqn:E; [|discriminate].
    apply IH. eapply symbolic_step_submask; eauto.
Qed.

(** *** The symbolic decoder never indexes out of range *)

Lemma extract_submatches p s st :
  search fmtSymbolicExtract p s = Some st ->
  exists whole a o pm, submatches fmtSymbolicExtract st = [whole; a; [o]; pm].
Proof.
  intros H. apply search_some in H. destruct H as (p' & s' & st' & H & ->).
  apply in_symbolic_clause in H.
  destruct H as (a & o & pm & _ & _ & _ & _ & _ & Hc).
  unfold submatches, set_cap. cbn [caps]. rewrite Hc.
  eexists _, a, o, pm. reflexivity.
Qed.

Lemma symbolic_loop_total matches : forall perm,
  Forall (fun m => exists whole a o pm, m = [whole; a; [o]; pm]) matches ->
  exists perm', symbolic_loop perm matches = Some perm'.
Proof.
  induction matches as [|m ms IH]; intros perm H; simpl; eauto.
  inversion H as [|? ? (whole & a & o & pm & ->) Hms]; subst.
  cbn. apply IH, Hms.
Qed.

Lemma fromSymbolic_total p b :
  exists r, fromSymbolic p b = Returned r None /\ submask o777 r.
Proof.
  unfold fromSymbolic.
  destruct (symbolic_loop_total (FindAllSubmatch fmtSymbolicExtract b) 0)
    as [r Hr].
  { apply all_matches_Forall. intros q s st. apply extract_submatches. }
  exists r. rewrite Hr. split; [reflexivity|].
  eapply symbolic_loop_submask; [apply submask_0|exact Hr].
Qed.

End DecoderFacts.

Import DecoderFacts.

(* ================================================================= *)
(** ** The dispatch of UnmarshalText *)

Module Dispatch.

(** The six tests of [UnmarshalText], each pattern replaced by what it
    accepts. *)
Lemma UnmarshalText_eq p b :
  UnmarshalText p b =
  if is_implicit b then fromImplicit p b
  else if is_explicit b then fromExplicit p b
  else if is_single b then fromBasicSingle p b
  else if is_triple b then fromBasicTriple p b
  else if Match fmtSymbolicMatch b then fromSymbolic p b
  else if Match fmtFull b then fromFull p b
  else Returned p (Some (ErrUnrecognized b)).
Proof.
  unfold UnmarshalText.
  now rewrite Match_fmtImplicitInt, Match_fmtExplicitInt,
    Match_fmtBasicSingle, Match_fmtBasicTriple.
Qed.

Lemma is_single_head c s : is_single (c :: s) = true -> is_col "r" c = true.
Proof.
  destruct s as [|c1 [|c2 [|c3 s]]]; try discriminate. cbn [is_single].
  intros H. apply andb_true_iff in H. destruct H as [H _].
  apply andb_true_iff in H. tauto.
Qed.

Lemma is_triple_head c s : is_triple (c :: s) = true -> is_col "r" c = true.
Proof.
  destruct s as [|c1 [|c2 [|c3 [|c4 [|c5 [|c6 [|c7 [|c8 [|c9 t]]]]]]]]];
    try discriminate.
  cbn [is_triple]. intros H.
  repeat (apply andb_true_iff in H; destruct H as [H _]). exact H.
Qed.

Lemma is_actor_head a :
  is_actor a = true -> exists x a', a = x :: a' /\ one_of "augo" x = true.
Proof.
  unfold is_actor. intros H. apply orb_true_iff in H. destruct H as [H|H].
  - destruct a as [|c [|d a]]; try discriminate.
    apply Ascii.eqb_eq in H. subst c. exists "a"%char, []. auto.
  - apply andb_true_iff in H. destruct H as [Hs Hw].
    destruct a as [|c a]; [discriminate|]. exists c, a. split; auto.
    cbn [forallb] in Hw. apply andb_true_iff in Hw. destruct Hw as [Hc _].
    apply one_of_cases in Hc. simpl in Hc.
    repeat (destruct Hc as [<-|Hc]; [reflexivity|]). destruct Hc.
Qed.

(** A symbolic string starts with an actor letter. *)
Lemma symbolic_text_head b :
  symbolic_text b -> exists x s, b = x :: s /\ one_of "augo" x = true.
Proof.
  intros (cs & Hne & Hwf & ->). destruct cs as [|c cs]; [congruence|].
  cbn [forallb] in Hwf. apply andb_true_iff in Hwf. destruct Hwf as [Hc _].
  unfold wf_clause in Hc.
  repeat (apply andb_true_iff in Hc; destruct Hc as [Hc _]).
  apply is_actor_head in Hc. destruct Hc as (x & a' & Ha & Hx).
  cbn [render_clauses]. unfold clause_core. rewrite Ha.
  exists x. eexists. split; [reflexivity|exact Hx].
Qed.

(** No other grammar accepts a string that starts with an actor letter,
    except the full form for [u] and [g]. *)
Lemma actor_head_not_earlier x s :
  one_of "augo" x = true ->
  is_implicit (x :: s) = false /\ is_explicit (x :: s) = false
  /\ is_single (x :: s) = false /\ is_triple (x :: s) = false.
Proof.
  intros Hx. apply one_of_cases in Hx. simpl in Hx.
  assert (H : range "1" "7" x = false /\ (x == "0") = false
              /\ is_col "r" x = false)
    by (repeat (destruct Hx as [<-|Hx]; [repeat split; reflexivity|]);
        destruct Hx).
  destruct H as (H1 & H2 & H3). repeat split.
  - cbn [is_implicit]. now rewrite H1.
  - cbn [is_explicit]. now rewrite H2.
  - destruct (is_single (x :: s)) eqn:E; [|reflexivity].
    apply is_single_head in E. congruence.
  - destruct (is_triple (x :: s)) eqn:E; [|reflexivity].
    apply is_triple_head in E. congruence.
Qed.

(** A symbolic string reaches the symbolic decoder. *)
Lemma UnmarshalText_symbolic p b :
  Match fmtSymbolicMatch b = true -> UnmarshalText p b = fromSymbolic p b.
Proof.
  intros H. rewrite UnmarshalText_eq, H.
  apply Match_fmtSymbolicMatch, symbolic_text_head in H.
  destruct H as (x & s & -> & Hx).
  destruct (actor_head_not_earlier x s Hx) as (-> & -> & -> & ->).
  reflexivity.
Qed.

Lemma assign_or_panic_ok body r e :
  assign_or_panic body = Returned r e -> e = None.
Proof. destruct body; simpl; congruence. Qed.

(** On success the receiver plays no part; on failure it is returned as it
    was, with an error that does not mention it. *)
Lemma UnmarshalText_receiver p q b :
  same_result (UnmarshalText p b) (UnmarshalText q b).
Proof.
  unfold UnmarshalText, fromImplicit, fromExplicit, fromSymbolic,
    fromBasicSingle, fromBasicTriple, fromFull.
  repeat match goal with
         | |- same_result (if ?c then _ else _) _ => destruct c
         end;
    try (destruct (ParseUint _ _ _) as [v [e|]]);
    try match goal with
        | |- same_result (assign_or_panic ?x) _ => destruct x
        end;
    simpl; try exact I;
    (split; [reflexivity|intros H; reflexivity || discriminate H]).
Qed.

Lemma UnmarshalText_ok_any p q b r :
  UnmarshalText p b = Returned r None -> UnmarshalText q b = Returned r None.
Proof.
  intros H. pose proof (UnmarshalText_receiver p q b) as S.
  rewrite H in S. destruct (UnmarshalText q b) as [r' e'|]; simpl in S.
  - destruct S as [<- S]. now rewrite S.
  - destruct S.
Qed.

Lemma UnmarshalText_failure p b r e :
  UnmarshalText p b = Returned r (Some e) -> r = p.
Proof.
  unfold UnmarshalText, fromImplicit, fromExplicit, fromSymbolic,
    fromBasicSingle, fromBasicTriple, fromFull.
  repeat match goal with
         | |- (if ?c then _ else _) = _ -> _ => destruct c
         end;
    try (destruct (ParseUint _ _ _) as [v [e'|]]; congruence);
    try (intros H; apply assign_or_panic_ok in H; discriminate).
  congruence.
Qed.

End Dispatch.

Import Dispatch.

(* ================================================================= *)
(** ** Receiver, failure and bit invariants *)

Module Invariants.

Lemma defined_bits_facts :
  submask defined_bits o777 /\ submask defined_bits mode_bits
  /\ Z.land defined_bits (not32 defined_bits) = 0
  /\ Z.land defined_bits (Z.ones 32) = defined_bits
  /\ Z.land o777 (not32 o777) = 0
  /\ Z.land o777 (Z.ones 32) = o777.
Proof. repeat split; reflexivity. Qed.

Lemma submask_defined r :
  submask defined_bits r -> is_uint32 r /\ within defined_bits r.
Proof.
  destruct defined_bits_facts as (_ & _ & H1 & H2 & _). split.
  - now apply (@submask_uint32 defined_bits).
  - now apply submask_within.
Qed.

Lemma submask_perm r :
  submask o777 r -> is_uint32 r /\ within perm_bits r.
Proof.
  destruct defined_bits_facts as (_ & _ & _ & _ & H1 & H2). split.
  - now apply (@submask_uint32 o777).
  - now apply submask_within.
Qed.

(** The four decoders that read letters set defined bits only. *)
Lemma letters_submask p b r :
  is_implicit b = false -> is_explicit b = false ->
  UnmarshalText p b = Returned r None -> submask defined_bits r.
Proof.
  destruct defined_bits_facts as (Hperm & Hmode & _).
  intros H1 H2. rewrite UnmarshalText_eq, H1, H2.
  destruct (is_single b) eqn:E3.
  { rewrite fromBasicSingle_spec by assumption. intros [= <-].
    eapply submask_mono; [apply single_value_submask|exact Hperm]. }
  destruct (is_triple b) eqn:E4.
  { rewrite fromBasicTriple_spec by assumption. intros [= <-].
    apply cols_value_submask; [apply submask_0|exact Hperm]. }
  destruct (Match fmtSymbolicMatch b) eqn:E5.
  { destruct (fromSymbolic_total p b) as (r' & -> & Hr'). intros [= <-].
    eapply submask_mono; [exact Hr'|exact Hperm]. }
  destruct (Match fmtFull b) eqn:E6; [|discriminate].
  apply Match_fmtFull in E6. destruct E6 as (pre & tri & -> & Hok & Htri).
  rewrite fromFull_spec by assumption. intros [= <-].
  apply cols_value_submask; [|exact Hperm].
  eapply submask_mono; [apply attrs_submask, submask_0|exact Hmode].
Qed.

(** [UnmarshalText] returns on every input: no index is out of range. *)
Lemma UnmarshalText_total p b : UnmarshalText p b <> Panicked.
Proof.
  rewrite UnmarshalText_eq.
  destruct (is_implicit b) eqn:E1.
  { rewrite fromImplicit_spec by assumption.
    destruct (_ <=? _); discriminate. }
  destruct (is_explicit b) eqn:E2.
  { rewrite fromExplicit_spec by assumption.
    destruct (_ <=? _); discriminate. }
  destruct (is_single b) eqn:E3.
  { rewrite fromBasicSingle_spec by assumption. discriminate. }
  destruct (is_triple b) eqn:E4.
  { rewrite fromBasicTriple_spec by assumption. discriminate. }
  destruct (Match fmtSymbolicMatch b) eqn:E5.
  { destruct (fromSymbolic_total p b) as (r & -> & _). discriminate. }
  destruct (Match fmtFull b) eqn:E6; [|discriminate].
  apply Match_fmtFull in E6. destruct E6 as (pre & tri & -> & Hok & Htri).
  rewrite fromFull_spec by assumption. discriminate.
Qed.

(** C1, as stated, fails: the implicit octal string [7777] parses, and its
    value has bits 9 to 11 set, which are neither permission bits nor bits
    of the enumerated mode flags. *)
Lemma octal_sets_undefined_bits :
  UnmarshalText 0 (B "7777") = Returned 4095 None
  /\ ~ within defined_bits 4095.
Proof.
  split; [reflexivity|]. unfold within. intros H. discriminate H.
Qed.

(** C1, amended: a successful parse yields a 32-bit value.  When the text
    was decoded by one of the four grammars that read letters (symbolic,
    basic single, basic triple, full), only permission bits and bits of the
    thirteen mode flags are set.  The two octal grammars yield the number
    written, whatever its bits. *)
Theorem parsed_value_bits p b r :
  UnmarshalText p b = Returned r None ->
  is_uint32 r
  /\ (accepts ImplicitOctal b = true -> r = octal_value b)
  /\ (accepts ImplicitOctal b = false -> accepts ExplicitOctal b = true ->
      r = octal_value (explicit_digits b))
  /\ (accepts ImplicitOctal b = false -> accepts ExplicitOctal b = false ->
      within defined_bits r).
Proof.
  unfold accepts, pattern.
  rewrite Match_fmtImplicitInt, Match_fmtExplicitInt. intros H.
  destruct (is_implicit b) eqn:E1.
  { rewrite UnmarshalText_eq, E1, fromImplicit_spec in H by assumption.
    destruct (Z.leb_spec (octal_value b) maxUint32) as [Hle|]; [|discriminate].
    injection H as <-.
    pose proof (octal_value_nonneg b (proj2 (is_implicit_digits b E1))).
    repeat split; try discriminate; unfold maxUint32 in Hle; lia. }
  destruct (is_explicit b) eqn:E2.
  { rewrite UnmarshalText_eq, E1, E2, fromExplicit_spec in H by assumption.
    destruct (Z.leb_spec (octal_value (explicit_digits b)) maxUint32)
      as [Hle|]; [|discriminate].
    injection H as <-.
    destruct (is_explicit_digits b E2) as [Hd _].
    apply octal_digits_nonempty in Hd.
    pose proof (octal_value_nonneg _ (proj2 Hd)).
    repeat split; try discriminate; unfold maxUint32 in Hle; lia. }
  pose proof (letters_submask p b r E1 E2 H) as Hs.
  apply submask_defined in Hs. destruct Hs as [Hu Hw].
  repeat split; try discriminate; try apply Hu. intros _ _. exact Hw.
Qed.

Lemma parsed_value_bits_witness :
  UnmarshalText 0 (B "drwxr-xr-x") = Returned 2147484141 None
  /\ is_uint32 2147484141 /\ within defined_bits 2147484141.
Proof.
  split; [reflexivity|].
  destruct (parsed_value_bits 0 (B "drwxr-xr-x") 2147484141 eq_refl)
    as (H1 & _ & _ & H2).
  split; [exact H1|]. apply H2; reflexivity.
Defined.

(** C5: when [UnmarshalText] returns an error, the receiver is what it was
    before the call, for every input and every prior value. *)
Theorem failure_leaves_receiver p b r e :
  UnmarshalText p b = Returned r (Some e) -> r = p.
Proof. apply UnmarshalText_failure. Qed.

Lemma failure_leaves_receiver_witness :
  UnmarshalText 420 (B "47777777777")
  = Returned 420 (Some (ErrImplicitOctal (B "47777777777") ErrRange))
  /\ 420 = 420.
Proof.
  split; [reflexivity|].
  apply (failure_leaves_receiver 420 (B "47777777777") 420
           (ErrImplicitOctal (B "47777777777") ErrRange)).
  reflexivity.
Defined.

(** C8: a string that the symbolic pattern accepts is decoded by the
    symbolic decoder, which returns a value and no error, and the value has
    no bit outside the nine permission bits. *)
Theorem symbolic_sets_permission_bits_only p b :
  accepts Symbolic b = true ->
  exists r, UnmarshalText p b = Returned r None
            /\ fromSymbolic p b = Returned r None
            /\ Z.land r (not32 o777) = 0 /\ is_uint32 r.
Proof.
  unfold accepts, pattern. intros H.
  destruct (fromSymbolic_total p b) as (r & Hr & Hs).
  apply submask_perm in Hs. destruct Hs as [Hu Hw].
  exists r. rewrite UnmarshalText_symbolic by assumption. auto.
Qed.

Lemma symbolic_sets_permission_bits_only_witness :
  accepts Symbolic (B "ug=rx u+w") = true
  /\ exists r, UnmarshalText 0 (B "ug=rx u+w") = Returned r None
               /\ fromSymbolic 0 (B "ug=rx u+w") = Returned r None
               /\ Z.land r (not32 o777) = 0 /\ is_uint32 r.
Proof.
  split; [reflexivity|].
  apply (symbolic_sets_permission_bits_only 0 (B "ug=rx u+w")). reflexivity.
Defined.

(** C9: on a string that its pattern accepts, each of the three decoders
    that index into the text or into the submatches (basic single, basic
    triple, full) finds every index in range: it does not panic, and it
    returns a value and no error. *)
Theorem indexing_decoders_total g p b :
  In g [BasicSingle; BasicTriple; Full] ->
  accepts g b = true ->
  exists r, decoder g p b = Returned r None.
Proof.
  unfold accepts. intros Hg H.
  destruct Hg as [<-|[<-|[<-|[]]]]; cbn [pattern decoder] in *.
  - rewrite Match_fmtBasicSingle in H. rewrite fromBasicSingle_spec; eauto.
  - rewrite Match_fmtBasicTriple in H. rewrite fromBasicTriple_spec; eauto.
  - apply Match_fmtFull in H. destruct H as (pre & tri & -> & Hok & Htri).
    rewrite fromFull_spec; eauto.
Qed.

Lemma indexing_decoders_total_witness :
  In Full [BasicSingle; BasicTriple; Full]
  /\ accepts Full (B "ugrwxr-xr-x") = true
  /\ exists r, decoder Full 0 (B "ugrwxr-xr-x") = Returned r None.
Proof.
  split; [simpl; tauto|]. split; [reflexivity|].
  apply (indexing_decoders_total Full 0 (B "ugrwxr-xr-x"));
    [simpl; tauto|reflexivity].
Defined.

(** C10: the outcome of [UnmarshalText] does not depend on the prior value
    of the receiver: two receivers get the same error status (the same
    error, in fact) and, on success, the same value.  [FromString] is the
    run on a zero receiver, hence a function of the text alone. *)
Theorem receiver_plays_no_part p q b :
  same_result (UnmarshalText p b) (UnmarshalText q b)
  /\ (forall r, FromString b = Returned r None ->
                UnmarshalText p b = Returned r None).
Proof.
  split; [apply UnmarshalText_receiver|].
  intros r. apply UnmarshalText_ok_any.
Qed.

End Invariants.

(* ================================================================= *)
(** ** The octal grammars *)

Module Octal.

Lemma forall_range (f : Z -> bool) lo n :
  forallb f (map Z.of_nat (seq lo n)) = true ->
  forall v, Z.of_nat lo <= v < Z.of_nat lo + Z.of_nat n -> f v = true.
Proof.
  intros H v Hv. rewrite forallb_forall in H. apply H.
  apply in_map_iff. exists (Z.to_nat v). split; [lia|].
  apply in_seq. lia.
Qed.

Lemma is_ok_with_true o v : is_ok_with o v = true -> o = Returned v None.
Proof.
  destruct o as [r [e|]|]; simpl; try discriminate.
  intros H. apply Z.eqb_eq in H. now subst.
Qed.

Lemma implicit_round_trip_0 v :
  64 <= v <= 511 -> UnmarshalText 0 (fmt_octal v) = Returned v None.
Proof.
  intros Hv. apply is_ok_with_true.
  apply (forall_range (fun v => is_ok_with (UnmarshalText 0 (fmt_octal v)) v)
                      64 448); [vm_compute; reflexivity|lia].
Qed.

Lemma explicit_round_trip_0 v :
  0 <= v <= 511 ->
  UnmarshalText 0 ("0"%char :: fmt_octal3 v) = Returned v None
  /\ UnmarshalText 0 ("0"%char :: "o"%char :: fmt_octal3 v) = Returned v None.
Proof.
  intros Hv. split; apply is_ok_with_true.
  - apply (forall_range
             (fun v => is_ok_with
                         (UnmarshalText 0 ("0"%char :: fmt_octal3 v)) v)
             0 512); [vm_compute; reflexivity|lia].
  - apply (forall_range
             (fun v => is_ok_with
                         (UnmarshalText 0
                            ("0"%char :: "o"%char :: fmt_octal3 v)) v)
             0 512); [vm_compute; reflexivity|lia].
Qed.

(** C6: for [v] from 0o100 to 0o777 the octal digits of [v] parse to [v];
    for [v] from 0 to 0o777 the three zero-padded octal digits of [v] after
    the prefix [0], and after the prefix [0o], parse to [v]. *)
Theorem octal_round_trip p v :
  0 <= v <= o777 ->
  (o100 <= v -> UnmarshalText p (fmt_octal v) = Returned v None)
  /\ UnmarshalText p ("0"%char :: fmt_octal3 v) = Returned v None
  /\ UnmarshalText p ("0"%char :: "o"%char :: fmt_octal3 v) = Returned v None.
Proof.
  unfold o777, o100. intros Hv.
  destruct (explicit_round_trip_0 v Hv) as [H1 H2].
  split; [|split].
  - intros H64. apply (UnmarshalText_ok_any 0).
    apply implicit_round_trip_0. lia.
  - now apply (UnmarshalText_ok_any 0).
  - now apply (UnmarshalText_ok_any 0).
Qed.

Lemma octal_round_trip_witness :
  0 <= 420 <= o777
  /\ UnmarshalText 7 (B "644") = Returned 420 None
  /\ UnmarshalText 7 (B "0644") = Returned 420 None
  /\ UnmarshalText 7 (B "0o644") = Returned 420 None.
Proof.
  assert (H : 0 <= 420 <= o777) by (unfold o777; lia).
  split; [exact H|].
  destruct (octal_round_trip 7 420 H) as (H1 & H2 & H3).
  split; [apply H1; unfold o100; lia|]. split; [exact H2|exact H3].
Defined.

Lemma octal_length_lower ds :
  forallb is_octal_digit ds = true -> maxUint32 < octal_value ds ->
  (4 <= length ds)%nat.
Proof.
  intros Hd Hv.
  pose proof (octal_value_bound ds 0 Hd (Z.le_refl 0)) as Hb.
  fold (octal_value ds) in Hb.
  destruct (Nat.le_gt_cases 4 (length ds)) as [|Hlt]; [assumption|exfalso].
  assert (8 ^ Z.of_nat (length ds) <= 8 ^ 3)
    by (apply Z.pow_le_mono_r; lia).
  unfold maxUint32 in Hv. lia.
Qed.

Lemma octal_digit_not_o c : is_octal_digit c = true -> (c == "o") = false.
Proof.
  intros H. apply octal_digit_cases in H. simpl in H.
  repeat (destruct H as [<-|H]; [reflexivity|]). destruct H.
Qed.

Lemma octal_digit_lead c :
  is_octal_digit c = true -> c = "0"%char \/ range "1" "7" c = true.
Proof.
  intros H. apply octal_digit_cases in H. simpl in H.
  destruct H as [<-|H]; [now left|right].
  repeat (destruct H as [<-|H]; [reflexivity|]). destruct H.
Qed.

(** An explicit octal string whose digits pass [2^32 - 1] is refused. *)
Lemma explicit_overflow p b :
  is_explicit b = true -> maxUint32 < octal_value (explicit_digits b) ->
  failed (UnmarshalText p b) p.
Proof.
  intros He Hv. rewrite UnmarshalText_eq.
  assert (Hi : is_implicit b = false).
  { destruct b as [|c0 b]; [reflexivity|]. cbn [is_explicit] in He.
    apply andb_true_iff in He. destruct He as [H0 _].
    apply Ascii.eqb_eq in H0. subst c0. reflexivity. }
  rewrite Hi, He, fromExplicit_spec by assumption.
  destruct (Z.leb_spec (octal_value (explicit_digits b)) maxUint32); [lia|].
  eexists. reflexivity.
Qed.

(** C7: a string of octal digits whose value exceeds [2^32 - 1] fails to
    parse, bare and after either prefix [0] or [0o], and the failure leaves
    the receiver alone. *)
Theorem octal_overflow_rejected p ds :
  forallb is_octal_digit ds = true -> maxUint32 < octal_value ds ->
  failed (UnmarshalText p ds) p
  /\ failed (UnmarshalText p ("0"%char :: ds)) p
  /\ failed (UnmarshalText p ("0"%char :: "o"%char :: ds)) p.
Proof.
  intros Hd Hv. pose proof (octal_length_lower ds Hd Hv) as Hlen.
  destruct ds as [|d0 ds']; [simpl in Hlen; lia|].
  pose proof Hd as Hd'. cbn [forallb] in Hd'.
  apply andb_true_iff in Hd'. destruct Hd' as [Hd0 Hds'].
  assert (H3 : is_octal_digits 3 (d0 :: ds') = true).
  { unfold is_octal_digits. rewrite Hd, andb_true_r.
    apply Nat.leb_le. lia. }
  assert (H3' : is_octal_digits 3 ds' = true).
  { unfold is_octal_digits. rewrite Hds', andb_true_r.
    apply Nat.leb_le. cbn [length] in Hlen. lia. }
  assert (H2' : is_octal_digits 2 ds' = true).
  { unfold is_octal_digits. rewrite Hds', andb_true_r.
    apply Nat.leb_le. cbn [length] in Hlen. lia. }
  split; [|split].
  - destruct (octal_digit_lead d0 Hd0) as [->|Hlead].
    + apply explicit_overflow.
      * cbn [is_explicit]. rewrite H3', orb_true_r. reflexivity.
      * destruct ds' as [|d1 ds'']; [discriminate H3'|].
        cbn [forallb] in Hds'. apply andb_true_iff in Hds'.
        cbn [explicit_digits].
        rewrite (octal_digit_not_o d1 (proj1 Hds')).
        now rewrite octal_value_0 in Hv.
    + rewrite UnmarshalText_eq.
      assert (Hi : is_implicit (d0 :: ds') = true)
        by (cbn [is_implicit]; now rewrite Hlead, H2').
      rewrite Hi, fromImplicit_spec by assumption.
      destruct (Z.leb_spec (octal_value (d0 :: ds')) maxUint32); [lia|].
      eexists. reflexivity.
  - apply explicit_overflow.
    + cbn [is_explicit]. rewrite H3, orb_true_r. reflexivity.
    + cbn [explicit_digits]. now rewrite (octal_digit_not_o d0 Hd0).
  - apply explicit_overflow.
    + cbn [is_explicit]. rewrite H3. reflexivity.
    + exact Hv.
Qed.

Lemma octal_overflow_rejected_witness :
  forallb is_octal_digit (B "47777777777") = true
  /\ maxUint32 < octal_value (B "47777777777")
  /\ failed (UnmarshalText 420 (B "47777777777")) 420
  /\ failed (UnmarshalText 420 (B "047777777777")) 420
  /\ failed (UnmarshalText 420 (B "0o47777777777")) 420.
Proof.
  assert (H1 : forallb is_octal_digit (B "47777777777") = true)
    by reflexivity.
  assert (H2 : maxUint32 < octal_value (B "47777777777")) by reflexivity.
  split; [exact H1|]. split; [exact H2|].
  exact (octal_overflow_rejected 420 (B "47777777777") H1 H2).
Defined.

End Octal.

(* ================================================================= *)
(** ** The clauses that FindAllSubmatch extracts *)

Module Extract.

Local Open Scope nat_scope.

Lemma first_cat r1 r2 st st1 st2 :
  first_match r1 st = Some st1 -> first_match r2 st1 = Some st2 ->
  first_match (Cat r1 r2) st = Some st2.
Proof.
  unfold first_match. cbn [exec].
  destruct (exec r1 st) as [|x l]; [discriminate|]. intros [= ->].
  cbn [flat_map]. destruct (exec r2 st1) as [|y l']; [discriminate|].
  intros [= ->]. reflexivity.
Qed.

Lemma first_cap i r st st1 :
  first_match r st = Some st1 ->
  first_match (Cap i r) st = Some (set_cap i st st1).
Proof.
  unfold first_match. cbn [exec].
  destruct (exec r st) as [|x l]; [discriminate|]. now intros [= ->].
Qed.

Lemma first_alt_l r1 r2 st st1 :
  first_match r1 st = Some st1 -> first_match (Alt r1 r2) st = Some st1.
Proof.
  unfold first_match. cbn [exec].
  destruct (exec r1 st) as [|x l]; [discriminate|]. now intros [= ->].
Qed.

Lemma first_alt_r r1 r2 st :
  exec r1 st = [] -> first_match (Alt r1 r2) st = first_match r2 st.
Proof. unfold first_match. cbn [exec]. now intros ->. Qed.

Lemma first_class p c p0 s cs :
  p c = true ->
  first_match (Class p) (MState p0 (c :: s) cs) = Some (MState (S p0) s cs).
Proof. intros H. unfold first_match. cbn. now rewrite H. Qed.

Lemma exec_class_stops p p0 s cs :
  stops p s = true -> exec (Class p) (MState p0 s cs) = [].
Proof.
  destruct s as [|x s]; [reflexivity|]. cbn. intros H.
  apply negb_true_iff in H. now rewrite H.
Qed.

Lemma exec_cat_nil r1 r2 st : exec r1 st = [] -> exec (Cat r1 r2) st = [].
Proof. intros H. cbn [exec]. now rewrite H. Qed.

(** Greedy [r{1,3}]: the whole run first, when the run cannot go on. *)
Lemma first_rep_1_3 p w p0 s cs :
  short w = true -> forallb p w = true -> stops p s = true ->
  first_match (rep_1_3 (Class p)) (MState p0 (w ++ s) cs)
  = Some (MState (p0 + length w) s cs).
Proof.
  intros Hs Hw Hstop. unfold rep_1_3, opt.
  destruct w as [|c1 [|c2 [|c3 [|c4 w]]]]; try discriminate;
    cbn [forallb] in Hw;
    repeat (apply andb_true_iff in Hw;
            let H := fresh "Hc" in destruct Hw as [H Hw]);
    cbn [app length].
  - eapply first_cat; [now apply first_class|].
    rewrite first_alt_r.
    + unfold first_match. cbn. f_equal. f_equal. lia.
    + now apply exec_cat_nil, exec_class_stops.
  - eapply first_cat; [now apply first_class|].
    apply first_alt_l.
    eapply first_cat; [now apply first_class|].
    rewrite first_alt_r.
    + unfold first_match. cbn. f_equal. f_equal. lia.
    + now apply exec_class_stops.
  - eapply first_cat; [now apply first_class|].
    apply first_alt_l.
    eapply first_cat; [now apply first_class|].
    apply first_alt_l.
    replace (p0 + 3) with (S (S (S p0))) by lia.
    now apply first_class.
Qed.

Lemma set_cap_explicit i p0 w s cs cs' :
  set_cap i (MState p0 (w ++ s) cs) (MState (p0 + length w) s cs')
  = MState (p0 + length w) s ((i, w) :: cs').
Proof. apply set_cap_advances. split; reflexivity. Qed.

Lemma actor_not_a x : one_of "ugo" x = true -> ("a" == x)%char = false.
Proof.
  intros H. apply one_of_cases in H. simpl in H.
  repeat (destruct H as [<-|H]; [reflexivity|]). destruct H.
Qed.

Lemma op_stops_actor o : one_of "-=+" o = true -> one_of "ugo" o = false.
Proof.
  intros H. apply one_of_cases in H. simpl in H.
  repeat (destruct H as [<-|H]; [reflexivity|]). destruct H.
Qed.

Lemma first_actor a o p0 s cs :
  is_actor a = true -> one_of "-=+" o = true ->
  first_match (Alt (lit "a") (rep_1_3 (Class (one_of "ugo"))))
              (MState p0 (a ++ o :: s) cs)
  = Some (MState (p0 + length a) (o :: s) cs).
Proof.
  unfold is_actor. intros Ha Ho. apply orb_true_iff in Ha.
  destruct Ha as [Ha|Ha].
  - destruct a as [|c [|d a]]; try discriminate.
    apply Ascii.eqb_eq in Ha. subst c. apply first_alt_l.
    replace (p0 + length ["a"%char]) with (S p0) by (simpl; lia).
    now apply first_class.
  - apply andb_true_iff in Ha. destruct Ha as [Hs Hw].
    rewrite first_alt_r.
    + apply first_rep_1_3; auto. cbn [stops]. now rewrite op_stops_actor.
    + destruct a as [|x a]; [discriminate|]. cbn [forallb] in Hw.
      apply andb_true_iff in Hw. destruct Hw as [Hx _].
      unfold lit. cbn [exec rest app]. now rewrite (actor_not_a x Hx).
Qed.

(** The first way the clause pattern matches a well-formed clause: all of
    it, when no permission letter follows. *)
Lemma first_clause k a o pm p0 s cs :
  is_actor a = true -> one_of "-=+" o = true ->
  short pm = true -> forallb (one_of "rwx") pm = true ->
  stops (one_of "rwx") s = true ->
  first_match (symbolic_clause k) (MState p0 ((a ++ o :: pm) ++ s) cs)
  = Some (MState (p0 + length (a ++ o :: pm)) s
                 ((k + 3, pm) :: (k + 2, [o]) :: (k + 1, a) :: cs)).
Proof.
  intros Ha Ho Hs Hpm Hstop. unfold symbolic_clause, cat.
  rewrite <- app_assoc. cbn [app].
  eapply first_cat.
  { apply first_cap. now apply first_actor. }
  rewrite set_cap_explicit.
  eapply first_cat.
  { apply first_cap. now apply first_class. }
  replace (S (p0 + length a)) with (p0 + length a + length [o])
    by (simpl; lia).
  rewrite (set_cap_explicit (k + 2) (p0 + length a) [o] (pm ++ s)).
  rewrite (first_cap (k + 3) _ _ _ (first_rep_1_3 _ pm _ s _ Hs Hpm Hstop)).
  rewrite set_cap_explicit. f_equal. f_equal.
  rewrite length_app. simpl. lia.
Qed.

Lemma exec_clause_nil k st :
  match rest st with
  | [] => True
  | x :: _ => one_of "augo" x = false
  end ->
  exec (symbolic_clause k) st = [].
Proof.
  intros H. destruct (exec (symbolic_clause k) st) as [|st' l] eqn:E;
    [reflexivity|exfalso].
  assert (Hin : In st' (exec (symbolic_clause k) st))
    by (rewrite E; now left).
  apply in_symbolic_clause in Hin.
  destruct Hin as (a & o & pm & Ha & _ & _ & _ & [Hr _] & _).
  apply is_actor_head in Ha. destruct Ha as (x & a' & -> & Hx).
  rewrite Hr in H. cbn [app] in H. congruence.
Qed.

Lemma search_first re p s st' :
  first_match re (MState p s []) = Some st' ->
  search re p s = Some (set_cap 0 (MState p s []) st').
Proof.
  unfold first_match. intros H.
  destruct s; cbn [search]; destruct (exec re _); try discriminate;
    now injection H as ->.
Qed.

Lemma search_skip re p c s :
  exec re (MState p (c :: s) []) = [] ->
  search re p (c :: s) = search re (S p) s.
Proof. intros H. cbn [search]. now rewrite H. Qed.

Lemma search_end re p :
  exec re (MState p [] []) = [] -> search re p [] = None.
Proof. intros H. cbn [search]. now rewrite H. Qed.

End Extract.

Import Extract.

Module ExtractAll.

Local Open Scope nat_scope.

Lemma space_cases sp :
  space sp = true ->
  one_of "rwx" sp = false /\ one_of "augo" sp = false.
Proof.
  unfold space. intros H. apply existsb_exists in H.
  destruct H as (x & Hin & Hx). apply Ascii.eqb_eq in Hx. subst x.
  simpl in Hin.
  repeat (destruct Hin as [<-|Hin]; [split; reflexivity|]). destruct Hin.
Qed.

Lemma actor_letter_not_perm x :
  one_of "augo" x = true -> one_of "rwx" x = false.
Proof.
  intros H. apply one_of_cases in H. simpl in H.
  repeat (destruct H as [<-|H]; [reflexivity|]). destruct H.
Qed.

Lemma wf_clause_parts c :
  wf_clause c = true ->
  is_actor (cl_actor c) = true /\ one_of "-=+" (cl_op c) = true
  /\ short (cl_perm c) = true /\ forallb (one_of "rwx") (cl_perm c) = true
  /\ is_sep (cl_sep c) = true.
Proof.
  unfold wf_clause. intros H.
  apply andb_true_iff in H. destruct H as [H Hsep].
  apply andb_true_iff in H. destruct H as [H Hp].
  apply andb_true_iff in Hp. destruct Hp as [Hs Hpm].
  apply andb_true_iff in H. destruct H as [Ha Ho]. auto.
Qed.

Lemma render_head c cs :
  wf_clause c = true ->
  exists x s, render_clauses (c :: cs) = x :: s /\ one_of "augo" x = true.
Proof.
  intros H. apply wf_clause_parts in H. destruct H as (Ha & _).
  apply is_actor_head in Ha. destruct Ha as (x & a' & Ha & Hx).
  cbn [render_clauses]. unfold clause_core. rewrite Ha.
  exists x. eexists. split; [reflexivity|exact Hx].
Qed.

(** After the permission letters of a clause comes white space, the actor
    of the next clause, or the end of the text. *)
Lemma stops_after_clause ws cs :
  is_sep ws = true -> forallb wf_clause cs = true ->
  stops (one_of "rwx") (ws ++ render_clauses cs) = true.
Proof.
  intros Hws Hcs. destruct ws as [|sp [|sp' ws]]; try discriminate.
  - cbn [app]. destruct cs as [|c cs]; [reflexivity|].
    cbn [forallb] in Hcs. apply andb_true_iff in Hcs.
    destruct (render_head c cs (proj1 Hcs)) as (x & s & -> & Hx).
    cbn [stops]. now rewrite (actor_letter_not_perm x Hx).
  - cbn [app stops is_sep] in *.
    now rewrite (proj1 (space_cases sp Hws)).
Qed.

(** The search that starts on the white space before a clause, or on the
    clause itself, finds that clause whole. *)
Lemma search_clause c ws p0 s :
  wf_clause c = true -> is_sep ws = true ->
  stops (one_of "rwx") s = true ->
  search fmtSymbolicExtract p0 (ws ++ clause_core c ++ s)
  = Some (MState (p0 + length ws + length (clause_core c)) s
                 [(0, clause_core c); (3, cl_perm c); (2, [cl_op c]);
                  (1, cl_actor c)]).
Proof.
  intros Hc Hws Hs. apply wf_clause_parts in Hc.
  destruct Hc as (Ha & Ho & Hsh & Hpm & _).
  assert (H : forall q,
             search fmtSymbolicExtract q (clause_core c ++ s)
             = Some (MState (q + length (clause_core c)) s
                            [(0, clause_core c); (3, cl_perm c);
                             (2, [cl_op c]); (1, cl_actor c)])).
  { intros q. unfold clause_core, fmtSymbolicExtract.
    rewrite (search_first _ _ _ _
               (first_clause 0 _ _ _ q s [] Ha Ho Hsh Hpm Hs)).
    now rewrite set_cap_explicit. }
  destruct ws as [|sp [|sp' ws]]; try discriminate.
  - cbn [app length]. rewrite Nat.add_0_r. apply H.
  - cbn [app length is_sep] in *. rewrite search_skip.
    + rewrite H. do 2 f_equal. lia.
    + apply exec_clause_nil. cbn [rest].
      apply (proj2 (space_cases sp Hws)).
Qed.

Lemma search_no_clause ws p0 :
  is_sep ws = true -> search fmtSymbolicExtract p0 ws = None.
Proof.
  intros Hws. destruct ws as [|sp [|sp' ws]]; try discriminate.
  - apply search_end. now apply exec_clause_nil.
  - cbn [is_sep] in Hws. rewrite search_skip.
    + apply search_end. now apply exec_clause_nil.
    + apply exec_clause_nil. cbn [rest].
      apply (proj2 (space_cases sp Hws)).
Qed.

(** [FindAllSubmatch] on a sequence of well-formed clauses delivers the
    clauses, one match each, from left to right. *)
Lemma all_matches_render cs : forall ws p0 prev fuel,
  forallb wf_clause cs = true -> is_sep ws = true ->
  length (ws ++ render_clauses cs) < fuel ->
  all_matches fmtSymbolicExtract fuel p0 (ws ++ render_clauses cs) prev
  = map clause_match cs.
Proof.
  induction cs as [|c cs IH]; intros ws p0 prev fuel Hcs Hws Hfuel;
    (destruct fuel as [|fuel]; [lia|]); cbn [all_matches render_clauses map].
  - rewrite app_nil_r, search_no_clause by assumption. reflexivity.
  - cbn [forallb] in Hcs. apply andb_true_iff in Hcs.
    destruct Hcs as [Hc Hcs].
    pose proof (wf_clause_parts c Hc) as (_ & _ & _ & _ & Hsep).
    rewrite search_clause; auto using stops_after_clause.
    cbn [pos rest caps].
    pose proof (clause_core_length c) as Hpos.
    destruct (Nat.eqb_spec (p0 + length ws + length (clause_core c)) p0);
      [lia|].
    f_equal. apply IH; auto.
    cbn [render_clauses] in Hfuel. rewrite !length_app in *. lia.
Qed.

Lemma FindAllSubmatch_render cs :
  forallb wf_clause cs = true ->
  FindAllSubmatch fmtSymbolicExtract (render_clauses cs)
  = map clause_match cs.
Proof.
  intros H. unfold FindAllSubmatch.
  apply (all_matches_render cs [] 0 None); auto.
Qed.

End ExtractAll.

Import ExtractAll.

(* ================================================================= *)
(** ** The symbolic grammar *)

Module SymbolicSemantics.

Lemma actor_sym_mask m c :
  actor_sym m c =
  if c == "a" then o777
  else Z.lor m (if c == "u" then o700
                else if c == "g" then o070
                else if c == "o" then o007 else 0).
Proof.
  unfold actor_sym. destruct (c == "a"); [reflexivity|].
  destruct (c == "u"); [reflexivity|]. destruct (c == "g"); [reflexivity|].
  destruct (c == "o"); [reflexivity|]. now rewrite Z.lor_0_r.
Qed.

Lemma actorperm_sym_mask m c :
  actorperm_sym m c =
  Z.lor m (if c == "r" then o444
           else if c == "w" then o222
           else if c == "x" then o111 else 0).
Proof.
  unfold actorperm_sym. destruct (c == "r"); [reflexivity|].
  destruct (c == "w"); [reflexivity|]. destruct (c == "x"); [reflexivity|].
  now rewrite Z.lor_0_r.
Qed.

Lemma fold_left_same (A E : Type) (f g : A -> E -> A) (l : list E) :
  (forall a x, f a x = g a x) ->
  forall a, fold_left f l a = fold_left g l a.
Proof.
  intros H. induction l as [|x l IH]; intros a; [reflexivity|].
  cbn [fold_left]. now rewrite H, IH.
Qed.

Lemma fold_actor_mask w : fold_left actor_sym w 0 = actor_mask w.
Proof. apply fold_left_same. exact actor_sym_mask. Qed.

Lemma fold_perm_mask w : fold_left actorperm_sym w 0 = perm_mask w.
Proof. apply fold_left_same. exact actorperm_sym_mask. Qed.

Lemma symbolic_step_clause perm c :
  symbolic_step perm (clause_match c)
  = Some (apply_op (cl_op c) perm (actor_mask (cl_actor c))
                   (perm_mask (cl_perm c))).
Proof.
  unfold symbolic_step, clause_match. cbn [index nth_error].
  now rewrite fold_actor_mask, fold_perm_mask.
Qed.

Lemma submask_o777_32 acc : submask o777 acc -> submask (Z.ones 32) acc.
Proof. intros H. eapply submask_mono; [exact H|reflexivity]. Qed.

(** On a 9-bit accumulator and an operator of the grammar, the switch of
    the source does what the specification says. *)
Lemma apply_op_spec acc c :
  one_of "-=+" (cl_op c) = true -> submask o777 acc ->
  apply_op (cl_op c) acc (actor_mask (cl_actor c)) (perm_mask (cl_perm c))
  = spec_apply acc c.
Proof.
  intros Ho Hacc. apply submask_o777_32 in Hacc.
  unfold apply_op, spec_apply. cbv zeta.
  destruct (cl_op c == "+") eqn:E1; [reflexivity|].
  destruct (cl_op c == "-") eqn:E2; [now rewrite land_not32|].
  destruct (cl_op c == "=") eqn:E3.
  - now rewrite land_not32.
  - apply one_of_cases in Ho. simpl in Ho.
    destruct Ho as [Ho|[Ho|[Ho|[]]]]; rewrite <- Ho in *;
      vm_compute in E1, E2, E3; congruence.
Qed.

Lemma actor_mask_submask w : submask o777 (actor_mask w).
Proof. rewrite <- fold_actor_mask. apply actors_submask, submask_0. Qed.

Lemma symbolic_loop_clauses cs : forall acc,
  forallb wf_clause cs = true -> submask o777 acc ->
  symbolic_loop acc (map clause_match cs) = Some (fold_left spec_apply cs acc).
Proof.
  induction cs as [|c cs IH]; intros acc Hcs Hacc; [reflexivity|].
  cbn [forallb] in Hcs. apply andb_true_iff in Hcs. destruct Hcs as [Hc Hcs].
  pose proof (wf_clause_parts c Hc) as (_ & Ho & _).
  cbn [map symbolic_loop fold_left]. rewrite symbolic_step_clause.
  rewrite <- (apply_op_spec acc c Ho Hacc). apply IH; auto.
  apply apply_op_submask; auto using actor_mask_submask.
Qed.

(** The symbolic decoder on a sequence of well-formed clauses. *)
Lemma fromSymbolic_render p cs :
  forallb wf_clause cs = true ->
  fromSymbolic p (render_clauses cs)
  = Returned (fold_left spec_apply cs 0) None.
Proof.
  intros H. unfold fromSymbolic.
  rewrite FindAllSubmatch_render, symbolic_loop_clauses;
    auto using submask_0.
Qed.

Lemma UnmarshalText_render p cs :
  cs <> [] -> forallb wf_clause cs = true ->
  UnmarshalText p (render_clauses cs)
  = Returned (fold_left spec_apply cs 0) None.
Proof.
  intros Hne H. rewrite UnmarshalText_symbolic.
  - now apply fromSymbolic_render.
  - apply Match_fmtSymbolicMatch. exists cs. auto.
Qed.

(** C4: the strings of the symbolic grammar are the sequences of one or
    more well-formed clauses, and parsing one applies its clauses from left
    to right to an accumulator that starts at zero.  [+] ORs
    (actor mask AND permission mask) into it, [-] ANDs it with the
    complement of that, [=] clears the bits of the actor mask and ORs that
    in, so that the bits of other actors stay as they were.  The six
    examples of the specification follow. *)
Theorem symbolic_left_to_right :
  (forall b, accepts Symbolic b = true <-> symbolic_text b)
  /\ (forall p cs,
         cs <> [] -> forallb wf_clause cs = true ->
         UnmarshalText p (render_clauses cs)
         = Returned (fold_left spec_apply cs 0) None)
  /\ (forall acc c i,
         0 <= i ->
         let am := Z.testbit (actor_mask (cl_actor c)) i in
         let pm := Z.testbit (perm_mask (cl_perm c)) i in
         Z.testbit (spec_apply acc c) i =
         if cl_op c == "+" then Z.testbit acc i || (am && pm)
         else if cl_op c == "-" then Z.testbit acc i && negb (am && pm)
         else if am then pm else Z.testbit acc i)
  /\ (forall p,
         UnmarshalText p (B "a=rwx") = Returned o777 None
         /\ UnmarshalText p (B "a=rwx o-w") = Returned 509 (* 0o775 *) None
         /\ UnmarshalText p (B "u=x g=w o=r") = Returned 84 (* 0o124 *) None
         /\ UnmarshalText p (B "u+w u+r u+w") = Returned 384 (* 0o600 *) None
         /\ UnmarshalText p (B "u=ru+wu-r") = Returned o200 None
         /\ UnmarshalText p (B "a=rwx o-r a-w o-x o+r")
            = Returned 364 (* 0o554 *) None).
Proof.
  split; [exact Match_fmtSymbolicMatch|].
  split; [exact UnmarshalText_render|]. split.
  - intros acc c i Hi. cbv zeta. unfold spec_apply. cbv zeta.
    destruct (cl_op c == "+"); [now rewrite Z.lor_spec, Z.land_spec|].
    destruct (cl_op c == "-");
      [now rewrite Z.land_spec, Z.lnot_spec, Z.land_spec|].
    rewrite Z.lor_spec, !Z.land_spec, Z.lnot_spec by assumption.
    destruct (Z.testbit (actor_mask (cl_actor c)) i); simpl.
    + now rewrite andb_false_r.
    + now rewrite andb_true_r, orb_false_r.
  - intros p.
    repeat split; apply (UnmarshalText_ok_any 0); reflexivity.
Qed.

End SymbolicSemantics.

Import SymbolicSemantics.

(* ================================================================= *)
(** ** Classification *)

Module Classification.

Lemma accepts_eq b :
  accepts ImplicitOctal b = is_implicit b
  /\ accepts ExplicitOctal b = is_explicit b
  /\ accepts BasicSingle b = is_single b
  /\ accepts BasicTriple b = is_triple b
  /\ accepts Symbolic b = Match fmtSymbolicMatch b
  /\ accepts Full b = Match fmtFull b.
Proof.
  unfold accepts, pattern.
  now rewrite Match_fmtImplicitInt, Match_fmtExplicitInt,
    Match_fmtBasicSingle, Match_fmtBasicTriple.
Qed.

(** No string is both symbolic and basic, so that testing the basic forms
    before the symbolic form, as the source does, or after it, as the
    specification lists them, is the same. *)
Lemma spec_order_same p b : UnmarshalText p b = dispatch spec_order p b.
Proof.
  rewrite UnmarshalText_eq. unfold spec_order. cbn [dispatch decoder].
  destruct (accepts_eq b) as (-> & -> & -> & -> & -> & ->).
  destruct (is_implicit b); [reflexivity|].
  destruct (is_explicit b); [reflexivity|].
  destruct (Match fmtSymbolicMatch b) eqn:E; [|reflexivity].
  apply Match_fmtSymbolicMatch, symbolic_text_head in E.
  destruct E as (x & s & -> & Hx).
  destruct (actor_head_not_earlier x s Hx) as (_ & _ & -> & ->).
  reflexivity.
Qed.

Lemma only_decoder p b g :
  accepted_only_by g b -> UnmarshalText p b = decoder g p b.
Proof.
  intros [Hg Hothers]. rewrite spec_order_same. unfold spec_order.
  cbn [dispatch].
  destruct g; rewrite ?Hg, ?Hothers by discriminate; reflexivity.
Qed.

(** C3, as stated, fails: [47777777777] is accepted by the implicit octal
    grammar and by no other, and parsing it fails. *)
Lemma sole_grammar_may_fail :
  accepted_only_by ImplicitOctal (B "47777777777")
  /\ failed (UnmarshalText 0 (B "47777777777")) 0.
Proof.
  split.
  - split; [reflexivity|]. intros g' Hg'.
    destruct g'; try reflexivity. congruence.
  - eexists. reflexivity.
Qed.

(** C3, amended: the result is that of trying the grammars in the order
    implicit octal, explicit octal, symbolic, basic single, basic triple,
    full, the first that accepts the string giving the decoder.  A string
    accepted by exactly one grammar is decoded by that grammar: it parses to
    the grammar's bit pattern, unless it is an octal string whose number
    exceeds [2^32 - 1], which fails.  A string that no grammar accepts
    fails as unrecognized. *)
Theorem first_match_decides p b :
  UnmarshalText p b = dispatch spec_order p b
  /\ (forall g,
         accepted_only_by g b ->
         UnmarshalText p b = decoder g p b
         /\ ((exists r, UnmarshalText p b = Returned r None
                        /\ grammar_value g b r)
             \/ (overflows g b /\ failed (UnmarshalText p b) p)))
  /\ ((forall g, accepts g b = false) ->
      UnmarshalText p b = Returned p (Some (ErrUnrecognized b))).
Proof.
  split; [apply spec_order_same|]. split.
  - intros g Hg. pose proof (only_decoder p b g Hg) as Hd.
    split; [exact Hd|]. rewrite Hd. destruct Hg as [Hg _].
    destruct (accepts_eq b) as (E1 & E2 & E3 & E4 & E5 & E6).
    destruct g; cbn [decoder grammar_value overflows].
    + rewrite E1 in Hg. rewrite fromImplicit_spec by assumption.
      destruct (Z.leb_spec (octal_value b) maxUint32).
      * left. eauto.
      * right. split; [assumption|]. eexists. reflexivity.
    + rewrite E2 in Hg. rewrite fromExplicit_spec by assumption.
      destruct (Z.leb_spec (octal_value (explicit_digits b)) maxUint32).
      * left. eauto.
      * right. split; [assumption|]. eexists. reflexivity.
    + rewrite E5 in Hg. apply Match_fmtSymbolicMatch in Hg.
      destruct Hg as (cs & Hne & Hwf & ->). left.
      rewrite fromSymbolic_render by assumption. eauto 6.
    + rewrite E3 in Hg. rewrite fromBasicSingle_spec by assumption.
      left. eauto.
    + rewrite E4 in Hg. rewrite fromBasicTriple_spec by assumption.
      left. eauto.
    + rewrite E6 in Hg. apply Match_fmtFull in Hg.
      destruct Hg as (pre & tri & -> & Hok & Htri). left.
      rewrite fromFull_spec by assumption. eauto 7.
  - intros Hnone. rewrite spec_order_same. unfold spec_order.
    cbn [dispatch]. now rewrite !Hnone.
Qed.

End Classification.

(* ================================================================= *)
(** ** The canonical form *)

Module Canonical.

Lemma nil_in_subseqs l : In [] (subseqs l).
Proof.
  induction l as [|d l IH]; simpl; [now left|].
  apply in_or_app. now right.
Qed.

Lemma in_subseqs l : forall w, is_subseq w l = true -> In w (subseqs l).
Proof.
  induction l as [|d l IH]; intros w H.
  - destruct w; [now left|discriminate].
  - destruct w as [|c w]; [apply nil_in_subseqs|].
    cbn [is_subseq] in H. cbn [subseqs]. apply in_or_app.
    destruct (c == d) eqn:E.
    + apply Ascii.eqb_eq in E. subst d. left. apply in_map. now apply IH.
    + right. now apply IH.
Qed.

Lemma bytes_eqb_true a b : bytes_eqb a b = true -> a = b.
Proof. unfold bytes_eqb. destruct (list_eq_dec ascii_dec a b); congruence. Qed.

(** Every choice of mode letters in the order of the table comes back from
    the first loop of [String] as it was written: the switch of [fromFull]
    and the table of [String] bind each letter to the same bit. *)
Lemma mode_letters_round_trip pre :
  is_subseq pre mode_letters = true ->
  mode_chars (fold_left attr_sym pre 0) 0 mode_letters = pre
  /\ forallb (one_of "dalTLDpSugct?") pre = true.
Proof.
  intros H. apply in_subseqs in H.
  assert (A : forallb
                (fun pre =>
                   bytes_eqb (mode_chars (fold_left attr_sym pre 0) 0
                                         mode_letters) pre
                   && forallb (one_of "dalTLDpSugct?") pre)
                (subseqs mode_letters) = true)
    by (vm_compute; reflexivity).
  rewrite forallb_forall in A. specialize (A pre H).
  apply andb_true_iff in A. destruct A as [A1 A2].
  split; [now apply bytes_eqb_true|exact A2].
Qed.

Lemma submask_testbit m x k :
  submask m x -> Z.testbit m k = false -> Z.testbit x k = false.
Proof.
  unfold submask. intros H Hm. rewrite <- H, Z.land_spec, Hm.
  apply andb_false_r.
Qed.

Lemma perm_bits_high k : 9 <= k -> Z.testbit o777 k = false.
Proof. intros H. apply Z.bits_above_log2; [discriminate|simpl; lia]. Qed.

Lemma mode_bits_low k : 0 <= k < 19 -> Z.testbit mode_bits k = false.
Proof.
  intros H. change mode_bits with (8191 * 2 ^ 19).
  apply Z.mul_pow2_bits_low. lia.
Qed.

(** The first loop of [String] reads bits 19 to 31 only. *)
Lemma mode_chars_ext m m' :
  (forall k, 19 <= k <= 31 -> Z.testbit m k = Z.testbit m' k) ->
  forall str i, 0 <= i -> i + Z.of_nat (length str) <= 13 ->
  mode_chars m i str = mode_chars m' i str.
Proof.
  intros H str. induction str as [|c str IH]; intros i Hi Hlen;
    [reflexivity|].
  cbn [mode_chars length] in *.
  rewrite !land_bit_test by lia. rewrite (H (32 - 1 - i)) by lia.
  rewrite (IH (i + 1)) by lia. reflexivity.
Qed.

(** The second loop reads bits 0 to 8 only. *)
Lemma rwx_chars_ext m m' :
  (forall k, 0 <= k <= 8 -> Z.testbit m k = Z.testbit m' k) ->
  forall rwx i, 0 <= i -> i + Z.of_nat (length rwx) <= 9 ->
  rwx_chars m i rwx = rwx_chars m' i rwx.
Proof.
  intros H rwx. induction rwx as [|c rwx IH]; intros i Hi Hlen;
    [reflexivity|].
  cbn [rwx_chars length] in *.
  rewrite !land_bit_test by lia. rewrite (H (9 - 1 - i)) by lia.
  rewrite (IH (i + 1)) by lia. reflexivity.
Qed.

Lemma or_if_lor c letter hi x bit :
  or_if c letter (Z.lor hi x) bit = Z.lor hi (or_if c letter x bit).
Proof.
  unfold or_if. destruct (c == letter); [|reflexivity].
  now rewrite Z.lor_assoc.
Qed.

(** The nine columns are ORed on top of what the mode letters set. *)
Lemma cols_value_lor hi t : cols_value hi t = Z.lor hi (cols_value 0 t).
Proof.
  destruct t as [|c0 [|c1 [|c2 [|c3 [|c4 [|c5 [|c6 [|c7 [|c8 [|c9 t]]]]]]]]]];
    try (cbn [cols_value]; now rewrite Z.lor_0_r).
  cbn [cols_value]. rewrite <- !or_if_lor. now rewrite Z.lor_0_r.
Qed.

Lemma is_col_cases letter c :
  is_col letter c = true -> c = letter \/ c = "-"%char.
Proof.
  unfold is_col. intros H. apply orb_true_iff in H.
  destruct H as [H|H]; apply Ascii.eqb_eq in H; auto.
Qed.

(** The nine columns come back from the second loop as they were written. *)
Lemma columns_round_trip t :
  is_triple t = true -> rwx_chars (cols_value 0 t) 0 rwx_letters = t.
Proof.
  destruct t as [|c0 [|c1 [|c2 [|c3 [|c4 [|c5 [|c6 [|c7 [|c8 [|c9 t]]]]]]]]]];
    try discriminate.
  cbn [is_triple]. intros H.
  repeat (apply andb_true_iff in H;
          let A := fresh "A" in destruct H as [H A];
          apply is_col_cases in A).
  apply is_col_cases in H.
  repeat match goal with
         | A : _ \/ _ |- _ => destruct A as [->| ->]
         end; reflexivity.
Qed.

(** [String] after the full decoder, on mode letters in canonical order. *)
Lemma String_full pre tri :
  pre = ["-"%char] \/ (pre <> [] /\ is_subseq pre mode_letters = true) ->
  is_triple tri = true ->
  String (cols_value (fold_left attr_sym pre 0) tri) = pre ++ tri.
Proof.
  intros Hpre Htri. unfold String, FileMode_String. cbv zeta.
  rewrite cols_value_lor.
  set (hi := fold_left attr_sym pre 0). set (lo := cols_value 0 tri).
  assert (Hhi : submask mode_bits hi) by apply attrs_submask, submask_0.
  assert (Hlo : submask o777 lo)
    by (apply cols_value_submask; [apply submask_0|apply submask_refl]).
  rewrite (mode_chars_ext (Z.lor hi lo) hi), (rwx_chars_ext (Z.lor hi lo) lo);
    try (simpl; lia).
  - unfold lo. rewrite columns_round_trip by assumption. f_equal.
    destruct Hpre as [->|[Hne Hsub]]; [reflexivity|].
    unfold hi. rewrite (proj1 (mode_letters_round_trip pre Hsub)).
    destruct pre; congruence.
  - intros k Hk. rewrite Z.lor_spec.
    rewrite (submask_testbit mode_bits hi k Hhi); [reflexivity|].
    apply mode_bits_low. lia.
  - intros k Hk. rewrite Z.lor_spec.
    rewrite (submask_testbit o777 lo k Hlo); [apply orb_false_r|].
    apply perm_bits_high. lia.
Qed.

End Canonical.

Import Canonical.

Module CanonicalRoundTrip.

Lemma render_app cs1 cs2 :
  render_clauses (cs1 ++ cs2) = render_clauses cs1 ++ render_clauses cs2.
Proof.
  induction cs1 as [|c cs1 IH]; [reflexivity|].
  cbn [app render_clauses]. now rewrite IH, !app_assoc.
Qed.

Lemma is_actor_letters a :
  is_actor a = true -> a <> [] /\ forallb (one_of "augo") a = true.
Proof.
  unfold is_actor. intros H. apply orb_true_iff in H. destruct H as [H|H].
  - destruct a as [|c [|d a]]; try discriminate.
    apply Ascii.eqb_eq in H. subst c. split; [discriminate|reflexivity].
  - apply andb_true_iff in H. destruct H as [Hs Hw].
    split; [destruct a; [discriminate|discriminate]|].
    clear Hs. induction a as [|c a IH]; [reflexivity|].
    cbn [forallb] in *. apply andb_true_iff in Hw. destruct Hw as [Hc Hw].
    rewrite (IH Hw), andb_true_r.
    apply one_of_cases in Hc. simpl in Hc.
    repeat (destruct Hc as [<-|Hc]; [reflexivity|]). destruct Hc.
Qed.

Lemma short_length w : short w = true -> (length w <= 3)%nat.
Proof.
  unfold short. intros H. apply andb_true_iff in H.
  destruct H as [_ H]. now apply Nat.leb_le.
Qed.

Lemma is_sep_length w : is_sep w = true -> (length w <= 1)%nat.
Proof. destruct w as [|c [|d w]]; simpl; intros; try discriminate; lia. Qed.

(** The last clause of a symbolic string puts an actor letter among its
    last six bytes. *)
Lemma symbolic_last_actor b :
  symbolic_text b ->
  exists front x tail,
    b = front ++ x :: tail /\ one_of "augo" x = true
    /\ (length tail <= 5)%nat.
Proof.
  intros (cs & Hne & Hwf & ->).
  destruct (exists_last Hne) as (cs' & c & ->).
  rewrite forallb_app in Hwf. apply andb_true_iff in Hwf.
  destruct Hwf as [_ Hc]. cbn [forallb] in Hc. rewrite andb_true_r in Hc.
  destruct (wf_clause_parts c Hc) as (Ha & _ & Hs & _ & Hsep).
  apply is_actor_letters in Ha. destruct Ha as [Hane Hal].
  destruct (exists_last Hane) as (a' & x & Ea).
  rewrite Ea, forallb_app in Hal. apply andb_true_iff in Hal.
  destruct Hal as [_ Hx]. cbn [forallb] in Hx. rewrite andb_true_r in Hx.
  exists (render_clauses cs' ++ a'), x, (cl_op c :: cl_perm c ++ cl_sep c).
  split; [|split; [exact Hx|]].
  - rewrite render_app. cbn [render_clauses]. unfold clause_core.
    rewrite Ea, app_nil_r, <- !app_assoc. reflexivity.
  - apply short_length in Hs. apply is_sep_length in Hsep.
    cbn [length]. rewrite length_app. lia.
Qed.

Lemma triple_letters t :
  is_triple t = true -> forallb (one_of "rwx-") t = true.
Proof.
  destruct t as [|c0 [|c1 [|c2 [|c3 [|c4 [|c5 [|c6 [|c7 [|c8 [|c9 t]]]]]]]]]];
    try discriminate.
  cbn [is_triple forallb]. intros H.
  repeat (apply andb_true_iff in H;
          let A := fresh "A" in destruct H as [H A];
          apply is_col_cases in A).
  apply is_col_cases in H.
  repeat match goal with
         | A : ?c = _ \/ ?c = _ |- _ =>
             assert (one_of "rwx-" c = true)
               by (destruct A as [->| ->]; reflexivity);
             clear A
         end.
  repeat (apply andb_true_iff; split); auto.
Qed.

(** No string that ends in the nine columns is symbolic. *)
Lemma full_not_symbolic pre tri :
  is_triple tri = true -> Match fmtSymbolicMatch (pre ++ tri) = false.
Proof.
  intros Htri. destruct (Match _ _) eqn:E; [exfalso|reflexivity].
  apply Match_fmtSymbolicMatch, symbolic_last_actor in E.
  destruct E as (front & x & tail & Hb & Hx & Hlen).
  pose proof (is_triple_length _ Htri) as H9.
  apply app_eq_app in Hb. destruct Hb as [l [[_ Hb]|[_ Hb]]].
  - apply (f_equal (@length ascii)) in Hb.
    rewrite length_app in Hb. cbn [length] in Hb. lia.
  - pose proof (triple_letters tri Htri) as Hl.
    rewrite Hb, forallb_app in Hl. apply andb_true_iff in Hl.
    destruct Hl as [_ Hl]. cbn [forallb] in Hl.
    apply andb_true_iff in Hl. destruct Hl as [Hl _].
    apply one_of_cases in Hx. simpl in Hx.
    repeat (destruct Hx as [<-|Hx]; [discriminate Hl|]). destruct Hx.
Qed.

Lemma is_single_length t : is_single t = true -> length t = 3%nat.
Proof.
  destruct t as [|c0 [|c1 [|c2 [|c3 t]]]]; simpl; intros;
    try discriminate; reflexivity.
Qed.

(** A string with a leading dash or mode letter reaches the full decoder. *)
Lemma UnmarshalText_full p c pre tri :
  one_of "-dalTLDpSugct?" c = true ->
  c :: pre = ["-"%char] \/ forallb (one_of "dalTLDpSugct?") (c :: pre) = true ->
  is_triple tri = true ->
  UnmarshalText p ((c :: pre) ++ tri)
  = Returned (cols_value (fold_left attr_sym (c :: pre) 0) tri) None.
Proof.
  intros Hc Hok Htri. pose proof (is_triple_length _ Htri) as H9.
  rewrite UnmarshalText_eq.
  assert (H1 : is_implicit ((c :: pre) ++ tri) = false).
  { cbn [app is_implicit]. apply one_of_cases in Hc. simpl in Hc.
    repeat (destruct Hc as [<-|Hc]; [reflexivity|]). destruct Hc. }
  assert (H2 : is_explicit ((c :: pre) ++ tri) = false).
  { cbn [app is_explicit]. apply one_of_cases in Hc. simpl in Hc.
    repeat (destruct Hc as [<-|Hc]; [reflexivity|]). destruct Hc. }
  assert (H3 : is_single ((c :: pre) ++ tri) = false).
  { destruct (is_single _) eqn:E; [|reflexivity].
    apply is_single_length in E. rewrite length_app in E.
    cbn [length] in E. lia. }
  assert (H4 : is_triple ((c :: pre) ++ tri) = false).
  { destruct (is_triple ((c :: pre) ++ tri)) eqn:E; [|reflexivity].
    apply is_triple_length in E. rewrite length_app in E.
    cbn [length] in E. lia. }
  rewrite H1, H2, H3, H4, full_not_symbolic by assumption.
  assert (H6 : Match fmtFull ((c :: pre) ++ tri) = true)
    by (apply Match_fmtFull; exists (c :: pre), tri; auto).
  rewrite H6. now apply fromFull_spec.
Qed.

(** C2, as stated, fails on three kinds of full-form strings: with an
    empty leading group ([rwxrwxrwx] comes back with a dash in front),
    with mode letters out of the order of the table ([gu...] comes back as
    [ug...]) and with a mode letter written twice. *)
Lemma full_form_not_fixed :
  (full_form (B "rwxrwxrwx")
   /\ UnmarshalText 0 (B "rwxrwxrwx") = Returned 511 None
   /\ fst (MarshalText 511) = B "-rwxrwxrwx"
   /\ fst (MarshalText 511) <> B "rwxrwxrwx")
  /\ (full_form (B "gurwxr-xr-x")
      /\ UnmarshalText 0 (B "gurwxr-xr-x") = Returned 12583405 None
      /\ fst (MarshalText 12583405) = B "ugrwxr-xr-x"
      /\ fst (MarshalText 12583405) <> B "gurwxr-xr-x")
  /\ (full_form (B "ddrwxrwxrwx")
      /\ UnmarshalText 0 (B "ddrwxrwxrwx") = Returned 2147484159 None
      /\ fst (MarshalText 2147484159) = B "drwxrwxrwx"
      /\ fst (MarshalText 2147484159) <> B "ddrwxrwxrwx").
Proof.
  repeat split; try reflexivity; try discriminate.
  - exists [], (B "rwxrwxrwx"). repeat split; auto.
  - exists (B "gu"), (B "rwxr-xr-x"). repeat split; auto.
  - exists (B "dd"), (B "rwxrwxrwx"). repeat split; auto.
Qed.

(** C2, amended: a string made of a lone dash, or of one or more mode
    letters each written at most once and in the order of [dalTLDpSugct?],
    followed by the nine columns, is parsed by [UnmarshalText] and written
    back by [MarshalText] (and [String]) byte for byte, with no error. *)
Theorem canonical_round_trip p s :
  canonical_full s ->
  exists r, UnmarshalText p s = Returned r None
            /\ MarshalText r = (s, None) /\ String r = s.
Proof.
  intros (pre & tri & -> & Hpre & Htri).
  exists (cols_value (fold_left attr_sym pre 0) tri).
  unfold MarshalText. rewrite String_full by assumption.
  split; [|split; reflexivity].
  destruct pre as [|c pre].
  { destruct Hpre as [Hpre|[Hpre _]]; congruence. }
  apply UnmarshalText_full; [| |assumption].
  - destruct Hpre as [[= -> ->]|[_ Hsub]]; [reflexivity|].
    apply mode_letters_round_trip in Hsub. destruct Hsub as [_ Hl].
    cbn [forallb] in Hl. apply andb_true_iff in Hl. destruct Hl as [Hl _].
    apply one_of_cases in Hl. simpl in Hl.
    repeat (destruct Hl as [<-|Hl]; [reflexivity|]). destruct Hl.
  - destruct Hpre as [Hpre|[_ Hsub]]; [now left|right].
    now apply mode_letters_round_trip.
Qed.

Lemma canonical_round_trip_witness :
  canonical_full (B "ugrwxr-xr-x")
  /\ exists r, UnmarshalText 0 (B "ugrwxr-xr-x") = Returned r None
               /\ MarshalText r = (B "ugrwxr-xr-x", None)
               /\ String r = B "ugrwxr-xr-x".
Proof.
  assert (H : canonical_full (B "ugrwxr-xr-x")).
  { exists (B "ug"), (B "rwxr-xr-x"). split; [reflexivity|].
    split; [right; split; [discriminate|reflexivity]|reflexivity]. }
  split; [exact H|]. exact (canonical_round_trip 0 (B "ugrwxr-xr-x") H).
Defined.

End CanonicalRoundTrip.

(* ================================================================= *)
(** ** Beyond the specification: how the six grammars overlap *)

Module Overlap.

Import Classification CanonicalRoundTrip.

Lemma accepts_nil g : accepts g [] = false.
Proof. destruct g; reflexivity. Qed.

Lemma range_1_7 c : range "1" "7" c = one_of "1234567" c.
Proof. destruct c as [[] [] [] [] [] [] [] []]; reflexivity. Qed.

Lemma is_col_r c : is_col "r" c = one_of "r-" c.
Proof.
  unfold is_col, one_of. cbn [list_ascii_of_string existsb].
  now rewrite orb_false_r.
Qed.

Lemma accepts_head g c s : accepts g (c :: s) = true -> head_ok g c = true.
Proof.
  destruct (accepts_eq (c :: s)) as (E1 & E2 & E3 & E4 & E5 & E6).
  destruct g; cbn [head_ok]; intros H.
  - rewrite E1 in H. cbn [is_implicit] in H.
    apply andb_true_iff in H. now rewrite <- range_1_7.
  - rewrite E2 in H. cbn [is_explicit] in H.
    apply andb_true_iff in H. destruct H as [H _].
    unfold one_of. cbn [list_ascii_of_string existsb]. now rewrite H.
  - rewrite E5 in H. apply Match_fmtSymbolicMatch, symbolic_text_head in H.
    destruct H as (x & s' & [= -> ->] & Hx). exact Hx.
  - rewrite E3 in H. rewrite <- is_col_r. now apply is_single_head in H.
  - rewrite E4 in H. rewrite <- is_col_r. now apply is_triple_head in H.
  - rewrite E6 in H. apply Match_fmtFull in H.
    destruct H as (pre & tri & Hb & Hok & Htri).
    destruct pre as [|c' pre].
    + cbn [app] in Hb. subst tri. apply is_triple_head in Htri.
      apply is_col_cases in Htri. destruct Htri as [->| ->]; reflexivity.
    + injection Hb as -> _. destruct Hok as [[= -> _]|Hok]; [reflexivity|].
      cbn [forallb] in Hok. apply andb_true_iff in Hok.
      destruct Hok as [Hc _]. apply one_of_cases in Hc. simpl in Hc.
      repeat (destruct Hc as [<-|Hc]; [reflexivity|]). destruct Hc.
Qed.

Lemma accepts_length g b : accepts g b = true -> (3 <= length b)%nat.
Proof.
  destruct (accepts_eq b) as (E1 & E2 & E3 & E4 & E5 & E6).
  destruct g; intros H.
  - rewrite E1 in H. destruct b as [|d0 ds]; [discriminate|].
    cbn [is_implicit] in H. apply andb_true_iff in H. destruct H as [_ H].
    unfold is_octal_digits in H. apply andb_true_iff in H.
    destruct H as [H _]. apply Nat.leb_le in H. cbn [length]. lia.
  - rewrite E2 in H. apply is_explicit_digits in H. destruct H as [Hd Hb].
    unfold is_octal_digits in Hd. apply andb_true_iff in Hd.
    destruct Hd as [Hd _]. apply Nat.leb_le in Hd.
    destruct Hb as [Hb|Hb]; rewrite Hb; cbn [length]; lia.
  - rewrite E5 in H. apply Match_fmtSymbolicMatch in H.
    destruct H as (cs & Hne & Hwf & ->). destruct cs as [|c cs]; [congruence|].
    cbn [forallb] in Hwf. apply andb_true_iff in Hwf. destruct Hwf as [Hc _].
    destruct (wf_clause_parts c Hc) as (Ha & _ & Hs & _).
    apply is_actor_letters in Ha. destruct Ha as [Ha _].
    cbn [render_clauses]. unfold clause_core. rewrite !length_app.
    cbn [length]. unfold short in Hs. apply andb_true_iff in Hs.
    destruct Hs as [Hs _]. apply Nat.leb_le in Hs.
    destruct (cl_actor c); [congruence|]. cbn [length]. lia.
  - rewrite E3 in H. apply is_single_length in H. lia.
  - rewrite E4 in H. apply is_triple_length in H. lia.
  - rewrite E6 in H. apply Match_fmtFull in H.
    destruct H as (pre & tri & -> & _ & Htri).
    apply is_triple_length in Htri. rewrite length_app. lia.
Qed.

Lemma heads_apart g g' c :
  head_ok g c = true -> head_ok g' c = true ->
  match g, g' with
  | ImplicitOctal, ImplicitOctal | ExplicitOctal, ExplicitOctal => True
  | ImplicitOctal, _ | _, ImplicitOctal => False
  | ExplicitOctal, _ | _, ExplicitOctal => False
  | Symbolic, (BasicSingle | BasicTriple) => False
  | (BasicSingle | BasicTriple), Symbolic => False
  | _, _ => True
  end.
Proof.
  intros H H'.
  destruct g, g'; try exact I; cbn [head_ok] in *;
    apply one_of_cases in H; simpl in H;
    repeat (destruct H as [<-|H]; [discriminate H'|]); destruct H.
Qed.

Lemma single_not_triple b : is_single b = true -> is_triple b = true -> False.
Proof.
  intros H H'. apply is_single_length in H. apply is_triple_length in H'.
  congruence.
Qed.

Lemma single_not_full b :
  is_single b = true -> Match fmtFull b = true -> False.
Proof.
  intros H H'. apply is_single_length in H. apply Match_fmtFull in H'.
  destruct H' as (pre & tri & -> & _ & Htri).
  apply is_triple_length in Htri. rewrite length_app in H. lia.
Qed.

Lemma symbolic_not_full b :
  Match fmtSymbolicMatch b = true -> Match fmtFull b = true -> False.
Proof.
  intros H H'. apply Match_fmtFull in H'.
  destruct H' as (pre & tri & -> & _ & Htri).
  rewrite full_not_symbolic in H by assumption. discriminate.
Qed.

(** X1: two different grammars accept the same string only when they are
    the basic triple and the full form (a full string whose leading group
    is empty); every other pair of grammars is disjoint. *)
Theorem grammars_overlap_only_triple_full g g' b :
  accepts g b = true -> accepts g' b = true ->
  g = g' \/ (g = BasicTriple /\ g' = Full) \/ (g = Full /\ g' = BasicTriple).
Proof.
  intros H H'. destruct b as [|c s]; [now rewrite accepts_nil in H|].
  pose proof (heads_apart g g' c (accepts_head g c s H)
                (accepts_head g' c s H')) as Hh.
  destruct (accepts_eq (c :: s)) as (E1 & E2 & E3 & E4 & E5 & E6).
  destruct g, g'; try (now left); try (now destruct Hh); try tauto;
    exfalso; rewrite ?E3, ?E4, ?E5, ?E6 in H, H';
    eauto using single_not_triple, single_not_full, symbolic_not_full.
Qed.

Lemma grammars_overlap_witness :
  accepts BasicTriple (B "rwxr-x---") = true
  /\ accepts Full (B "rwxr-x---") = true
  /\ (BasicTriple = Full \/ (BasicTriple = BasicTriple /\ Full = Full)
      \/ (BasicTriple = Full /\ Full = BasicTriple)).
Proof.
  assert (H1 : accepts BasicTriple (B "rwxr-x---") = true) by reflexivity.
  assert (H2 : accepts Full (B "rwxr-x---") = true) by reflexivity.
  split; [exact H1|]. split; [exact H2|].
  exact (grammars_overlap_only_triple_full BasicTriple Full
           (B "rwxr-x---") H1 H2).
Defined.

(** On a basic triple the full decoder and the triple decoder agree. *)
Lemma fromFull_triple p t :
  is_triple t = true -> fromFull p t = fromBasicTriple p t.
Proof.
  intros H. rewrite fromBasicTriple_spec by assumption.
  apply (fromFull_spec p [] t); auto.
Qed.

Lemma other_rejects g g' b :
  accepts g b = true -> g <> g' ->
  ~ (g = BasicTriple /\ g' = Full) -> ~ (g = Full /\ g' = BasicTriple) ->
  accepts g' b = false.
Proof.
  intros H Hne H1 H2. destruct (accepts g' b) eqn:E; [|reflexivity].
  destruct (grammars_overlap_only_triple_full g g' b H E) as [?|[?|?]];
    tauto.
Qed.

(** Whatever grammar accepts a string, its decoder gives the result of
    [UnmarshalText]. *)
Lemma accepting_decoder p b g :
  accepts g b = true -> UnmarshalText p b = decoder g p b.
Proof.
  intros H.
  assert (R : forall g', g <> g' ->
                ~ (g = BasicTriple /\ g' = Full) ->
                ~ (g = Full /\ g' = BasicTriple) -> accepts g' b = false)
    by (intros g'; now apply other_rejects).
  rewrite UnmarshalText_eq.
  destruct (accepts_eq b) as (E1 & E2 & E3 & E4 & E5 & E6).
  rewrite <- E1, <- E2, <- E3, <- E5, <- E6.
  assert (E4' : is_triple b = accepts BasicTriple b) by now rewrite E4.
  rewrite E4'.
  destruct g; cbn [decoder];
    repeat match goal with
           | |- (if accepts ?g' b then _ else _) = _ =>
               first
                 [ rewrite H; reflexivity
                 | rewrite (R g')
                     by (try discriminate; intros [? ?]; discriminate) ]
           end.
  destruct (accepts BasicTriple b) eqn:E.
  - rewrite <- E4' in E. symmetry. now apply fromFull_triple.
  - rewrite (R Symbolic) by (try discriminate; intros [? ?]; discriminate).
    now rewrite H.
Qed.

Lemma dispatch_none gs p b :
  (forall g, In g gs -> accepts g b = false) ->
  dispatch gs p b = Returned p (Some (ErrUnrecognized b)).
Proof.
  induction gs as [|g gs IH]; intros H; [reflexivity|].
  cbn [dispatch]. rewrite (H g) by now left.
  apply IH. intros g' Hg'. apply H. now right.
Qed.

Lemma UnmarshalText_none p b :
  (forall g, accepts g b = false) ->
  UnmarshalText p b = Returned p (Some (ErrUnrecognized b)).
Proof.
  intros H. rewrite spec_order_same. now apply dispatch_none.
Qed.

(** X2: the order in which the six patterns are tried does not matter:
    trying them in any order, first match wins, gives the result of
    [UnmarshalText]. *)
Theorem any_order_same_result gs p b :
  (forall g, In g gs) -> dispatch gs p b = UnmarshalText p b.
Proof.
  intros Hall.
  assert (H : forall gs',
             (forall g, In g gs' -> accepts g b = false)
             \/ dispatch gs' p b = UnmarshalText p b).
  { induction gs' as [|g gs' IH]; [left; intros g []|].
    cbn [dispatch]. destruct (accepts g b) eqn:E.
    - right. symmetry. now apply accepting_decoder.
    - destruct IH as [IH|IH]; [left|now right].
      intros g' [<-|Hg']; auto. }
  destruct (H gs) as [Hnone|Heq]; [|exact Heq].
  rewrite dispatch_none by assumption. symmetry.
  apply UnmarshalText_none. intros g. apply Hnone, Hall.
Qed.

Lemma any_order_same_result_witness :
  (forall g, In g [Full; BasicTriple; BasicSingle; Symbolic; ExplicitOctal;
                   ImplicitOctal])
  /\ dispatch [Full; BasicTriple; BasicSingle; Symbolic; ExplicitOctal;
               ImplicitOctal] 0 (B "rwxr-x---")
     = UnmarshalText 0 (B "rwxr-x---").
Proof.
  assert (H : forall g, In g [Full; BasicTriple; BasicSingle; Symbolic;
                              ExplicitOctal; ImplicitOctal])
    by (intros g; destruct g; simpl; tauto).
  split; [exact H|].
  exact (any_order_same_result _ 0 (B "rwxr-x---") H).
Defined.

End Overlap.

(* ================================================================= *)
(** ** Beyond the specification: what is rejected, and how *)

Module Rejection.

Import Classification CanonicalRoundTrip Overlap.

Lemma forallb_imp (f g : ascii -> bool) l :
  (forall c, f c = true -> g c = true) ->
  forallb f l = true -> forallb g l = true.
Proof.
  intros H. induction l as [|c l IH]; [reflexivity|]. cbn [forallb].
  intros E. apply andb_true_iff in E. destruct E as [E1 E2].
  now rewrite (H c E1), IH.
Qed.

Lemma one_of_grammar_byte cs :
  forallb grammar_byte (list_ascii_of_string cs) = true ->
  forall c, one_of cs c = true -> grammar_byte c = true.
Proof.
  intros H c Hc. apply one_of_cases in Hc.
  rewrite forallb_forall in H. now apply H.
Qed.

Lemma octal_grammar_byte c : is_octal_digit c = true -> grammar_byte c = true.
Proof.
  intros H. apply octal_digit_cases in H. simpl in H.
  repeat (destruct H as [<-|H]; [reflexivity|]). destruct H.
Qed.

Lemma space_grammar_byte c : space c = true -> grammar_byte c = true.
Proof.
  intros H. unfold grammar_byte. now rewrite H, !orb_true_r.
Qed.

Lemma clauses_alphabet cs :
  forallb wf_clause cs = true ->
  forallb grammar_byte (render_clauses cs) = true.
Proof.
  induction cs as [|c cs IH]; [reflexivity|]. cbn [forallb render_clauses].
  intros H. apply andb_true_iff in H. destruct H as [Hc Hcs].
  destruct (wf_clause_parts c Hc) as (Ha & Ho & _ & Hpm & Hsep).
  apply is_actor_letters in Ha. destruct Ha as [_ Ha].
  unfold clause_core. rewrite !forallb_app. cbn [forallb].
  rewrite (forallb_imp _ _ _ (one_of_grammar_byte "augo" eq_refl) Ha).
  rewrite (one_of_grammar_byte "-=+" eq_refl _ Ho).
  rewrite (forallb_imp _ _ _ (one_of_grammar_byte "rwx" eq_refl) Hpm).
  rewrite (IH Hcs), andb_true_r. cbn [andb].
  destruct (cl_sep c) as [|sp [|sp' w]]; try discriminate; [reflexivity|].
  cbn [forallb is_sep] in *. now rewrite (space_grammar_byte sp Hsep).
Qed.

(** Every byte of an accepted string is one that some pattern can read. *)
Lemma accepts_alphabet g b :
  accepts g b = true -> forallb grammar_byte b = true.
Proof.
  destruct (accepts_eq b) as (E1 & E2 & E3 & E4 & E5 & E6).
  destruct g; intros H.
  - rewrite E1 in H. apply is_implicit_digits in H.
    apply (forallb_imp _ _ _ octal_grammar_byte), H.
  - rewrite E2 in H. apply is_explicit_digits in H. destruct H as [Hd Hb].
    apply octal_digits_nonempty in Hd. destruct Hd as [_ Hd].
    apply (forallb_imp _ _ _ octal_grammar_byte) in Hd.
    destruct Hb as [Hb|Hb]; rewrite Hb; cbn [forallb]; now rewrite Hd.
  - rewrite E5 in H. apply Match_fmtSymbolicMatch in H.
    destruct H as (cs & _ & Hwf & ->). now apply clauses_alphabet.
  - rewrite E3 in H. destruct b as [|c0 [|c1 [|c2 [|c3 b]]]]; try discriminate.
    cbn [is_single] in H.
    repeat (apply andb_true_iff in H;
            let A := fresh "A" in destruct H as [H A];
            apply is_col_cases in A).
    apply is_col_cases in H.
    repeat match goal with
           | A : _ \/ _ |- _ => destruct A as [->| ->]
           end; reflexivity.
  - rewrite E4 in H. apply triple_letters in H.
    apply (forallb_imp _ _ _ (one_of_grammar_byte "rwx-" eq_refl)), H.
  - rewrite E6 in H. apply Match_fmtFull in H.
    destruct H as (pre & tri & -> & Hok & Htri). rewrite forallb_app.
    apply triple_letters in Htri.
    rewrite (forallb_imp _ _ _ (one_of_grammar_byte "rwx-" eq_refl) Htri).
    rewrite andb_true_r. destruct Hok as [->|Hok]; [reflexivity|].
    apply (forallb_imp _ _ _ (one_of_grammar_byte "dalTLDpSugct?" eq_refl)),
      Hok.
Qed.

(** X3: a string with a byte that no pattern can read (anything but the
    octal digits, [o], the letters and signs of the symbolic form, white
    space and the mode letters) is rejected as unrecognized, and the
    receiver is left alone. *)
Theorem foreign_byte_rejected p b c :
  In c b -> grammar_byte c = false ->
  UnmarshalText p b = Returned p (Some (ErrUnrecognized b)).
Proof.
  intros Hin Hc. apply UnmarshalText_none. intros g.
  destruct (accepts g b) eqn:E; [|reflexivity].
  apply accepts_alphabet in E. rewrite forallb_forall in E.
  rewrite (E c Hin) in Hc. discriminate.
Qed.

Lemma foreign_byte_rejected_witness :
  In "W"%char (B "rWx") /\ grammar_byte "W" = false
  /\ UnmarshalText 420 (B "rWx")
     = Returned 420 (Some (ErrUnrecognized (B "rWx"))).
Proof.
  assert (H1 : In "W"%char (B "rWx")) by (simpl; tauto).
  assert (H2 : grammar_byte "W" = false) by reflexivity.
  split; [exact H1|]. split; [exact H2|].
  exact (foreign_byte_rejected 420 (B "rWx") "W"%char H1 H2).
Defined.

(** X4: a string shorter than three bytes, the empty string among them, is
    rejected as unrecognized. *)
Theorem short_text_rejected p b :
  (length b < 3)%nat ->
  UnmarshalText p b = Returned p (Some (ErrUnrecognized b)).
Proof.
  intros H. apply UnmarshalText_none. intros g.
  destruct (accepts g b) eqn:E; [|reflexivity].
  apply accepts_length in E. lia.
Qed.

Lemma short_text_rejected_witness :
  (length (B "77") < 3)%nat
  /\ UnmarshalText 420 (B "77")
     = Returned 420 (Some (ErrUnrecognized (B "77"))).
Proof.
  assert (H : (length (B "77") < 3)%nat) by (simpl; lia).
  split; [exact H|]. exact (short_text_rejected 420 (B "77") H).
Defined.

(** X5: the errors of [UnmarshalText] are of three kinds and no other: the
    string is unrecognized (no pattern accepts it), or it is an implicit, or
    an explicit, octal string whose number exceeds [2^32 - 1], reported with
    the range error of [ParseUint].  A syntax error of [ParseUint] never
    surfaces, and the error always carries the whole input. *)
Theorem errors_are_unrecognized_or_range p b r e :
  UnmarshalText p b = Returned r (Some e) ->
  (e = ErrUnrecognized b /\ forall g, accepts g b = false)
  \/ (e = ErrImplicitOctal b ErrRange /\ accepts ImplicitOctal b = true
      /\ maxUint32 < octal_value b)
  \/ (e = ErrExplicitOctal b ErrRange /\ accepts ExplicitOctal b = true
      /\ accepts ImplicitOctal b = false
      /\ maxUint32 < octal_value (explicit_digits b)).
Proof.
  destruct (accepts_eq b) as (E1 & E2 & E3 & E4 & E5 & E6).
  rewrite UnmarshalText_eq.
  destruct (is_implicit b) eqn:A1.
  { rewrite fromImplicit_spec by assumption.
    destruct (Z.leb_spec (octal_value b) maxUint32); [discriminate|].
    intros [= _ <-]. right. left. auto. }
  destruct (is_explicit b) eqn:A2.
  { rewrite fromExplicit_spec by assumption.
    destruct (Z.leb_spec (octal_value (explicit_digits b)) maxUint32);
      [discriminate|].
    intros [= _ <-]. right. right. auto. }
  destruct (is_single b) eqn:A3.
  { rewrite fromBasicSingle_spec by assumption. discriminate. }
  destruct (is_triple b) eqn:A4.
  { rewrite fromBasicTriple_spec by assumption. discriminate. }
  destruct (Match fmtSymbolicMatch b) eqn:A5.
  { destruct (fromSymbolic_total p b) as (r' & -> & _). discriminate. }
  destruct (Match fmtFull b) eqn:A6.
  { apply Match_fmtFull in A6. destruct A6 as (pre & tri & -> & Hok & Htri).
    rewrite fromFull_spec by assumption. discriminate. }
  intros [= _ <-]. left. split; [reflexivity|].
  intros g. destruct g; congruence.
Qed.

Lemma errors_are_unrecognized_or_range_witness :
  UnmarshalText 420 (B "0o47777777777")
  = Returned 420 (Some (ErrExplicitOctal (B "0o47777777777") ErrRange))
  /\ maxUint32 < octal_value (explicit_digits (B "0o47777777777")).
Proof.
  split; [reflexivity|].
  destruct (errors_are_unrecognized_or_range 420 (B "0o47777777777") 420
              (ErrExplicitOctal (B "0o47777777777") ErrRange) eq_refl)
    as [[H _]|[[H _]|(_ & _ & _ & H)]];
    [discriminate H|discriminate H|exact H].
Defined.

(** X6: [UnmarshalText] returns on every input, no index being out of
    range; and the symbolic decoder returns a value inside [0o777] and no
    error on every input whatever, also one its pattern does not accept. *)
Theorem never_panics p b :
  UnmarshalText p b <> Panicked
  /\ exists r, fromSymbolic p b = Returned r None /\ submask o777 r.
Proof.
  split; [|apply fromSymbolic_total].
  rewrite UnmarshalText_eq.
  destruct (is_implicit b) eqn:A1.
  { rewrite fromImplicit_spec by assumption. destruct (_ <=? _); discriminate. }
  destruct (is_explicit b) eqn:A2.
  { rewrite fromExplicit_spec by assumption. destruct (_ <=? _); discriminate. }
  destruct (is_single b) eqn:A3.
  { rewrite fromBasicSingle_spec by assumption. discriminate. }
  destruct (is_triple b) eqn:A4.
  { rewrite fromBasicTriple_spec by assumption. discriminate. }
  destruct (Match fmtSymbolicMatch b) eqn:A5.
  { destruct (fromSymbolic_total p b) as (r' & -> & _). discriminate. }
  destruct (Match fmtFull b) eqn:A6; [|discriminate].
  apply Match_fmtFull in A6. destruct A6 as (pre & tri & -> & Hok & Htri).
  rewrite fromFull_spec by assumption. discriminate.
Qed.

(** X7: the three decoders that index are safe only behind their pattern:
    [fromBasicSingle] panics exactly on fewer than three bytes,
    [fromBasicTriple] exactly on fewer than nine, and [fromFull] exactly on
    the strings the full pattern does not accept. *)
Theorem decoders_panic_unguarded p b :
  (fromBasicSingle p b = Panicked <-> (length b < 3)%nat)
  /\ (fromBasicTriple p b = Panicked <-> (length b < 9)%nat)
  /\ (fromFull p b = Panicked <-> Match fmtFull b = false).
Proof.
  split; [|split].
  - destruct b as [|c0 [|c1 [|c2 b]]]; cbn; split; intros H;
      try reflexivity; try discriminate; try lia.
  - destruct b as [|c0 [|c1 [|c2 [|c3 [|c4 [|c5 [|c6 [|c7 [|c8 b]]]]]]]]];
      cbn; split; intros H; try reflexivity; try discriminate; try lia.
  - split.
    + intros H. destruct (Match fmtFull b) eqn:E; [|reflexivity].
      apply Match_fmtFull in E. destruct E as (pre & tri & -> & Hok & Htri).
      rewrite fromFull_spec in H by assumption. discriminate.
    + unfold Match, fromFull, FindSubmatch.
      destruct (search fmtFull 0 b); [discriminate|reflexivity].
Qed.

End Rejection.

(* ================================================================= *)
(** ** Beyond the specification: the encoder *)

Module Encoder.

Import CanonicalRoundTrip.

Lemma mode_bits_high k : 19 <= k <= 31 -> Z.testbit mode_bits k = true.
Proof.
  intros H. change mode_bits with (Z.ones 13 * 2 ^ 19).
  rewrite Z.mul_pow2_bits by lia. apply Z.ones_spec_low. lia.
Qed.

Lemma perm_bits_low k : 0 <= k <= 8 -> Z.testbit o777 k = true.
Proof. intros H. change o777 with (Z.ones 9). apply Z.ones_spec_low. lia. Qed.

(** The mode bits of any value are one of 8192 patterns. *)
Lemma land_mode_bits p :
  exists k, 0 <= k < 8192 /\ Z.land p mode_bits = k * 2 ^ 19.
Proof.
  exists (Z.land (Z.shiftr p 19) (Z.ones 13)). split.
  - rewrite Z.land_ones by lia. apply Z.mod_pos_bound. lia.
  - apply Z.bits_inj'. intros j Hj. rewrite Z.land_spec.
    destruct (Z.lt_ge_cases j 19) as [Hlt|Hge].
    + rewrite mode_bits_low, Z.mul_pow2_bits_low by lia. apply andb_false_r.
    + change mode_bits with (Z.ones 13 * 2 ^ 19).
      rewrite !Z.mul_pow2_bits, Z.land_spec, Z.shiftr_spec by lia.
      now replace (j - 19 + 19) with j by lia.
Qed.

Lemma mode_chars_land p :
  mode_chars p 0 mode_letters
  = mode_chars (Z.land p mode_bits) 0 mode_letters.
Proof.
  apply mode_chars_ext; [|lia|simpl; lia].
  intros k Hk. now rewrite Z.land_spec, mode_bits_high, andb_true_r.
Qed.

Lemma rwx_chars_land p :
  rwx_chars p 0 rwx_letters = rwx_chars (Z.land p o777) 0 rwx_letters.
Proof.
  apply rwx_chars_ext; [|lia|simpl; lia].
  intros k Hk. now rewrite Z.land_spec, perm_bits_low, andb_true_r.
Qed.

(** The letters the first loop of [String] writes are in table order, and
    the switch of [fromFull] reads them back to the mode bits. *)
Lemma mode_chars_back p :
  let w := mode_chars p 0 mode_letters in
  is_subseq w mode_letters = true
  /\ fold_left attr_sym w 0 = Z.land p mode_bits
  /\ (length w <= 13)%nat.
Proof.
  cbv zeta. rewrite mode_chars_land.
  destruct (land_mode_bits p) as (k & Hk & ->).
  pose (f := fun k =>
               let w := mode_chars (k * 2 ^ 19) 0 mode_letters in
               is_subseq w mode_letters
               && (fold_left attr_sym w 0 =? k * 2 ^ 19)
               && Nat.leb (length w) 13).
  assert (A : f k = true).
  { apply (Octal.forall_range f 0 (64 * 128)); [vm_compute; reflexivity|lia]. }
  unfold f in A. cbv beta zeta in A.
  apply andb_true_iff in A. destruct A as [A A3].
  apply andb_true_iff in A. destruct A as [A1 A2].
  apply Z.eqb_eq in A2. apply Nat.leb_le in A3. auto.
Qed.

(** The nine columns the second loop writes read back to the permission
    bits. *)
Lemma rwx_chars_back p :
  let t := rwx_chars p 0 rwx_letters in
  is_triple t = true /\ cols_value 0 t = Z.land p o777.
Proof.
  cbv zeta. rewrite rwx_chars_land.
  assert (Hv : 0 <= Z.land p o777 < 512).
  { change o777 with (Z.ones 9). rewrite Z.land_ones by lia.
    apply Z.mod_pos_bound. lia. }
  pose (f := fun v =>
               let t := rwx_chars v 0 rwx_letters in
               is_triple t && (cols_value 0 t =? v)).
  assert (A : f (Z.land p o777) = true).
  { apply (Octal.forall_range f 0 512); [vm_compute; reflexivity|lia]. }
  unfold f in A. cbv beta zeta in A. apply andb_true_iff in A.
  destruct A as [A1 A2].
  apply Z.eqb_eq in A2. auto.
Qed.

(** What [String] writes, in two parts. *)
Lemma String_parts p :
  exists pre tri,
    String p = pre ++ tri
    /\ (pre = ["-"%char] \/ (pre <> [] /\ is_subseq pre mode_letters = true))
    /\ is_triple tri = true
    /\ fold_left attr_sym pre 0 = Z.land p mode_bits
    /\ cols_value 0 tri = Z.land p o777
    /\ (1 <= length pre <= 13)%nat.
Proof.
  destruct (mode_chars_back p) as (H1 & H2 & H3).
  destruct (rwx_chars_back p) as (H4 & H5).
  unfold String, FileMode_String. cbv zeta.
  destruct (mode_chars p 0 mode_letters) as [|c w] eqn:E.
  - exists ["-"%char], (rwx_chars p 0 rwx_letters).
    repeat split; auto. simpl. lia.
  - exists (c :: w), (rwx_chars p 0 rwx_letters).
    repeat split; auto.
    + right. split; [discriminate|assumption].
    + simpl. lia.
Qed.

(** Parsing a canonical full string. *)
Lemma canonical_parse p pre tri :
  pre = ["-"%char] \/ (pre <> [] /\ is_subseq pre mode_letters = true) ->
  is_triple tri = true ->
  UnmarshalText p (pre ++ tri)
  = Returned (cols_value (fold_left attr_sym pre 0) tri) None.
Proof.
  intros Hpre Htri. destruct pre as [|c pre].
  { destruct Hpre as [Hpre|[Hpre _]]; congruence. }
  apply UnmarshalText_full; [| |assumption].
  - destruct Hpre as [[= -> ->]|[_ Hsub]]; [reflexivity|].
    apply mode_letters_round_trip in Hsub. destruct Hsub as [_ Hl].
    cbn [forallb] in Hl. apply andb_true_iff in Hl. destruct Hl as [Hl _].
    apply one_of_cases in Hl. simpl in Hl.
    repeat (destruct Hl as [<-|Hl]; [reflexivity|]). destruct Hl.
  - destruct Hpre as [Hpre|[_ Hsub]]; [now left|right].
    now apply mode_letters_round_trip.
Qed.

Lemma parse_of_String p q :
  UnmarshalText q (String p) = Returned (Z.land p defined_bits) None.
Proof.
  destruct (String_parts p) as (pre & tri & -> & Hpre & Htri & Hm & Hc & _).
  rewrite canonical_parse, cols_value_lor, Hm, Hc by assumption.
  rewrite <- Z.land_lor_distr_r. reflexivity.
Qed.

Lemma within_defined p :
  is_uint32 p -> within defined_bits p -> Z.land p defined_bits = p.
Proof.
  unfold within. intros Hu Hw. apply uint32_submask in Hu.
  unfold submask in Hu. rewrite <- Hu at 2.
  change (Z.ones 32) with (Z.lor defined_bits (not32 defined_bits)).
  now rewrite Z.land_lor_distr_r, Hw, Z.lor_0_r.
Qed.

(** X8: a file mode turned into a [Perm], written by [MarshalText] and read
    back by [UnmarshalText] is the mode cut down to the permission bits and
    the thirteen mode bits, with no error: exactly the mode when it has no
    other bit, and without its bits 9 to 18 otherwise. *)
Theorem marshal_then_unmarshal m q :
  is_uint32 m ->
  exists r,
    UnmarshalText q (fst (MarshalText (fst (FromFileMode m)))) = Returned r None
    /\ snd (MarshalText (fst (FromFileMode m))) = None
    /\ FileMode r = Z.land m defined_bits
    /\ (within defined_bits m -> FileMode r = m).
Proof.
  intros Hu. exists (Z.land m defined_bits).
  unfold MarshalText, FromFileMode, FileMode. cbn [fst snd].
  split; [apply parse_of_String|]. split; [reflexivity|].
  split; [reflexivity|]. now apply within_defined.
Qed.

Lemma marshal_then_unmarshal_witness :
  is_uint32 4095
  /\ exists r,
       UnmarshalText 0 (fst (MarshalText (fst (FromFileMode 4095))))
       = Returned r None
       /\ snd (MarshalText (fst (FromFileMode 4095))) = None
       /\ FileMode r = Z.land 4095 defined_bits
       /\ (within defined_bits 4095 -> FileMode r = 4095).
Proof.
  assert (H : is_uint32 4095) by (unfold is_uint32; lia).
  split; [exact H|]. exact (marshal_then_unmarshal 4095 0 H).
Defined.

Lemma String_land p : String p = String (Z.land p defined_bits).
Proof.
  unfold String, FileMode_String. cbv zeta.
  rewrite (mode_chars_land p), (mode_chars_land (Z.land p defined_bits)),
    (rwx_chars_land p), (rwx_chars_land (Z.land p defined_bits)).
  rewrite <- !Z.land_assoc.
  change (Z.land defined_bits mode_bits) with mode_bits.
  change (Z.land defined_bits o777) with o777.
  reflexivity.
Qed.

(** X9: whatever the value, [String] writes a string in canonical full
    form, of 10 to 22 bytes; it reads the permission bits and the mode bits
    only, and two values are written alike exactly when they agree on those
    bits. *)
Theorem String_is_canonical p p' :
  canonical_full (String p)
  /\ (10 <= length (String p) <= 22)%nat
  /\ (String p = String p'
      <-> Z.land p defined_bits = Z.land p' defined_bits).
Proof.
  destruct (String_parts p) as (pre & tri & E & Hpre & Htri & _ & _ & Hlen).
  split; [|split].
  - exists pre, tri. auto.
  - rewrite E, length_app, (is_triple_length _ Htri). lia.
  - split; intros H.
    + pose proof (parse_of_String p 0) as H1. rewrite H in H1.
      rewrite parse_of_String in H1. now injection H1.
    + now rewrite (String_land p), (String_land p'), H.
Qed.

(** X10: after a successful parse, [MarshalText] gives back the string
    that was parsed exactly when that string is in canonical full form: a
    lone dash or mode letters in table order without repetition, then the
    nine columns.  Octal, symbolic and basic strings never come back. *)
Theorem fixed_points_are_canonical p b r :
  UnmarshalText p b = Returned r None ->
  (fst (MarshalText r) = b <-> canonical_full b).
Proof.
  intros H. unfold MarshalText. cbn [fst]. split.
  - intros <-. apply (String_is_canonical r r).
  - intros (pre & tri & -> & Hpre & Htri).
    rewrite canonical_parse in H by assumption. injection H as <-.
    now apply String_full.
Qed.

Lemma fixed_points_are_canonical_witness :
  UnmarshalText 0 (B "644") = Returned 420 None
  /\ (fst (MarshalText 420) = B "644" <-> canonical_full (B "644")).
Proof.
  split; [reflexivity|].
  exact (fixed_points_are_canonical 0 (B "644") 420 eq_refl).
Defined.

End Encoder.

(* ================================================================= *)
(** ** Beyond the specification: how the letter grammars relate *)

Module Letters.

Import Classification CanonicalRoundTrip Overlap.

Lemma UnmarshalText_triple p t :
  is_triple t = true -> UnmarshalText p t = Returned (cols_value 0 t) None.
Proof.
  intros H. rewrite (accepting_decoder p t BasicTriple).
  - now apply fromBasicTriple_spec.
  - now rewrite (proj1 (proj2 (proj2 (proj2 (accepts_eq t))))).
Qed.

(** X11: the basic single form is the basic triple with the same three
    columns for owner, group and other: a three-column string parses to
    what the string written three times over parses to. *)
Theorem single_is_triple_thrice p b :
  is_single b = true ->
  UnmarshalText p b = UnmarshalText p (b ++ b ++ b)
  /\ exists r, UnmarshalText p b = Returned r None.
Proof.
  intros H. rewrite (accepting_decoder p b BasicSingle)
    by now rewrite (proj1 (proj2 (proj2 (accepts_eq b)))).
  cbn [decoder]. rewrite fromBasicSingle_spec by assumption.
  split; [|eauto].
  destruct b as [|c0 [|c1 [|c2 [|c3 b]]]]; try discriminate.
  cbn [is_single] in H.
  apply andb_true_iff in H. destruct H as [H H2].
  apply andb_true_iff in H. destruct H as [H0 H1].
  assert (T : is_triple ([c0; c1; c2] ++ [c0; c1; c2] ++ [c0; c1; c2]) = true)
    by (cbn [app is_triple]; now rewrite H0, H1, H2).
  rewrite UnmarshalText_triple by assumption. f_equal.
  apply is_col_cases in H0, H1, H2.
  destruct H0 as [->| ->], H1 as [->| ->], H2 as [->| ->]; reflexivity.
Qed.

Lemma single_is_triple_thrice_witness :
  is_single (B "r-x") = true
  /\ UnmarshalText 0 (B "r-x") = UnmarshalText 0 (B "r-xr-xr-x")
  /\ exists r, UnmarshalText 0 (B "r-x") = Returned r None.
Proof.
  split; [reflexivity|].
  exact (single_is_triple_thrice 0 (B "r-x") eq_refl).
Defined.

Lemma submask_disjoint m m' x :
  submask m x -> Z.land m m' = 0 -> Z.land x m' = 0.
Proof.
  unfold submask. intros H H0.
  now rewrite <- H, <- Z.land_assoc, H0, Z.land_0_r.
Qed.

(** X12: a full string is its leading group and a basic triple: the value
    is the mode bits of the letters ORed with the value of the nine columns
    parsed on their own.  The two parts do not mix, and a lone dash in
    front changes nothing. *)
Theorem full_is_modes_or_triple p c pre tri :
  c :: pre = ["-"%char] \/ forallb (one_of "dalTLDpSugct?") (c :: pre) = true ->
  is_triple tri = true ->
  exists rt r,
    UnmarshalText p tri = Returned rt None
    /\ UnmarshalText p ((c :: pre) ++ tri) = Returned r None
    /\ r = Z.lor (fold_left attr_sym (c :: pre) 0) rt
    /\ Z.land r o777 = rt
    /\ Z.land r mode_bits = fold_left attr_sym (c :: pre) 0
    /\ (c :: pre = ["-"%char] -> r = rt).
Proof.
  intros Hok Htri.
  exists (cols_value 0 tri),
         (cols_value (fold_left attr_sym (c :: pre) 0) tri).
  assert (Hc : one_of "-dalTLDpSugct?" c = true).
  { destruct Hok as [[= -> _]|Hok]; [reflexivity|].
    cbn [forallb] in Hok. apply andb_true_iff in Hok. destruct Hok as [Hc _].
    apply one_of_cases in Hc. simpl in Hc.
    repeat (destruct Hc as [<-|Hc]; [reflexivity|]). destruct Hc. }
  assert (Hhi : submask mode_bits (fold_left attr_sym (c :: pre) 0))
    by apply attrs_submask, submask_0.
  assert (Hlo : submask o777 (cols_value 0 tri))
    by (apply cols_value_submask; [apply submask_0|apply submask_refl]).
  split; [now apply UnmarshalText_triple|].
  split; [now apply UnmarshalText_full|].
  rewrite cols_value_lor. split; [reflexivity|]. split; [|split].
  - rewrite Z.land_lor_distr_l, Hlo.
    rewrite (submask_disjoint mode_bits o777 _ Hhi) by reflexivity.
    apply Z.lor_0_l.
  - rewrite Z.land_lor_distr_l, Hhi.
    rewrite (submask_disjoint o777 mode_bits _ Hlo) by reflexivity.
    apply Z.lor_0_r.
  - intros [= -> ->]. reflexivity.
Qed.

Lemma full_is_modes_or_triple_witness :
  (B "ug" = ["-"%char] \/ forallb (one_of "dalTLDpSugct?") (B "ug") = true)
  /\ is_triple (B "rwxr-xr-x") = true
  /\ exists rt r,
       UnmarshalText 0 (B "rwxr-xr-x") = Returned rt None
       /\ UnmarshalText 0 (B "ugrwxr-xr-x") = Returned r None
       /\ r = Z.lor (fold_left attr_sym (B "ug") 0) rt
       /\ Z.land r o777 = rt
       /\ Z.land r mode_bits = fold_left attr_sym (B "ug") 0
       /\ (B "ug" = ["-"%char] -> r = rt).
Proof.
  assert (H1 : B "ug" = ["-"%char]
               \/ forallb (one_of "dalTLDpSugct?") (B "ug") = true)
    by (right; reflexivity).
  split; [exact H1|]. split; [reflexivity|].
  exact (full_is_modes_or_triple 0 "u"%char (B "g") (B "rwxr-xr-x") H1 eq_refl).
Defined.

(** *** Letters as sets *)

Lemma fold_lor_bits (f : ascii -> Z) w : forall acc k,
  Z.testbit (fold_left (fun m c => Z.lor m (f c)) w acc) k
  = Z.testbit acc k || existsb (fun c => Z.testbit (f c) k) w.
Proof.
  induction w as [|c w IH]; intros acc k; cbn [fold_left existsb].
  - now rewrite orb_false_r.
  - now rewrite IH, Z.lor_spec, orb_assoc.
Qed.

Lemma existsb_same (f : ascii -> bool) w w' :
  same_letters w w' -> existsb f w = existsb f w'.
Proof.
  intros H. apply eq_iff_eq_true. rewrite !existsb_exists.
  split; intros (x & Hx & Hf); exists x; split; auto; now apply H.
Qed.

Lemma fold_lor_same (f : ascii -> Z) w w' :
  same_letters w w' ->
  fold_left (fun m c => Z.lor m (f c)) w 0
  = fold_left (fun m c => Z.lor m (f c)) w' 0.
Proof.
  intros H. apply Z.bits_inj. intros k.
  now rewrite !fold_lor_bits, (existsb_same _ w w' H).
Qed.

Lemma attr_sym_lor perm c : attr_sym perm c = Z.lor perm (attr_sym 0 c).
Proof.
  unfold attr_sym.
  repeat match goal with
         | |- context [if ?b then _ else _] => destruct b; [reflexivity|]
         end.
  now rewrite Z.lor_0_r.
Qed.

Lemma attrs_same pre pre' :
  same_letters pre pre' ->
  fold_left attr_sym pre 0 = fold_left attr_sym pre' 0.
Proof.
  intros H.
  rewrite (fold_left_same _ _ attr_sym
             (fun m c => Z.lor m (attr_sym 0 c)) pre attr_sym_lor),
    (fold_left_same _ _ attr_sym
             (fun m c => Z.lor m (attr_sym 0 c)) pre' attr_sym_lor).
  now apply fold_lor_same.
Qed.

(** X13: in the leading group of a full string the mode letters count as a
    set: two groups with the same letters, in any order and any number of
    times, before the same nine columns parse to the same value. *)
Theorem mode_letters_as_a_set p c pre c' pre' tri :
  forallb (one_of "dalTLDpSugct?") (c :: pre) = true ->
  forallb (one_of "dalTLDpSugct?") (c' :: pre') = true ->
  same_letters (c :: pre) (c' :: pre') ->
  is_triple tri = true ->
  UnmarshalText p ((c :: pre) ++ tri) = UnmarshalText p ((c' :: pre') ++ tri)
  /\ exists r, UnmarshalText p ((c :: pre) ++ tri) = Returned r None.
Proof.
  intros H H' Hs Htri.
  assert (Hc : forall x w,
             forallb (one_of "dalTLDpSugct?") (x :: w) = true ->
             one_of "-dalTLDpSugct?" x = true).
  { intros x w Hx. cbn [forallb] in Hx. apply andb_true_iff in Hx.
    destruct Hx as [Hx _]. apply one_of_cases in Hx. simpl in Hx.
    repeat (destruct Hx as [<-|Hx]; [reflexivity|]). destruct Hx. }
  rewrite !UnmarshalText_full by eauto.
  rewrite (attrs_same _ _ Hs). eauto.
Qed.

Lemma mode_letters_as_a_set_witness :
  forallb (one_of "dalTLDpSugct?") (B "ug") = true
  /\ forallb (one_of "dalTLDpSugct?") (B "gug") = true
  /\ same_letters (B "ug") (B "gug")
  /\ is_triple (B "rwxr-xr-x") = true
  /\ UnmarshalText 0 (B "ugrwxr-xr-x") = UnmarshalText 0 (B "gugrwxr-xr-x")
  /\ exists r, UnmarshalText 0 (B "ugrwxr-xr-x") = Returned r None.
Proof.
  assert (Hs : same_letters (B "ug") (B "gug"))
    by (intros x; simpl; tauto).
  split; [reflexivity|]. split; [reflexivity|]. split; [exact Hs|].
  split; [reflexivity|].
  exact (mode_letters_as_a_set 0 "u"%char (B "g") "g"%char (B "ug")
           (B "rwxr-xr-x") eq_refl eq_refl Hs eq_refl).
Defined.

End Letters.

(* ================================================================= *)
(** ** Beyond the specification: clauses of the symbolic form *)

Module Clauses.

Import Letters.

Lemma fold_left_same_in (A E : Type) (f g : A -> E -> A) (l : list E) :
  (forall x, In x l -> forall a, f a x = g a x) ->
  forall a, fold_left f l a = fold_left g l a.
Proof.
  induction l as [|x l IH]; intros H a; [reflexivity|].
  cbn [fold_left]. rewrite (H x) by now left.
  apply IH. intros y Hy. apply H. now right.
Qed.

(** The actor mask of a clause is the OR of the nibbles of its actors. *)
Lemma actor_mask_letters w :
  is_actor w = true ->
  actor_mask w
  = fold_left (fun m c => Z.lor m (if c == "u" then o700
                                   else if c == "g" then o070
                                   else if c == "o" then o007 else 0))
              (actor_letters w) 0.
Proof.
  intros Ha. unfold actor_letters.
  destruct (existsb (Ascii.eqb "a") w) eqn:E.
  - apply existsb_exists in E. destruct E as (x & Hx & Ex).
    apply Ascii.eqb_eq in Ex. subst x.
    unfold is_actor in Ha. apply orb_true_iff in Ha. destruct Ha as [Ha|Ha].
    + destruct w as [|c [|d w]]; try discriminate.
      apply Ascii.eqb_eq in Ha. subst c. reflexivity.
    + apply andb_true_iff in Ha. destruct Ha as [_ Ha].
      rewrite forallb_forall in Ha. specialize (Ha _ Hx). discriminate Ha.
  - unfold actor_mask. apply fold_left_same_in. intros x Hx m.
    destruct (x == "a") eqn:Ex; [|reflexivity].
    apply Ascii.eqb_eq in Ex. subst x.
    assert (existsb (Ascii.eqb "a") w = true)
      by (apply existsb_exists; exists "a"%char; auto).
    congruence.
Qed.

Lemma clause_same_apply c c' :
  wf_clause c = true -> wf_clause c' = true -> clause_same c c' ->
  forall acc, spec_apply acc c = spec_apply acc c'.
Proof.
  intros Hc Hc' (Hop & Ha & Hp) acc.
  destruct (wf_clause_parts c Hc) as (A & _).
  destruct (wf_clause_parts c' Hc') as (A' & _).
  unfold spec_apply. cbv zeta.
  rewrite Hop, (actor_mask_letters _ A), (actor_mask_letters _ A').
  rewrite (fold_lor_same _ _ _ Ha).
  unfold perm_mask. rewrite (fold_lor_same _ _ _ Hp). reflexivity.
Qed.

Lemma clauses_same_fold cs cs' :
  Forall2 clause_same cs cs' ->
  forallb wf_clause cs = true -> forallb wf_clause cs' = true ->
  forall acc, fold_left spec_apply cs acc = fold_left spec_apply cs' acc.
Proof.
  induction 1 as [|c c' cs cs' Hc Hcs IH]; intros W W' acc; [reflexivity|].
  cbn [forallb fold_left] in *.
  apply andb_true_iff in W, W'. destruct W as [W1 W2], W' as [W1' W2'].
  rewrite (clause_same_apply c c' W1 W1' Hc). now apply IH.
Qed.

(** X14: in a symbolic string the letters of a clause count as sets, [a]
    stands for [u], [g] and [o], and white space between clauses, or after
    the last one, is ignored: two sequences of well-formed clauses that
    agree, clause by clause, on the operator, the actors and the
    permissions parse to the same value. *)
Theorem symbolic_letters_as_sets p cs cs' :
  cs <> [] ->
  forallb wf_clause cs = true -> forallb wf_clause cs' = true ->
  Forall2 clause_same cs cs' ->
  UnmarshalText p (render_clauses cs) = UnmarshalText p (render_clauses cs')
  /\ exists r, UnmarshalText p (render_clauses cs) = Returned r None.
Proof.
  intros Hne W W' H.
  assert (Hne' : cs' <> []) by (destruct H; [congruence|discriminate]).
  rewrite !UnmarshalText_render by assumption.
  rewrite (clauses_same_fold cs cs' H W W'). eauto.
Qed.

Lemma symbolic_letters_as_sets_witness :
  [Clause (B "ug") "=" (B "rx") (B " "); Clause (B "u") "+" (B "w") []] <> []
  /\ UnmarshalText 0 (B "ug=rx u+w")
     = UnmarshalText 0 (render_clauses
                          [Clause (B "gu") "=" (B "xrx") [];
                           Clause (B "uu") "+" (B "w") [ascii_of_nat 10]])
  /\ exists r, UnmarshalText 0 (B "ug=rx u+w") = Returned r None.
Proof.
  assert (Hne : [Clause (B "ug") "=" (B "rx") (B " ");
                 Clause (B "u") "+" (B "w") []] <> []) by discriminate.
  split; [exact Hne|].
  apply (symbolic_letters_as_sets 0
           [Clause (B "ug") "=" (B "rx") (B " ");
            Clause (B "u") "+" (B "w") []]
           [Clause (B "gu") "=" (B "xrx") [];
            Clause (B "uu") "+" (B "w") [ascii_of_nat 10]]
           Hne eq_refl eq_refl).
  constructor; [|constructor; [|constructor]];
    (split; [reflexivity|split; intros x; simpl; tauto]).
Defined.

Lemma perm_fold_submask w : forall m,
  submask o777 m ->
  submask o777
    (fold_left (fun m c => Z.lor m (if c == "r" then o444
                                    else if c == "w" then o222
                                    else if c == "x" then o111 else 0)) w m).
Proof.
  induction w as [|c w IH]; intros m Hm; [exact Hm|].
  cbn [fold_left]. apply IH. apply submask_lor; [exact Hm|].
  destruct (c == "r"); [reflexivity|]. destruct (c == "w"); [reflexivity|].
  destruct (c == "x"); reflexivity.
Qed.

Lemma perm_mask_submask w : submask o777 (perm_mask w).
Proof. apply perm_fold_submask, submask_0. Qed.

Lemma spec_fold_submask cs :
  forallb wf_clause cs = true -> submask o777 (fold_left spec_apply cs 0).
Proof.
  intros W.
  apply (symbolic_loop_submask (map clause_match cs) 0);
    [apply submask_0|].
  apply symbolic_loop_clauses; [assumption|apply submask_0].
Qed.

(** An [=] for all three actors does not look at the accumulator. *)
Lemma assign_all acc c :
  wf_clause c = true -> cl_op c = "="%char ->
  same_letters (actor_letters (cl_actor c)) (B "ugo") ->
  submask o777 acc ->
  spec_apply acc c = perm_mask (cl_perm c).
Proof.
  intros W Hop Ha Hacc. destruct (wf_clause_parts c W) as (A & _).
  unfold spec_apply. cbv zeta. rewrite Hop. cbn [Ascii.eqb].
  rewrite (actor_mask_letters _ A), (fold_lor_same _ _ _ Ha).
  change (fold_left _ (B "ugo") 0) with o777.
  change (("=" == "+")%char) with false. change (("=" == "-")%char) with false.
  cbv iota.
  rewrite (submask_disjoint o777 (Z.lnot o777) acc Hacc) by reflexivity.
  rewrite Z.lor_0_l, Z.land_comm. apply perm_mask_submask.
Qed.

(** X15: a clause that assigns to all three actors ([a=...] or [ugo=...])
    makes every clause before it irrelevant: the string parses as if it
    began at that clause, and when the clause is the last one the value is
    its permission mask. *)
Theorem assign_all_forgets_the_past p cs c cs2 :
  forallb wf_clause (cs ++ c :: cs2) = true ->
  cl_op c = "="%char ->
  same_letters (actor_letters (cl_actor c)) (B "ugo") ->
  UnmarshalText p (render_clauses (cs ++ c :: cs2))
  = UnmarshalText p (render_clauses (c :: cs2))
  /\ (cs2 = [] ->
      UnmarshalText p (render_clauses (cs ++ [c]))
      = Returned (perm_mask (cl_perm c)) None).
Proof.
  intros W Hop Ha. pose proof W as W0.
  rewrite forallb_app in W. apply andb_true_iff in W. destruct W as [W1 W2].
  pose proof W2 as W2'. cbn [forallb] in W2'.
  apply andb_true_iff in W2'. destruct W2' as [Wc _].
  assert (E : fold_left spec_apply (cs ++ c :: cs2) 0
              = fold_left spec_apply (c :: cs2) 0).
  { rewrite fold_left_app. cbn [fold_left].
    rewrite !(assign_all _ c Wc Hop Ha);
      auto using submask_0, spec_fold_submask. }
  split.
  - rewrite !UnmarshalText_render; try assumption; try discriminate.
    + now rewrite E.
    + destruct cs; discriminate.
  - intros ->. rewrite UnmarshalText_render; try assumption.
    + rewrite E. cbn [fold_left].
      now rewrite (assign_all 0 c Wc Hop Ha (submask_0 _)).
    + destruct cs; discriminate.
Qed.

Lemma assign_all_forgets_the_past_witness :
  forallb wf_clause
    ([Clause (B "u") "+" (B "wx") (B " ")]
     ++ Clause (B "a") "=" (B "r") [] :: []) = true
  /\ cl_op (Clause (B "a") "=" (B "r") []) = "="%char
  /\ same_letters (actor_letters (B "a")) (B "ugo")
  /\ UnmarshalText 0 (B "u+wx a=r") = UnmarshalText 0 (B "a=r")
  /\ UnmarshalText 0 (B "u+wx a=r") = Returned o444 None.
Proof.
  assert (H3 : same_letters (actor_letters (B "a")) (B "ugo"))
    by (intros x; simpl; tauto).
  split; [reflexivity|]. split; [reflexivity|]. split; [exact H3|].
  destruct (assign_all_forgets_the_past 0
              [Clause (B "u") "+" (B "wx") (B " ")]
              (Clause (B "a") "=" (B "r") []) [] eq_refl eq_refl H3)
    as [E1 E2].
  split; [exact E1|exact (E2 eq_refl)].
Defined.

End Clauses.

(* ================================================================= *)
(** ** Beyond the specification: octal text over the whole 32-bit range *)

Module OctalText.

Lemma octal_digits_intro n ds :
  (n <= length ds)%nat -> forallb is_octal_digit ds = true ->
  is_octal_digits n ds = true.
Proof.
  intros Hn Hd. unfold is_octal_digits. rewrite Hd, andb_true_r.
  now apply Nat.leb_le.
Qed.

Lemma octal_digits_parts n ds :
  is_octal_digits n ds = true ->
  (n <= length ds)%nat /\ forallb is_octal_digit ds = true.
Proof.
  unfold is_octal_digits. intros H. apply andb_true_iff in H.
  destruct H as [Hn Hd]. apply Nat.leb_le in Hn. auto.
Qed.

Lemma explicit_not_implicit b : is_explicit b = true -> is_implicit b = false.
Proof.
  destruct b as [|c0 b]; [reflexivity|]. cbn [is_explicit]. intros He.
  apply andb_true_iff in He. destruct He as [H0 _].
  apply Ascii.eqb_eq in H0. subst c0. reflexivity.
Qed.

Lemma explicit_value p b :
  is_explicit b = true -> octal_value (explicit_digits b) <= maxUint32 ->
  UnmarshalText p b = Returned (octal_value (explicit_digits b)) None.
Proof.
  intros He Hv. rewrite UnmarshalText_eq.
  rewrite (explicit_not_implicit b He), He, fromExplicit_spec by assumption.
  destruct (Z.leb_spec (octal_value (explicit_digits b)) maxUint32);
    [reflexivity|lia].
Qed.

Lemma implicit_value p b :
  is_implicit b = true -> octal_value b <= maxUint32 ->
  UnmarshalText p b = Returned (octal_value b) None.
Proof.
  intros Hi Hv. rewrite UnmarshalText_eq, Hi, fromImplicit_spec by assumption.
  destruct (Z.leb_spec (octal_value b) maxUint32); [reflexivity|lia].
Qed.

(** The three spellings of a number that fits. *)
Lemma octal_text p ds :
  is_octal_digits 3 ds = true -> octal_value ds <= maxUint32 ->
  UnmarshalText p ("0"%char :: ds) = Returned (octal_value ds) None
  /\ UnmarshalText p ("0"%char :: "o"%char :: ds)
     = Returned (octal_value ds) None
  /\ (forall d ds', ds = d :: ds' -> range "1" "7" d = true ->
      UnmarshalText p ds = Returned (octal_value ds) None).
Proof.
  intros H3 Hv. destruct (octal_digits_parts _ _ H3) as [Hlen Hd].
  destruct ds as [|d0 ds0]; [simpl in Hlen; lia|].
  pose proof Hd as Hd'. cbn [forallb] in Hd'.
  apply andb_true_iff in Hd'. destruct Hd' as [Hd0 Hds0].
  split; [|split].
  - assert (He : is_explicit ("0"%char :: d0 :: ds0) = true)
      by (cbn [is_explicit]; rewrite H3, orb_true_r; reflexivity).
    rewrite (explicit_value p _ He); cbn [explicit_digits];
      rewrite (Octal.octal_digit_not_o d0 Hd0); [reflexivity|assumption].
  - assert (He : is_explicit ("0"%char :: "o"%char :: d0 :: ds0) = true)
      by (cbn [is_explicit]; rewrite H3; reflexivity).
    now rewrite (explicit_value p _ He).
  - intros d ds' E Hr. injection E as <- <-.
    apply implicit_value; [|assumption].
    cbn [is_implicit]. rewrite Hr. cbn [andb].
    apply octal_digits_intro; [cbn [length] in Hlen; lia|assumption].
Qed.

(** X16: a string of at least three octal digits whose base-8 value fits
    32 bits parses to that value after the prefix [0], after the prefix
    [0o], and bare when its first digit is not [0]; leading zeros after
    the prefix do not change the value. *)
Theorem octal_text_value p ds :
  is_octal_digits 3 ds = true -> octal_value ds <= maxUint32 ->
  UnmarshalText p ("0"%char :: ds) = Returned (octal_value ds) None
  /\ UnmarshalText p ("0"%char :: "o"%char :: ds)
     = Returned (octal_value ds) None
  /\ UnmarshalText p ("0"%char :: "0"%char :: ds)
     = Returned (octal_value ds) None
  /\ (forall d ds', ds = d :: ds' -> range "1" "7" d = true ->
      UnmarshalText p ds = Returned (octal_value ds) None).
Proof.
  intros H3 Hv. destruct (octal_text p ds H3 Hv) as (H1 & H2 & H4).
  split; [exact H1|]. split; [exact H2|]. split; [|exact H4].
  destruct (octal_digits_parts _ _ H3) as [Hlen Hd].
  assert (H3' : is_octal_digits 3 ("0"%char :: ds) = true)
    by (apply octal_digits_intro; [cbn [length]; lia|];
        cbn [forallb]; rewrite Hd; reflexivity).
  destruct (octal_text p ("0"%char :: ds) H3') as (H & _).
  - now rewrite octal_value_0.
  - now rewrite H, octal_value_0.
Qed.

Lemma octal_text_value_witness :
  is_octal_digits 3 (B "644") = true
  /\ octal_value (B "644") <= maxUint32
  /\ UnmarshalText 7 (B "0644") = Returned 420 None
  /\ UnmarshalText 7 (B "0o644") = Returned 420 None
  /\ UnmarshalText 7 (B "00644") = Returned 420 None
  /\ UnmarshalText 7 (B "644") = Returned 420 None.
Proof.
  assert (H1 : is_octal_digits 3 (B "644") = true) by reflexivity.
  assert (H2 : octal_value (B "644") <= maxUint32)
    by (vm_compute; discriminate).
  split; [exact H1|]. split; [exact H2|].
  destruct (octal_text_value 7 (B "644") H1 H2) as (A & A' & A'' & A3).
  split; [exact A|]. split; [exact A'|]. split; [exact A''|].
  exact (A3 "6"%char (B "44") eq_refl eq_refl).
Defined.

Lemma octal_digit_ok d :
  0 <= d <= 7 ->
  is_octal_digit (octal_digit d) = true
  /\ byte_val (octal_digit d) = 48 + d
  /\ (1 <= d -> range "1" "7" (octal_digit d) = true)
  /\ (d = 0 -> octal_digit d = "0"%char).
Proof.
  intros H.
  assert (E : d = 0 \/ d = 1 \/ d = 2 \/ d = 3 \/ d = 4 \/ d = 5 \/ d = 6
              \/ d = 7) by lia.
  repeat (destruct E as [->|E]); try subst d;
    (split; [reflexivity|split; [reflexivity|split]]);
    intros; reflexivity || lia.
Qed.

(** The digits [%o] writes: octal digits, most significant first, of value
    [v], with no leading zero unless [v] is zero. *)
Lemma fmt_octal_aux_spec fuel : forall v acc,
  (0 < fuel)%nat -> 0 <= v < 8 ^ Z.of_nat fuel ->
  exists d ds,
    fmt_octal_aux fuel v acc = (d :: ds) ++ acc
    /\ forallb is_octal_digit (d :: ds) = true
    /\ (forall n, fold_left octal_step (d :: ds) n
                  = n * 8 ^ Z.of_nat (length (d :: ds)) + v)
    /\ (0 < v -> range "1" "7" d = true).
Proof.
  induction fuel as [|fuel IH]; intros v acc Hf Hv; [lia|].
  cbn [fmt_octal_aux]. cbv zeta.
  destruct (Z.eqb_spec (v / 8) 0) as [E|E].
  - assert (Hs : 0 <= v <= 7).
    { pose proof (Z.div_mod v 8). pose proof (Z.mod_pos_bound v 8). lia. }
    rewrite Z.mod_small by lia.
    destruct (octal_digit_ok v Hs) as (D1 & D2 & D3 & _).
    exists (octal_digit v), []. split; [reflexivity|].
    split; [cbn [forallb]; now rewrite D1|].
    split; [|intros; apply D3; lia].
    intros n. cbn [fold_left length]. unfold octal_step. rewrite D2.
    change (8 ^ Z.of_nat 1) with 8. lia.
  - assert (Hq : 0 < v / 8).
    { pose proof (Z.div_pos v 8). lia. }
    assert (Hf' : (0 < fuel)%nat).
    { destruct fuel; [|lia]. exfalso. apply E.
      change (8 ^ Z.of_nat 1) with 8 in Hv. apply Z.div_small. lia. }
    assert (Hv' : 0 <= v / 8 < 8 ^ Z.of_nat fuel).
    { split; [lia|]. apply Z.div_lt_upper_bound; [lia|].
      rewrite Nat2Z.inj_succ, Z.pow_succ_r in Hv by lia. lia. }
    destruct (IH (v / 8) (octal_digit (v mod 8) :: acc) Hf' Hv')
      as (d & ds & E1 & E2 & E3 & E4).
    pose proof (Z.mod_pos_bound v 8 ltac:(lia)) as Hm.
    destruct (octal_digit_ok (v mod 8) ltac:(lia)) as (D1 & D2 & _).
    exists d, (ds ++ [octal_digit (v mod 8)]).
    split; [rewrite E1; cbn [app]; now rewrite <- app_assoc|].
    split.
    { change (d :: ds ++ [octal_digit (v mod 8)])
        with ((d :: ds) ++ [octal_digit (v mod 8)]).
      rewrite forallb_app, E2. cbn [forallb]. now rewrite D1. }
    split; [|intros _; now apply E4].
    intros n.
    change (d :: ds ++ [octal_digit (v mod 8)])
      with ((d :: ds) ++ [octal_digit (v mod 8)]).
    rewrite fold_left_app, E3, length_app. cbn [fold_left]. unfold octal_step.
    rewrite D2. cbn [length]. rewrite Nat.add_1_r.
    rewrite (Nat2Z.inj_succ (S (length ds))), Z.pow_succ_r by lia.
    pose proof (Z.div_mod v 8 ltac:(lia)). nia.
Qed.

Lemma fmt_octal_spec v :
  0 <= v <= maxUint32 ->
  exists d ds,
    fmt_octal v = d :: ds
    /\ forallb is_octal_digit (d :: ds) = true
    /\ octal_value (d :: ds) = v
    /\ (0 < v -> range "1" "7" d = true).
Proof.
  intros Hv. unfold fmt_octal.
  destruct (fmt_octal_aux_spec 22 v [] ltac:(lia))
    as (d & ds & E1 & E2 & E3 & E4).
  { unfold maxUint32 in Hv. change (8 ^ Z.of_nat 22) with (2 ^ 66).
    assert (2 ^ 32 < 2 ^ 66) by (apply Z.pow_lt_mono_r; lia). lia. }
  exists d, ds. rewrite E1, app_nil_r. repeat split; try assumption.
  unfold octal_value. rewrite E3. lia.
Qed.

Lemma zeros_value k ds :
  octal_value (repeat "0"%char k ++ ds) = octal_value ds.
Proof.
  induction k as [|k IH]; [reflexivity|].
  cbn [repeat app]. now rewrite octal_value_0.
Qed.

Lemma zeros_digits k : forallb is_octal_digit (repeat "0"%char k) = true.
Proof.
  induction k as [|k IH]; [reflexivity|]. cbn [repeat forallb].
  now rewrite IH.
Qed.

(** X17: over the whole 32-bit range the octal forms read back what
    [%o] and [%03o] write: the digits of [v] parse to [v] when [v] has at
    least three of them, and the zero-padded digits of [v] after the prefix
    [0], or [0o], parse to [v]. *)
Theorem octal_forms_read_back p v :
  0 <= v <= maxUint32 ->
  (o100 <= v -> UnmarshalText p (fmt_octal v) = Returned v None)
  /\ UnmarshalText p ("0"%char :: fmt_octal3 v) = Returned v None
  /\ UnmarshalText p ("0"%char :: "o"%char :: fmt_octal3 v) = Returned v None.
Proof.
  intros Hv.
  destruct (fmt_octal_spec v Hv) as (d & ds & E & Hd & Hval & Hlead).
  assert (H3 : is_octal_digits 3 (fmt_octal3 v) = true).
  { unfold fmt_octal3. cbv zeta. apply octal_digits_intro.
    - rewrite length_app, repeat_length. lia.
    - rewrite forallb_app, zeros_digits, E. exact Hd. }
  assert (V3 : octal_value (fmt_octal3 v) = v).
  { unfold fmt_octal3. cbv zeta. now rewrite zeros_value, E. }
  destruct (octal_text p (fmt_octal3 v) H3 ltac:(lia)) as (H1 & H2 & _).
  rewrite V3 in H1, H2. split; [|split; assumption].
  intros H64. unfold o100 in H64.
  assert (Hlen : (3 <= length (d :: ds))%nat).
  { pose proof (octal_value_bound (d :: ds) 0 Hd (Z.le_refl 0)) as Hb.
    fold (octal_value (d :: ds)) in Hb. rewrite Hval in Hb.
    destruct (Nat.le_gt_cases 3 (length (d :: ds))) as [|Hlt];
      [assumption|exfalso].
    assert (8 ^ Z.of_nat (length (d :: ds)) <= 8 ^ 2)
      by (apply Z.pow_le_mono_r; lia).
    lia. }
  destruct (octal_text p (d :: ds) (octal_digits_intro 3 _ Hlen Hd)
              ltac:(lia)) as (_ & _ & H).
  rewrite E, <- Hval at 1. rewrite Hval at 1.
  rewrite (H d ds eq_refl (Hlead ltac:(lia))). now rewrite Hval.
Qed.

Lemma octal_forms_read_back_witness :
  0 <= 4294967295 <= maxUint32
  /\ UnmarshalText 0 (B "37777777777") = Returned 4294967295 None
  /\ UnmarshalText 0 (B "037777777777") = Returned 4294967295 None
  /\ UnmarshalText 0 (B "0o37777777777") = Returned 4294967295 None.
Proof.
  assert (H : 0 <= 4294967295 <= maxUint32)
    by (vm_compute; split; discriminate).
  split; [exact H|].
  destruct (octal_forms_read_back 0 4294967295 H) as (H1 & H2 & H3).
  split; [apply H1; vm_compute; discriminate|]. split; [exact H2|exact H3].
Defined.

(** X18: [FromString] answers the zero [Perm] with every error, and the
    error is the one [UnmarshalText] gives on any receiver; a value it
    answers without an error is the one [UnmarshalText] stores in any
    receiver. *)
Theorem FromString_zero_on_error s r e :
  FromString s = Returned r e ->
  (forall p, UnmarshalText p s
             = Returned (match e with Some _ => p | None => r end) e)
  /\ (e <> None -> r = 0).
Proof.
  unfold FromString. intros H. split.
  - intros p. pose proof (UnmarshalText_receiver 0 p s) as S.
    rewrite H in S. destruct (UnmarshalText p s) as [r' e'|] eqn:U;
      simpl in S; [|destruct S].
    destruct S as [<- S]. destruct e as [x|].
    + now rewrite (UnmarshalText_failure p s r' x U).
    + now rewrite (S eq_refl).
  - destruct e as [x|]; [intros _|congruence].
    exact (UnmarshalText_failure 0 s r x H).
Qed.

Lemma FromString_zero_on_error_witness :
  FromString (B "rwz") = Returned 0 (Some (ErrUnrecognized (B "rwz")))
  /\ (forall p, UnmarshalText p (B "rwz")
                = Returned p (Some (ErrUnrecognized (B "rwz"))))
  /\ (Some (ErrUnrecognized (B "rwz")) <> None -> 0 = 0).
Proof.
  assert (H : FromString (B "rwz")
              = Returned 0 (Some (ErrUnrecognized (B "rwz"))))
    by reflexivity.
  split; [exact H|].
  exact (FromString_zero_on_error (B "rwz") 0 _ H).
Defined.

End OctalText.

(* ================================================================= *)
(** ** Beyond the specification: what a symbolic string can set *)

Module Granted.

Import Clauses.

Ltac bitwise :=
  apply Z.bits_inj'; intros k Hk;
  repeat first [rewrite Z.land_spec | rewrite Z.lor_spec
               | rewrite Z.lnot_spec by exact Hk | rewrite Z.bits_0];
  repeat match goal with
         | |- context [Z.testbit ?x k] =>
             is_var x; destruct (Z.testbit x k)
         end;
  reflexivity.

Lemma submask_lor_mono g acc x :
  submask g acc -> submask (Z.lor g x) (Z.lor acc x).
Proof.
  unfold submask. intros H. rewrite <- H.
  generalize dependent x. intros x. clear H. bitwise.
Qed.

Lemma granted_step g acc c :
  submask g acc ->
  submask (if cl_op c == "-" then g else Z.lor g (clause_bits c))
          (spec_apply acc c).
Proof.
  intros H. unfold spec_apply, clause_bits. cbv zeta.
  destruct (cl_op c == "+") eqn:Ep.
  - apply Ascii.eqb_eq in Ep. rewrite Ep.
    change (("+" == "-")%char) with false. cbv iota.
    now apply submask_lor_mono.
  - destruct (cl_op c == "-").
    + now apply submask_land.
    + apply submask_lor_mono.
      eapply submask_mono; [apply submask_land, submask_refl|exact H].
Qed.

Lemma granted_fold cs : forall g acc,
  submask g acc ->
  submask
    (fold_left (fun m c => if cl_op c == "-" then m
                           else Z.lor m (clause_bits c)) cs g)
    (fold_left spec_apply cs acc).
Proof.
  induction cs as [|c cs IH]; intros g acc H; [exact H|].
  cbn [fold_left]. apply IH. now apply granted_step.
Qed.

Lemma granted_fold_none cs : forall g,
  (forall c, In c cs -> cl_op c = "-"%char) ->
  fold_left (fun m c => if cl_op c == "-" then m
                        else Z.lor m (clause_bits c)) cs g = g.
Proof.
  induction cs as [|c cs IH]; intros g H; [reflexivity|].
  cbn [fold_left]. rewrite (H c) by now left.
  change (("-" == "-")%char) with true. cbv iota.
  apply IH. intros c' Hc'. apply H. now right.
Qed.

Lemma granted_none cs :
  (forall c, In c cs -> cl_op c = "-"%char) -> granted cs = 0.
Proof. apply granted_fold_none. Qed.

(** X19: a symbolic string sets no bit that none of its [+] or [=] clauses
    names; in particular a string of [-] clauses alone parses to zero,
    whatever the receiver held. *)
Theorem symbolic_sets_only_granted_bits p cs :
  cs <> [] -> forallb wf_clause cs = true ->
  exists r,
    UnmarshalText p (render_clauses cs) = Returned r None
    /\ submask (granted cs) r
    /\ ((forall c, In c cs -> cl_op c = "-"%char) -> r = 0).
Proof.
  intros Hne W. exists (fold_left spec_apply cs 0).
  split; [now apply UnmarshalText_render|].
  assert (S : submask (granted cs) (fold_left spec_apply cs 0))
    by apply granted_fold, submask_0.
  split; [exact S|].
  intros H. rewrite (granted_none cs H) in S.
  unfold submask in S. now rewrite Z.land_0_r in S.
Qed.

Lemma symbolic_sets_only_granted_bits_witness :
  [Clause (B "u") "-" (B "rwx") (B " "); Clause (B "go") "-" (B "w") []]
  <> []
  /\ exists r,
       UnmarshalText o777 (B "u-rwx go-w") = Returned r None
       /\ submask 0 r
       /\ ((forall c,
              In c [Clause (B "u") "-" (B "rwx") (B " ");
                    Clause (B "go") "-" (B "w") []] ->
              cl_op c = "-"%char) -> r = 0).
Proof.
  assert (Hne : [Clause (B "u") "-" (B "rwx") (B " ");
                 Clause (B "go") "-" (B "w") []] <> []) by discriminate.
  split; [exact Hne|].
  exact (symbolic_sets_only_granted_bits o777
           [Clause (B "u") "-" (B "rwx") (B " ");
            Clause (B "go") "-" (B "w") []] Hne eq_refl).
Defined.

Lemma last_clause acc c :
  let r := spec_apply acc c in
  (cl_op c = "+"%char -> Z.land r (clause_bits c) = clause_bits c)
  /\ (cl_op c = "-"%char -> Z.land r (clause_bits c) = 0)
  /\ (cl_op c = "="%char ->
      Z.land r (actor_mask (cl_actor c)) = clause_bits c).
Proof.
  unfold spec_apply, clause_bits. cbv zeta.
  generalize (actor_mask (cl_actor c)) (perm_mask (cl_perm c)).
  intros am pm.
  split; [|split]; intros ->.
  - change (("+" == "+")%char) with true. cbv iota. bitwise.
  - change (("-" == "+")%char) with false.
    change (("-" == "-")%char) with true. cbv iota. bitwise.
  - change (("=" == "+")%char) with false.
    change (("=" == "-")%char) with false. cbv iota. bitwise.
Qed.

(** X20: the last clause of a symbolic string holds in the value parsed:
    after a final [+] the bits the clause names are set, after a final [-]
    they are clear, and after a final [=] the nibbles of its actors hold
    the permissions of the clause and nothing else. *)
Theorem last_clause_holds p cs c :
  forallb wf_clause (cs ++ [c]) = true ->
  exists r,
    UnmarshalText p (render_clauses (cs ++ [c])) = Returned r None
    /\ (cl_op c = "+"%char -> Z.land r (clause_bits c) = clause_bits c)
    /\ (cl_op c = "-"%char -> Z.land r (clause_bits c) = 0)
    /\ (cl_op c = "="%char ->
        Z.land r (actor_mask (cl_actor c)) = clause_bits c).
Proof.
  intros W. exists (fold_left spec_apply (cs ++ [c]) 0). split.
  - apply UnmarshalText_render; [destruct cs; discriminate|assumption].
  - rewrite fold_left_app. cbn [fold_left]. apply last_clause.
Qed.

Lemma last_clause_holds_witness :
  forallb wf_clause
    ([Clause (B "a") "=" (B "rwx") (B " ")]
     ++ [Clause (B "go") "=" (B "r") []]) = true
  /\ exists r,
       UnmarshalText 0 (B "a=rwx go=r") = Returned r None
       /\ (cl_op (Clause (B "go") "=" (B "r") []) = "+"%char ->
           Z.land r (clause_bits (Clause (B "go") "=" (B "r") []))
           = clause_bits (Clause (B "go") "=" (B "r") []))
       /\ (cl_op (Clause (B "go") "=" (B "r") []) = "-"%char ->
           Z.land r (clause_bits (Clause (B "go") "=" (B "r") [])) = 0)
       /\ (cl_op (Clause (B "go") "=" (B "r") []) = "="%char ->
           Z.land r 63 = 36).
Proof.
  split; [reflexivity|].
  exact (last_clause_holds 0 [Clause (B "a") "=" (B "rwx") (B " ")]
           (Clause (B "go") "=" (B "r") []) eq_refl).
Defined.

End Granted.
